(** * RAJA CUDA reductions (include/RAJA/policy/cuda/reduce.hpp)

    A shallow embedding of the warp/block/grid reduction kernels, the
    pinned tally and the host side reduction handle, together with the
    properties of the design specification that concern them.

    Conventions of the embedding.
    - A thread block is the list of the values its threads hold, indexed by
      the linear [threadId]; warp-synchronous code is a function from the
      state of all threads to the next state of all threads.
    - Blocks of one grid interleave: the accesses to device memory made by
      one block are the steps of a per-block program counter, and a
      schedule is the list of block ids in the order in which they step.
      Atomics and fenced stores are single steps of that interleaving.
    - Host objects live in explicit stores indexed by addresses. *)

From Stdlib Require Import ZArith List Lia Bool Arith.
From Stdlib.Strings Require Import Byte.
From Stdlib.Zmod Require Import ZmodDef ZmodBase.
From stdpp Require Import base option list gmap.

Local Open Scope nat_scope.

(** ** Reducers *)

(** Modelled from the spec: the reducer operator of
    [RAJA/pattern/reduce.hpp] (not part of this file): a binary combine
    [Reducer{}(acc, v)] updating [acc] in place, and [Reducer::identity].
    [object_bytes] is the object representation of a value ([sizeof(T)]
    bytes), as read through the union in [bitwize_zero]. *)
Class Reducer (T : Type) := {
  combine : T -> T -> T;
  identity : T;
  object_bytes : T -> list byte
}.

(** Modelled from the spec: "an associative, commutative binary combine"
    and "an identity constant such that combine(identity, x) == x". *)
Class ReducerLaws (T : Type) `{Reducer T} : Prop := {
  combine_assoc : forall x y z : T, combine x (combine y z) = combine (combine x y) z;
  combine_comm : forall x y : T, combine x y = combine y x;
  combine_identity_l : forall x : T, combine identity x = x
}.

(** The part of the laws that does not speak of the order of the operands. *)
Class ReducerMonoid (T : Type) `{Reducer T} : Prop := {
  monoid_assoc : forall x y z : T, combine x (combine y z) = combine (combine x y) z;
  monoid_identity_l : forall x : T, combine identity x = x;
  monoid_identity_r : forall x : T, combine x identity = x
}.

(** The serial reference: fold the values one after the other into [acc]. *)
Definition serial_reduce {T} `{Reducer T} (acc : T) (vs : list T) : T :=
  fold_left combine vs acc.

(** *** 32-bit integers *)

(** [int]: the integers modulo [2^32], read as signed. *)
Definition int32 : Type := Zmod (2 ^ 32).

Definition byte_of_Z (z : Z) : byte :=
  default x00 (Byte.of_N (Z.to_N (z mod 256))).

(** Little-endian two's complement representation of an [int]. *)
Definition int32_bytes (x : int32) : list byte :=
  map (fun k : Z => byte_of_Z (Zmod.unsigned x / 2 ^ (8 * k))) [0; 1; 2; 3]%Z.

Definition INT_MAX : int32 := Zmod.of_Z _ (2 ^ 31 - 1).

(** Modelled from the spec: the [sum] variant of the reducer operator at
    [int] ([RAJA::reduce::sum<int>], not part of this file): [val += v],
    identity [0]. The addition of [int] wraps around. *)
Definition sum_int32 : Reducer int32 :=
  {| combine := Zmod.add; identity := Zmod.zero; object_bytes := int32_bytes |}.

(** The sum of [xs] as integers, without the wrap-around of [int]. *)
Definition sum_signed (xs : list int32) : Z :=
  fold_right Z.add 0%Z (map Zmod.signed xs).

(** Modelled from the spec: the [min] variant of the reducer operator at
    [int] ([RAJA::reduce::min<int>], not part of this file):
    [if (v < val) val = v], identity [INT_MAX]. *)
Definition min_int32 : Reducer int32 :=
  {| combine := fun a b => if (Zmod.signed b <? Zmod.signed a)%Z then b else a;
     identity := INT_MAX;
     object_bytes := int32_bytes |}.

(** The free monoid over thread ids: a value is the list of the threads whose
    contributions it holds, in the order they were combined. *)
Definition contributions : Reducer (list nat) :=
  {| combine := app; identity := []; object_bytes := fun _ => [] |}.

(** The sum of unbounded integers. *)
Definition sum_Z : Reducer Z :=
  {| combine := Z.add; identity := 0%Z; object_bytes := fun z => int32_bytes (Zmod.of_Z _ z) |}.

(** The combine of a list of values, left to right, from the identity. *)
Definition reduce_all {T} `{Reducer T} (vs : list T) : T := foldr combine identity vs.

(** ** [impl::bitwize_zero] *)

Module Bitwise.

Definition sizeof_int : nat := 4.

(** [(sizeof(T) + sizeof(int) - 1) / sizeof(int)] *)
Definition int_sizeof_T (sizeof_T : nat) : nat :=
  (sizeof_T + sizeof_int - 1) / sizeof_int.

(** The bytes of the union after [Tunion{}] (constructor [arr{0}]) and
    [Tunion.var = var]: the bytes of [var], then the zero bytes of the part
    of [arr] that [var] does not cover. *)
Definition Tunion (var : list byte) : list byte :=
  var ++ repeat x00 (int_sizeof_T (length var) * sizeof_int - length var).

(** An [int] read from four bytes of memory (little endian, signed). *)
Definition int_of_bytes (bs : list byte) : Z :=
  let u := fold_right (fun b acc => (Z.of_N (Byte.to_N b) + 256 * acc)%Z) 0%Z bs in
  if (u <? 2 ^ 31)%Z then u else (u - 2 ^ 32)%Z.

(** [Tunion.arr[i]] *)
Definition arr (mem : list byte) (i : nat) : Z :=
  int_of_bytes (take sizeof_int (drop (sizeof_int * i) mem)).

(** [for (int i = 0; i < n; ++i) zero |= Tunion.arr[i];] *)
Definition or_loop (mem : list byte) (n : nat) (zero : Z) : Z :=
  fold_left (fun z i => Z.lor z (arr mem i)) (seq 0 n) zero.

Definition bitwize_zero (var : list byte) : bool :=
  let mem := Tunion var in
  let zero := or_loop mem (int_sizeof_T (length var)) 0%Z in
  (zero =? 0)%Z.

End Bitwise.

(** ** [impl::block_reduce] *)

Module Block.
Section BlockReduce.

Context {T : Type} `{Reducer T}.

(** [WARP_SIZE] and [MAX_WARPS] are constants of [RAJA/policy/cuda/policy.hpp];
    they are parameters here. *)
Variables WARP_SIZE MAX_WARPS : nat.

(** What a shuffle returns when the source lane holds no thread of the block,
    and the contents of shared memory before it is written: both arbitrary. *)
Variable undef : nat -> T.
Variable sd_init : nat -> T.

(** The register [var] of thread [src], as another lane of the warp sees it. *)
Definition lane_read (temps : list T) (src : nat) : T :=
  match temps !! src with
  | Some v => v
  | None => undef src
  end.

(** CUDA's [__shfl_xor_sync(var, laneMask)] in thread [threadId]: the value of
    the lane whose id is the caller's lane id xor [laneMask], same warp. *)
Definition shfl_xor_sync (temps : list T) (threadId laneMask : nat) : T :=
  lane_read temps
    (WARP_SIZE * (threadId / WARP_SIZE) + Nat.lxor (threadId mod WARP_SIZE) laneMask).

(** CUDA's [__shfl_sync(var, srcLane)] in thread [threadId]: the value of lane
    [srcLane] modulo the warp width, same warp. *)
Definition shfl_sync (temps : list T) (threadId srcLane : nat) : T :=
  lane_read temps (WARP_SIZE * (threadId / WARP_SIZE) + srcLane mod WARP_SIZE).

(** [for (int i = 1; i < WARP_SIZE; i *= 2) body(i)], on a state [S]. The
    loop runs fewer than [WARP_SIZE] times, which is the fuel it is given. *)
Fixpoint for_strides {S : Type} (fuel i : nat) (body : nat -> S -> S) (s : S) : S :=
  match fuel with
  | 0 => s
  | Datatypes.S fuel' =>
      if i <? WARP_SIZE then for_strides fuel' (i * 2) body (body i s) else s
  end.

(** One iteration of the loop of the branch [numThreads % WARP_SIZE == 0],
    in every thread at once. *)
Definition xor_step (i : nat) (temps : list T) : list T :=
  imap (fun threadId temp =>
          let rhs := shfl_xor_sync temps threadId i in
          combine temp rhs) temps.

(** One iteration of the loop of the other branch. *)
Definition guarded_step (numThreads i : nat) (temps : list T) : list T :=
  imap (fun threadId temp =>
          let srcLane := Nat.lxor threadId i in
          let rhs := shfl_sync temps threadId srcLane in
          if srcLane <? numThreads then combine temp rhs else temp) temps.

(** [if (warpId == 0) sd[warpNum] = temp;] in every thread. A store past the
    end of [sd] is not modelled (it is out of bounds in the source). *)
Definition publish (temps : list T) (sd : list T) : list T :=
  foldl (fun sd '(threadId, temp) =>
           let warpId := threadId mod WARP_SIZE in
           let warpNum := threadId / WARP_SIZE in
           if warpId =? 0 then <[warpNum := temp]> sd else sd)
        sd (imap pair temps).

(** [sd[i]] *)
Definition sd_read (sd : list T) (i : nat) : T :=
  match sd !! i with
  | Some v => v
  | None => undef i
  end.

(** [if (warpNum == 0) { if (warpId*WARP_SIZE < numThreads) temp = sd[warpId];
    else temp = Reducer::identity; }] *)
Definition load_warps (numThreads : nat) (sd temps : list T) : list T :=
  imap (fun threadId temp =>
          let warpId := threadId mod WARP_SIZE in
          let warpNum := threadId / WARP_SIZE in
          if warpNum =? 0 then
            if warpId * WARP_SIZE <? numThreads then sd_read sd warpId else identity
          else temp) temps.

(** One iteration of the last loop, run by warp 0 only. *)
Definition warp0_step (i : nat) (temps : list T) : list T :=
  imap (fun threadId temp =>
          let warpNum := threadId / WARP_SIZE in
          if warpNum =? 0 then
            let rhs := shfl_xor_sync temps threadId i in
            combine temp rhs
          else temp) temps.

(** [block_reduce<Reducer>(val)] run by all threads of a block: [val] holds
    the argument of each thread, the result the value each thread returns. *)
Definition block_reduce (val : list T) : list T :=
  let numThreads := length val in
  let temp := val in
  let temp :=
    if numThreads mod WARP_SIZE =? 0
    then for_strides WARP_SIZE 1 xor_step temp
    else for_strides WARP_SIZE 1 (guarded_step numThreads) temp in
  if WARP_SIZE <? numThreads then
    let sd := publish temp (map sd_init (seq 0 MAX_WARPS)) in
    let temp := load_warps numThreads sd temp in
    let temp := for_strides WARP_SIZE 1 warp0_step temp in
    temp
  else temp.

(** The value [block_reduce] returns in thread 0. *)
Definition block_aggregate (val : list T) : T :=
  lane_read (block_reduce val) 0.

End BlockReduce.
End Block.

(** ** [impl::shfl_xor_sync] and [impl::shfl_sync] *)

Module Shuffle.
Import Bitwise.

Section Words.

Variable WARP_SIZE : nat.

(** What the shuffle of an [int] returns in a thread whose source lane
    holds no thread of the block (by source and word), and the bytes a
    thread finds in the part of its union that [var] does not cover (by
    thread and offset): both arbitrary. *)
Variable undef_int : nat -> nat -> Z.
Variable junk : nat -> nat -> byte.

(** The four bytes of an [int] (little endian, two's complement). *)
Definition bytes_of_int (v : Z) : list byte :=
  map (fun k : Z => byte_of_Z (v / 2 ^ (8 * k))) [0; 1; 2; 3]%Z.

(** The bytes of the union of thread [threadId] after [Tunion.var = var]. *)
Definition Tunion_store (threadId : nat) (var : list byte) : list byte :=
  var ++ map (junk threadId)
             (seq (length var) (int_sizeof_T (length var) * sizeof_int - length var)).

(** [Tunion.arr[i] = v] *)
Definition set_arr (mem : list byte) (i : nat) (v : Z) : list byte :=
  take (sizeof_int * i) mem ++ bytes_of_int v ++ drop (sizeof_int * (i + 1)) mem.

(** CUDA's shuffle of an [int] register: [regs] holds what every thread
    passes, the result is what the thread at [src] passed. *)
Definition shfl_int (regs : list Z) (src i : nat) : Z :=
  match regs !! src with
  | Some v => v
  | None => undef_int src i
  end.

(** The thread that [__shfl_xor_sync(v, laneMask)] reads from, and the one
    that [__shfl_sync(v, srcLane)] reads from. *)
Definition xor_lane (laneMask threadId : nat) : nat :=
  WARP_SIZE * (threadId / WARP_SIZE) + Nat.lxor (threadId mod WARP_SIZE) laneMask.

Definition indexed_lane (srcLane : nat -> nat) (threadId : nat) : nat :=
  WARP_SIZE * (threadId / WARP_SIZE) + srcLane threadId mod WARP_SIZE.

(** [Tunion.arr[i] = shuffle(Tunion.arr[i], ...)] in every thread at once;
    [lane] gives the thread each thread reads from. *)
Definition shfl_word (lane : nat -> nat) (i : nat) (mems : list (list byte))
  : list (list byte) :=
  let regs := map (fun mem => arr mem i) mems in
  imap (fun threadId mem => set_arr mem i (shfl_int regs (lane threadId) i)) mems.

(** The body of both functions, run by all threads: [vars] holds the bytes
    of [var] in every thread, [sizeof_T] is [sizeof(T)]; the result is what
    each thread returns. *)
Definition shfl_words (lane : nat -> nat) (sizeof_T : nat) (vars : list (list byte))
  : list (list byte) :=
  let mems := imap Tunion_store vars in
  let mems := fold_left (fun mems i => shfl_word lane i mems)
                        (seq 0 (int_sizeof_T sizeof_T)) mems in
  map (take sizeof_T) mems.

(** [shfl_xor_sync(var, laneMask)] *)
Definition shfl_xor_sync (sizeof_T : nat) (vars : list (list byte)) (laneMask : nat)
  : list (list byte) :=
  shfl_words (xor_lane laneMask) sizeof_T vars.

(** [shfl_sync(var, srcLane)]; [srcLane] may differ from thread to thread. *)
Definition shfl_sync (sizeof_T : nat) (vars : list (list byte)) (srcLane : nat -> nat)
  : list (list byte) :=
  shfl_words (indexed_lane srcLane) sizeof_T vars.

End Words.
End Shuffle.

(** ** [impl::block_reduce] on located values *)

(** [cuda::LocType<T, IndexType>] (declared outside this file): a value and
    the index it was found at. *)
Module Loc.

Record LocType (T I : Type) : Type := mkLoc { val : T; idx : I }.
Arguments mkLoc {T I} val idx.
Arguments val {T I} _.
Arguments idx {T I} _.

End Loc.

(** Modelled from the spec: the 4-ary variant of the reducer operator, for
    location reducers ([RAJA/pattern/reduce.hpp], not part of this file):
    [Reducer{}(val, idx, v, i)] updates [val] and [idx] in place.
    [loc_identity] is [Reducer::identity] and [no_loc] is [IndexType{-1}]. *)
Class LocReducer (T I : Type) := {
  combine_loc : T -> I -> T -> I -> T * I;
  loc_identity : T;
  no_loc : I
}.

Module BlockLoc.
Section BlockReduceLoc.

Context {T I : Type} `{LocReducer T I}.
Variables WARP_SIZE MAX_WARPS : nat.

(** What a shuffle of [temp.val] and of [temp.idx] returns when the source
    lane holds no thread of the block, and the contents of [sd_val] and
    [sd_idx] before they are written: all arbitrary. *)
Variable undef_val : nat -> T.
Variable undef_idx : nat -> I.
Variable sd_val_init : nat -> T.
Variable sd_idx_init : nat -> I.

(** [Reducer{}(temp.val, temp.idx, rhs_val, rhs_idx);] *)
Definition reduce_loc (temp : Loc.LocType T I) (rhs_val : T) (rhs_idx : I)
    : Loc.LocType T I :=
  let '(v, i) := combine_loc (Loc.val temp) (Loc.idx temp) rhs_val rhs_idx in
  Loc.mkLoc v i.

(** One iteration of the loop of the branch [numThreads % WARP_SIZE == 0],
    in every thread at once: [temp.val] and [temp.idx] are shuffled one
    after the other. *)
Definition xor_step (i : nat) (temps : list (Loc.LocType T I)) : list (Loc.LocType T I) :=
  imap (fun threadId temp =>
          let rhs_val :=
            Block.shfl_xor_sync WARP_SIZE undef_val (map Loc.val temps) threadId i in
          let rhs_idx :=
            Block.shfl_xor_sync WARP_SIZE undef_idx (map Loc.idx temps) threadId i in
          reduce_loc temp rhs_val rhs_idx) temps.

(** One iteration of the loop of the other branch. *)
Definition guarded_step (numThreads i : nat) (temps : list (Loc.LocType T I))
    : list (Loc.LocType T I) :=
  imap (fun threadId temp =>
          let srcLane := Nat.lxor threadId i in
          let rhs_val :=
            Block.shfl_sync WARP_SIZE undef_val (map Loc.val temps) threadId srcLane in
          let rhs_idx :=
            Block.shfl_sync WARP_SIZE undef_idx (map Loc.idx temps) threadId srcLane in
          if srcLane <? numThreads then reduce_loc temp rhs_val rhs_idx else temp) temps.

(** [if (warpNum == 0) { if (warpId*WARP_SIZE < numThreads)
      { temp.val = sd_val[warpId]; temp.idx = sd_idx[warpId]; }
    else { temp.val = Reducer::identity; temp.idx = IndexType{-1}; } }] *)
Definition load_warps (numThreads : nat) (sd_val : list T) (sd_idx : list I)
    (temps : list (Loc.LocType T I)) : list (Loc.LocType T I) :=
  imap (fun threadId temp =>
          let warpId := threadId mod WARP_SIZE in
          let warpNum := threadId / WARP_SIZE in
          if warpNum =? 0 then
            if warpId * WARP_SIZE <? numThreads
            then Loc.mkLoc (Block.sd_read undef_val sd_val warpId)
                           (Block.sd_read undef_idx sd_idx warpId)
            else Loc.mkLoc loc_identity no_loc
          else temp) temps.

(** One iteration of the last loop, run by warp 0 only. *)
Definition warp0_step (i : nat) (temps : list (Loc.LocType T I)) : list (Loc.LocType T I) :=
  imap (fun threadId temp =>
          let warpNum := threadId / WARP_SIZE in
          if warpNum =? 0 then
            let rhs_val :=
              Block.shfl_xor_sync WARP_SIZE undef_val (map Loc.val temps) threadId i in
            let rhs_idx :=
              Block.shfl_xor_sync WARP_SIZE undef_idx (map Loc.idx temps) threadId i in
            reduce_loc temp rhs_val rhs_idx
          else temp) temps.

(** [block_reduce<Reducer>(val)] on [LocType] run by all threads of a
    block. The stores [sd_val[warpNum] = temp.val] and
    [sd_idx[warpNum] = temp.idx] of the lanes 0 fill the two shared arrays. *)
Definition block_reduce (val : list (Loc.LocType T I)) : list (Loc.LocType T I) :=
  let numThreads := length val in
  let temp := val in
  let temp :=
    if numThreads mod WARP_SIZE =? 0
    then Block.for_strides WARP_SIZE WARP_SIZE 1 xor_step temp
    else Block.for_strides WARP_SIZE WARP_SIZE 1 (guarded_step numThreads) temp in
  if WARP_SIZE <? numThreads then
    let sd_val :=
      Block.publish WARP_SIZE (map Loc.val temp) (map sd_val_init (seq 0 MAX_WARPS)) in
    let sd_idx :=
      Block.publish WARP_SIZE (map Loc.idx temp) (map sd_idx_init (seq 0 MAX_WARPS)) in
    let temp := load_warps numThreads sd_val sd_idx temp in
    let temp := Block.for_strides WARP_SIZE WARP_SIZE 1 warp0_step temp in
    temp
  else temp.

End BlockReduceLoc.
End BlockLoc.

(** ** Grids of blocks *)

(** CUDA's [atomicInc(address, val)]: stores [(old >= val) ? 0 : old + 1] and
    returns [old]. The result is the pair of the returned and stored value. *)
Definition atomicInc (old val : nat) : nat * nat :=
  (old, if val <=? old then 0 else old + 1).

(** CUDA's [atomicCAS(address, compare, val)]: stores
    [old == compare ? val : old] and returns [old]. *)
Definition atomicCAS (old compare val : nat) : nat * nat :=
  (old, if old =? compare then val else old).

(** [return lastBlock && threadId == 0;] *)
Definition returns_true (lastBlock : bool) (threadId : nat) : bool :=
  lastBlock && (threadId =? 0).

(** CUDA's [__syncthreads_or(predicate)]: non-zero in every thread of the
    block when [predicate] is non-zero in any of them. [predicates] holds
    what each thread passes. *)
Definition syncthreads_or (predicates : list bool) : bool :=
  existsb id predicates.

(** ** [impl::grid_reduce] (tree variant) *)

Module Tree.

(** Where a block stands between two accesses to memory that other blocks
    see. Up to the barrier these are accesses of thread 0; after it, the
    stores of the threads that [grid_reduce] returned [true] to. *)
Inductive pc (T : Type) : Type :=
  | Start                (* entering [grid_reduce] *)
  | Publish (temp : T)   (* before [device_mem[blockId] = temp] *)
  | Count                (* before [atomicInc(device_count, wrap_around)] *)
  | Gather               (* [lastBlock] holds: before the loop over [device_mem] *)
  | Return (pending : list (nat * T))
                         (* left [grid_reduce]: the threads that returned [true] and
                            have yet to store to the tally slot, each with its [val] *)
  | Done.                (* nothing left to do, for any of its threads *)
Arguments Start {T}.
Arguments Publish {T} temp.
Arguments Count {T}.
Arguments Gather {T}.
Arguments Return {T} pending.
Arguments Done {T}.

(** The accesses to device and pinned memory, as they happen. *)
Inductive event (T : Type) : Type :=
  | WriteScratch (blockId : nat) (v : T)
  | IncCount (blockId : nat) (old_count : nat)
  | ReadScratch (blockId : nat)
  | ReturnTrue (blockId threadId : nat) (v : T)
                         (* a thread leaves [grid_reduce] with [true], [v] in [val] *)
  | WritePinned (blockId : nat) (v : T).
Arguments WriteScratch {T} blockId v.
Arguments IncCount {T} blockId old_count.
Arguments ReadScratch {T} blockId.
Arguments ReturnTrue {T} blockId threadId v.
Arguments WritePinned {T} blockId v.

Record state (T : Type) : Type := mkState {
  device_mem : list T;       (* [T* device_mem], [numBlocks] elements *)
  device_count : nat;        (* [unsigned int* device_count] *)
  val_ptr : option T;        (* [tally_or_val_ptr.val_ptr[0]], once written *)
  pcs : list (pc T);         (* one per block *)
  trace : list (event T)     (* newest first *)
}.
Arguments mkState {T}.
Arguments device_mem {T}.
Arguments device_count {T}.
Arguments val_ptr {T}.
Arguments pcs {T}.
Arguments trace {T}.

Section GridReduce.

Context {T : Type} `{Reducer T}.
Variables WARP_SIZE MAX_WARPS : nat.
Variable undef : nat -> T.
Variable sd_init : nat -> T.

Abbreviation block_aggregate := (Block.block_aggregate WARP_SIZE MAX_WARPS undef sd_init).

(** The launch: [val] of every thread of every block on entry, and the
    number of threads of a block. *)
Variable vals : list (list T).
Variable numThreads : nat.

Definition numBlocks : nat := length vals.
Definition wrap_around : nat := numBlocks - 1.

(** [for (int i = threadId; i < numBlocks; i += numThreads)
      Reducer{}(temp, device_mem[i]);] *)
Fixpoint gather_loop (fuel i : nat) (mem : list T) (temp : T) : T :=
  match fuel with
  | 0 => temp
  | S fuel' =>
      if i <? numBlocks
      then gather_loop fuel' (i + numThreads) mem (combine temp (Block.sd_read undef mem i))
      else temp
  end.

(** The last block: every thread folds its share of [device_mem] from
    [Reducer::identity], then the block reduces. *)
Definition gather (mem : list T) : T :=
  let temps := map (fun threadId => gather_loop numBlocks threadId mem identity)
                   (seq 0 numThreads) in
  block_aggregate temps.

Definition set_pc (b : nat) (p : pc T) (st : state T) : list (pc T) :=
  <[b := p]> (pcs st).

(** [lastBlock] in every thread of a block after
    [lastBlock = __syncthreads_or(lastBlock)]: thread 0 passes what it saw
    at [atomicInc], every other thread the [false] it started with. *)
Definition broadcast (blockId : nat) (lastBlock0 : bool) : bool :=
  syncthreads_or (imap (fun threadId _ => (threadId =? 0) && lastBlock0)
                       (default [] (vals !! blockId))).

(** [if (threadId == 0) { val = temp; }] in every thread of a block; [val]
    holds the [val] of each thread. *)
Definition store_val (temp : T) (val : list T) : list T :=
  <[0 := temp]> val.

(** The threads for which [grid_reduce] returns [true], by
    [return lastBlock && threadId == 0;] in each thread of the block, each
    with the [val] it holds then. *)
Definition returning (lastBlock : bool) (val : list T) : list (nat * T) :=
  List.filter (fun r => returns_true lastBlock r.1) (imap pair val).

(** Where a block is once its threads have returned. *)
Definition stores_left (pending : list (nat * T)) : pc T :=
  match pending with
  | [] => Done
  | _ :: _ => Return pending
  end.

(** The threads of block [blockId] return from [grid_reduce], with
    [lastBlock] and [val] as they are in each of them. *)
Definition leave (blockId : nat) (lastBlock : bool) (val : list T) (count : nat)
    (tr : list (event T)) (st : state T) : state T :=
  let pending := returning lastBlock val in
  mkState (device_mem st) count (val_ptr st)
          (set_pc blockId (stores_left pending) st)
          (rev (map (fun r => ReturnTrue blockId r.1 r.2) pending) ++ tr).

(** One step of block [blockId]. In [Return], one thread that
    [grid_reduce] returned [true] to runs
    [tally_or_val_ptr.val_ptr[0] = temp;] of [Reduce_Data::destroy]. *)
Definition step (st : state T) (blockId : nat) : state T :=
  match pcs st !! blockId with
  | None => st
  | Some Start =>
      let val := default [] (vals !! blockId) in
      let temp := block_aggregate val in
      if numBlocks =? 1
      then leave blockId true (store_val temp val) (device_count st) (trace st) st
      else mkState (device_mem st) (device_count st) (val_ptr st)
                   (set_pc blockId (Publish temp) st) (trace st)
  | Some (Publish temp) =>
      mkState (<[blockId := temp]> (device_mem st)) (device_count st) (val_ptr st)
              (set_pc blockId Count st) (WriteScratch blockId temp :: trace st)
  | Some Count =>
      let '(old_count, new_count) := atomicInc (device_count st) wrap_around in
      let lastBlock := broadcast blockId (old_count =? wrap_around) in
      if lastBlock
      then mkState (device_mem st) new_count (val_ptr st)
                   (set_pc blockId Gather st) (IncCount blockId old_count :: trace st)
      else leave blockId false (default [] (vals !! blockId)) new_count
                 (IncCount blockId old_count :: trace st) st
  | Some Gather =>
      let temp := gather (device_mem st) in
      leave blockId true (store_val temp (default [] (vals !! blockId)))
            (device_count st) (ReadScratch blockId :: trace st) st
  | Some (Return pending) =>
      match pending with
      | [] => mkState (device_mem st) (device_count st) (val_ptr st)
                      (set_pc blockId Done st) (trace st)
      | (_, val) :: pending' =>
          mkState (device_mem st) (device_count st) (Some val)
                  (set_pc blockId (stores_left pending') st)
                  (WritePinned blockId val :: trace st)
      end
  | Some Done => st
  end.

(** The kernel under a schedule: the block ids in the order they step. *)
Definition run (sched : list nat) (st : state T) : state T :=
  foldl step st sched.

(** On launch: scratch from the device pool (contents arbitrary), the counter
    from the zeroed pool, the tally slot not yet written. *)
Definition init (mem_init : list T) : state T :=
  mkState mem_init 0 None (replicate numBlocks Start) [].

Definition finished (st : state T) : bool :=
  forallb (fun p => match p with Done => true | _ => false end) (pcs st).

(** The stores to the tally slot, newest first: the block and the value. *)
Definition pinned_writes (st : state T) : list (nat * T) :=
  omap (fun e => match e with WritePinned b v => Some (b, v) | _ => None end)
       (trace st).

(** The threads that [grid_reduce] returned [true] to, newest first: the
    block and the thread. *)
Definition returned_true (st : state T) : list (nat * nat) :=
  omap (fun e => match e with ReturnTrue b t _ => Some (b, t) | _ => None end)
       (trace st).

(** The blocks that saw [old_count == wrap_around]. *)
Definition wrapped_blocks (st : state T) : list nat :=
  omap (fun e => match e with
                 | IncCount b old => if old =? wrap_around then Some b else None
                 | _ => None
                 end)
       (trace st).

(** The accesses to [device_mem] and [device_count]. *)
Definition device_accesses (st : state T) : list (event T) :=
  List.filter (fun e => match e with
                        | WriteScratch _ _ | IncCount _ _ | ReadScratch _ => true
                        | _ => false
                        end)
              (trace st).

End GridReduce.
End Tree.

(** ** [impl::setup_grid_reduce_atomic] and [impl::grid_reduce_atomic] *)

Module Atomic.

(** Where thread 0 of a block stands. The device copy of the handle is
    constructed first ([setup_grid_reduce_atomic]) and destroyed last
    ([grid_reduce_atomic]). *)
Inductive pc (T : Type) : Type :=
  | Setup                (* entering [setup_grid_reduce_atomic] *)
  | InitWrite            (* won the CAS: before [*device_mem = Reducer::identity] *)
  | InitBump             (* before [atomicAdd(device_count, 1u)] *)
  | Reduce               (* entering [grid_reduce_atomic] *)
  | Spin (temp : T)      (* in [while (device_count[0] < 2u);] *)
  | Combine (temp : T)   (* before [atomic<Reducer>{}(device_mem[0], temp)] *)
  | Count                (* before [atomicInc(device_count, wrap_around)] *)
  | ReadBack             (* [lastBlock] holds: before [val = *device_mem] *)
  | Return (val : T)     (* returned [true] with [val]: before the store to the tally slot *)
  | Done.
Arguments Setup {T}.
Arguments InitWrite {T}.
Arguments InitBump {T}.
Arguments Reduce {T}.
Arguments Spin {T} temp.
Arguments Combine {T} temp.
Arguments Count {T}.
Arguments ReadBack {T}.
Arguments Return {T} val.
Arguments Done {T}.

Inductive event (T : Type) : Type :=
  | CasCount (blockId : nat) (old_val : nat)
  | WriteIdentity (blockId : nat)
  | BumpCount (blockId : nat)
  | ReadCount (blockId : nat) (count : nat)
  (* the atomic combine: the accumulator it found, whether the accumulator
     had been written since the launch, its own operand *)
  | AtomicCombine (blockId : nat) (found : T) (written : bool) (temp : T)
  | IncCount (blockId : nat) (old_count : nat)
  | ReadAccumulator (blockId : nat) (v : T)
  | ReturnTrue (blockId : nat) (v : T)
  | WritePinned (blockId : nat) (v : T).
Arguments CasCount {T} blockId old_val.
Arguments WriteIdentity {T} blockId.
Arguments BumpCount {T} blockId.
Arguments ReadCount {T} blockId count.
Arguments AtomicCombine {T} blockId found written temp.
Arguments IncCount {T} blockId old_count.
Arguments ReadAccumulator {T} blockId v.
Arguments ReturnTrue {T} blockId v.
Arguments WritePinned {T} blockId v.

Record state (T : Type) : Type := mkState {
  device_mem : T;            (* [*device_mem], one element of the zeroed pool *)
  written : bool;            (* ghost: [*device_mem] was stored to since the launch *)
  device_count : nat;        (* [*device_count] *)
  val_ptr : option T;        (* [tally_or_val_ptr.val_ptr[0]], once written *)
  pcs : list (pc T);
  trace : list (event T)     (* newest first *)
}.
Arguments mkState {T}.
Arguments device_mem {T}.
Arguments written {T}.
Arguments device_count {T}.
Arguments val_ptr {T}.
Arguments pcs {T}.
Arguments trace {T}.

Section GridReduceAtomic.

Context {T : Type} `{Reducer T}.
Variables WARP_SIZE MAX_WARPS : nat.
Variable undef : nat -> T.
Variable sd_init : nat -> T.

Abbreviation block_aggregate := (Block.block_aggregate WARP_SIZE MAX_WARPS undef sd_init).

Variable vals : list (list T).

Definition numBlocks : nat := length vals.
Definition wrap_around : nat := numBlocks + 1.

(** [bitwize_zero(Reducer::identity)] *)
Definition identity_is_zero : bool :=
  Bitwise.bitwize_zero (object_bytes identity).

Definition set_pc (b : nat) (p : pc T) (st : state T) : list (pc T) :=
  <[b := p]> (pcs st).

(** One step of thread 0 of block [blockId]. [atomic<Reducer>] is the
    hardware atomic of the reducer ([atomicAdd], [atomicMin], [atomicMax]):
    the combine, in one step. *)
Definition step (st : state T) (blockId : nat) : state T :=
  match pcs st !! blockId with
  | None => st
  | Some Setup =>
      if negb identity_is_zero && negb (numBlocks =? 1) then
        let '(old_val, new_count) := atomicCAS (device_count st) 0 1 in
        mkState (device_mem st) (written st) new_count (val_ptr st)
                (set_pc blockId (if old_val =? 0 then InitWrite else Reduce) st)
                (CasCount blockId old_val :: trace st)
      else
        mkState (device_mem st) (written st) (device_count st) (val_ptr st)
                (set_pc blockId Reduce st) (trace st)
  | Some InitWrite =>
      mkState identity true (device_count st) (val_ptr st)
              (set_pc blockId InitBump st) (WriteIdentity blockId :: trace st)
  | Some InitBump =>
      mkState (device_mem st) (written st) (device_count st + 1) (val_ptr st)
              (set_pc blockId Reduce st) (BumpCount blockId :: trace st)
  | Some Reduce =>
      let temp := block_aggregate (default [] (vals !! blockId)) in
      if numBlocks =? 1 then
        mkState (device_mem st) (written st) (device_count st) (val_ptr st)
                (set_pc blockId (Return temp) st) (ReturnTrue blockId temp :: trace st)
      else if negb identity_is_zero then
        mkState (device_mem st) (written st) (device_count st) (val_ptr st)
                (set_pc blockId (Spin temp) st) (trace st)
      else
        mkState (device_mem st) (written st) (device_count st) (val_ptr st)
                (set_pc blockId (Combine temp) st) (trace st)
  | Some (Spin temp) =>
      let count := device_count st in
      mkState (device_mem st) (written st) (device_count st) (val_ptr st)
              (set_pc blockId (if count <? 2 then Spin temp else Combine temp) st)
              (ReadCount blockId count :: trace st)
  | Some (Combine temp) =>
      mkState (combine (device_mem st) temp) true (device_count st) (val_ptr st)
              (set_pc blockId Count st)
              (AtomicCombine blockId (device_mem st) (written st) temp :: trace st)
  | Some Count =>
      let '(old_count, new_count) := atomicInc (device_count st) wrap_around in
      let lastBlock := old_count =? wrap_around in
      mkState (device_mem st) (written st) new_count (val_ptr st)
              (set_pc blockId (if lastBlock then ReadBack else Done) st)
              (IncCount blockId old_count :: trace st)
  | Some ReadBack =>
      let val := device_mem st in
      mkState (device_mem st) (written st) (device_count st) (val_ptr st)
              (set_pc blockId (Return val) st)
              (ReturnTrue blockId val :: ReadAccumulator blockId val :: trace st)
  | Some (Return val) =>
      mkState (device_mem st) (written st) (device_count st) (Some val)
              (set_pc blockId Done st) (WritePinned blockId val :: trace st)
  | Some Done => st
  end.

Definition run (sched : list nat) (st : state T) : state T :=
  foldl step st sched.

(** On launch: the accumulator and the counter come from the zeroed pool;
    [zero] is the value of type [T] whose bytes are all zero. *)
Definition init (zero : T) : state T :=
  mkState zero false 0 None (replicate numBlocks Setup) [].

Definition finished (st : state T) : bool :=
  forallb (fun p => match p with Done => true | _ => false end) (pcs st).

(** The stores to the tally slot, newest first: the block and the value. *)
Definition pinned_writes (st : state T) : list (nat * T) :=
  omap (fun e => match e with WritePinned b v => Some (b, v) | _ => None end)
       (trace st).

(** The blocks whose thread 0 returned [true] from [grid_reduce_atomic]. *)
Definition last_blocks (st : state T) : list nat :=
  omap (fun e => match e with ReturnTrue b _ => Some b | _ => None end)
       (trace st).

(** The blocks that stored the identity to the accumulator. *)
Definition initializers (st : state T) : list nat :=
  omap (fun e => match e with WriteIdentity b => Some b | _ => None end)
       (trace st).

(** The blocks whose CAS of [device_count] from 0 to 1 succeeded. *)
Definition cas_winners (st : state T) : list nat :=
  omap (fun e => match e with
                 | CasCount b old => if old =? 0 then Some b else None
                 | _ => None
                 end)
       (trace st).

(** The blocks that have done their atomic combine, newest first. *)
Definition combined_blocks (st : state T) : list nat :=
  omap (fun e => match e with AtomicCombine b _ _ _ => Some b | _ => None end)
       (trace st).

(** Every atomic combine found an accumulator that had been stored to, and
    came after the block had read a [device_count] of 2 or more. *)
Fixpoint combines_guarded (tr : list (event T)) : Prop :=
  match tr with
  | [] => True
  | e :: older =>
      match e with
      | AtomicCombine b _ written _ =>
          written = true /\ exists count, 2 <= count /\ In (ReadCount b count) older
      | _ => True
      end /\ combines_guarded older
  end.

End GridReduceAtomic.
End Atomic.

(** ** [PinnedTally] *)

Module Tally.

Definition cudaStream_t : Type := nat.

(** A [Node] of pinned memory is known by its address; its [value] is what
    pinned memory holds there. *)
Definition addr : Type := nat.

(** [struct StreamNode { StreamNode* next; cudaStream_t stream; Node* node_list; }];
    the linked list [node_list] is the list of the addresses of its nodes. *)
Record StreamNode : Type := mkStreamNode {
  stream : cudaStream_t;
  node_list : list addr
}.

(** [StreamNode* stream_list], head first. *)
Definition PinnedTally : Type := list StreamNode.

(** The pinned memory pool: the addresses handed out and not yet freed. *)
Definition pool : Type := gset addr.

(** [pinned_mempool_type::getInstance().malloc<Node>(1)] *)
Definition pool_malloc (p : pool) : addr * pool :=
  let n := fresh p in (n, {[n]} ∪ p).

(** [pinned_mempool_type::getInstance().free(n)] *)
Definition pool_free (n : addr) (p : pool) : pool := p ∖ {[n]}.

(** [PinnedTally()] *)
Definition empty : PinnedTally := [].

(** [while (sn) { if (sn->stream == stream) break; sn = sn->next; }]: the
    position of the node the loop stops at, [None] for [nullptr]. *)
Fixpoint find_stream (sn : list StreamNode) (s : cudaStream_t) : option nat :=
  match sn with
  | [] => None
  | node :: next =>
      if stream node =? s then Some 0 else S <$> find_stream next s
  end.

(** [n->next = sn->node_list; sn->node_list = n;] *)
Definition push_node (n : addr) (sn : StreamNode) : StreamNode :=
  mkStreamNode (stream sn) (n :: node_list sn).

(** [new_value(stream)]: the address of the new node (of its [value]), the
    tally and the pool afterwards. *)
Definition new_value (s : cudaStream_t) (t : PinnedTally) (p : pool)
  : addr * PinnedTally * pool :=
  let '(sn, t) :=
    match find_stream t s with
    | Some i => (i, t)
    | None => (0, mkStreamNode s [] :: t)
    end in
  let '(n, p) := pool_malloc p in
  (n, alter (push_node n) sn t, p).

(** [free_list()] *)
Definition free_list (t : PinnedTally) (p : pool) : PinnedTally * pool :=
  ([], foldl (fun p sn => foldl (fun p n => pool_free n p) p (node_list sn)) p t).

(** [StreamIterator]: [m_sn] is the rest of the list from the node it
    points to, [[]] for [nullptr]. *)
Definition StreamIterator : Type := list StreamNode.
Definition streamBegin (t : PinnedTally) : StreamIterator := t.
Definition streamEnd : StreamIterator := [].

(** The streams from [streamBegin()] to [streamEnd()]. *)
Fixpoint streams (it : StreamIterator) : list cudaStream_t :=
  match it with
  | [] => []
  | sn :: next => stream sn :: streams next
  end.

(** [StreamNodeIterator]: [m_sn] and [m_n] are the rests of the two lists
    from the nodes they point to, [[]] for [nullptr]. *)
Record StreamNodeIterator : Type := mkIter {
  m_sn : list StreamNode;
  m_n : list addr
}.

Definition begin (t : PinnedTally) : StreamNodeIterator :=
  mkIter t (match t with sn :: _ => node_list sn | [] => [] end).

Definition end_ : StreamNodeIterator := mkIter [] [].

(** [operator==]: [m_n == rhs.m_n], an equality of pointers to nodes. *)
Definition iter_eq (a b : StreamNodeIterator) : bool :=
  match m_n a, m_n b with
  | [], [] => true
  | n :: _, n' :: _ => n =? n'
  | _, _ => false
  end.

(** [operator++]. It dereferences [m_n]; on [end()] the model stays put. *)
Definition incr (it : StreamNodeIterator) : StreamNodeIterator :=
  match m_n it with
  | [] => it
  | _ :: (_ :: _) as next => mkIter (m_sn it) next
  | [_] =>
      match m_sn it with
      | _ :: (sn :: _) as next => mkIter next (node_list sn)
      | _ => mkIter [] []
      end
  end.

(** [operator*]: the node pointed to. *)
Definition deref (it : StreamNodeIterator) : option addr := head (m_n it).

(** [for ( ; n != end; ++n) visit( *n )]: the nodes visited, in order. *)
Fixpoint visited (fuel : nat) (n : StreamNodeIterator) : list addr :=
  match fuel with
  | 0 => []
  | S fuel' =>
      if iter_eq n end_ then []
      else match deref n with
           | Some a => a :: visited fuel' (incr n)
           | None => []
           end
  end.

(** All nodes of the tally, stream by stream. *)
Definition slots (t : PinnedTally) : list addr :=
  concat (map node_list t).

(** The invariant of the structure. *)
Definition wf (t : PinnedTally) : Prop :=
  NoDup (map stream t) /\ Forall (fun sn => node_list sn <> []) t.

(** The nodes of stream [s], front first. *)
Fixpoint nodes_of (t : PinnedTally) (s : cudaStream_t) : list addr :=
  match t with
  | [] => []
  | sn :: next => if stream sn =? s then node_list sn else nodes_of next s
  end.

(** The calls [new_value(s)] for the streams [ss] in turn, on a new tally:
    the addresses returned (in the order of the calls), the tally and the
    pool afterwards. *)
Definition new_values (ss : list cudaStream_t) (p0 : pool) : list addr * PinnedTally * pool :=
  foldl (fun '(ns, t, p) s => let '(n, t, p) := new_value s t p in (ns ++ [n], t, p))
        ([], empty, p0) ss.

End Tally.

(** ** [cuda::Reduce_Data] and [cuda::Reduce] on the host *)

Module Host.
Import Tally.

(** [union tally_u { PinnedTally<T>* list; T* val_ptr; }]: the member last
    stored to, with the pointer ([None] for [nullptr]). Reading the other
    member is an error of the model. *)
Inductive tally_u : Type :=
  | list_ptr (l : option nat)
  | val_ptr (p : option addr).

Record Reduce_Data (T : Type) : Type := mkData {
  value : T;
  tally_or_val_ptr : tally_u;
  device_count : option nat;
  device : option nat;
  own_device_ptr : bool
}.
Arguments mkData {T}.
Arguments value {T}.
Arguments tally_or_val_ptr {T}.
Arguments device_count {T}.
Arguments device {T}.
Arguments own_device_ptr {T}.

(** [struct Reduce]; [info] is an empty struct. [parent] is the address of
    a handle, [None] for [nullptr]. *)
Record Reduce (T : Type) : Type := mkReduce {
  parent : option nat;
  val : Reduce_Data T
}.
Arguments mkReduce {T}.
Arguments parent {T}.
Arguments val {T}.

(** What the host holds: the handles by address, the [PinnedTally] objects
    made by [new], pinned memory and its pool, the device pools, and the
    calls of [synchronize] so far (newest first). *)
Record world (T : Type) : Type := mkWorld {
  objs : gmap nat (Reduce T);
  tallies : gmap nat PinnedTally;
  pinned_pool : pool;
  pinned : addr -> T;
  device_pool : gset nat;
  zeroed_pool : gset nat;
  synchronized : list cudaStream_t
}.
Arguments mkWorld {T}.
Arguments objs {T}.
Arguments tallies {T}.
Arguments pinned_pool {T}.
Arguments pinned {T}.
Arguments device_pool {T}.
Arguments zeroed_pool {T}.
Arguments synchronized {T}.

(** The execution engine ([MemUtils_CUDA.hpp]) at the time of a copy:
    [setupReducers()], [currentGridDim()] as a number of blocks, and
    [currentStream()]. *)
Record engine : Type := mkEngine {
  setupReducers : bool;
  currentGridDim : nat;
  currentStream : cudaStream_t
}.

Section Handle.

Context {T : Type} `{Reducer T}.

Definition set_objs (o : gmap nat (Reduce T)) (w : world T) : world T :=
  mkWorld o (tallies w) (pinned_pool w) (pinned w) (device_pool w) (zeroed_pool w)
          (synchronized w).

(** Reading the member [list] of the union, and the object it points to. *)
Definition get_list (d : Reduce_Data T) (w : world T) : option (nat * PinnedTally) :=
  match tally_or_val_ptr d with
  | list_ptr (Some l) => t ← tallies w !! l; Some (l, t)
  | _ => None
  end.

(** [explicit Reduce(T init_val)], constructed at address [this]:
    [parent{this}], and [Reduce_Data(init_val)] with a [new PinnedTally<T>]. *)
Definition construct (this : nat) (init_val : T) (w : world T) : world T :=
  let l := fresh (dom (tallies w)) in
  let d := mkData init_val (list_ptr (Some l)) None None false in
  mkWorld (<[this := mkReduce (Some this) d]> (objs w))
          (<[l := Tally.empty]> (tallies w))
          (pinned_pool w) (pinned w) (device_pool w) (zeroed_pool w) (synchronized w).

(** [Reduce_Data(const Reduce_Data& other)] *)
Definition copy_data (other : Reduce_Data T) : Reduce_Data T :=
  mkData identity (tally_or_val_ptr other) (device_count other) (device other) false.

(** [setupForDevice(info)], host branch. *)
Definition setupForDevice (e : engine) (d : Reduce_Data T) (w : world T)
  : option (bool * Reduce_Data T * world T) :=
  let act := negb (bool_decide (is_Some (device d))) && setupReducers e in
  if act then
    let dev := fresh (device_pool w) in
    let cnt := fresh (zeroed_pool w) in
    '(l, t) ← get_list d w;
    let '(n, t, p) := new_value (currentStream e) t (pinned_pool w) in
    Some (act,
          mkData (value d) (val_ptr (Some n)) (Some cnt) (Some dev) true,
          mkWorld (objs w) (<[l := t]> (tallies w)) p (pinned w)
                  ({[dev]} ∪ device_pool w) ({[cnt]} ∪ zeroed_pool w) (synchronized w))
  else Some (act, d, w).

(** [Reduce(const Reduce& other)], host branch, constructing at [this]. *)
Definition copy (e : engine) (this other : nat) (w : world T) : option (world T) :=
  o ← objs w !! other;
  let parent := parent o in
  let val := copy_data (val o) in
  match parent with
  | Some _ =>
      '(act, val, w) ← setupForDevice e val w;
      let parent := if act : bool then None else parent in
      Some (set_objs (<[this := mkReduce parent val]> (objs w)) w)
  | None => Some (set_objs (<[this := mkReduce parent val]> (objs w)) w)
  end.

(** [reduce(rhsVal)] on the handle at [this]. *)
Definition reduce (this : nat) (rhsVal : T) (w : world T) : option (world T) :=
  o ← objs w !! this;
  let d := val o in
  let d := mkData (combine (value d) rhsVal) (tally_or_val_ptr d) (device_count d)
                  (device d) (own_device_ptr d) in
  Some (set_objs (<[this := mkReduce (parent o) d]> (objs w)) w).

(** [destroy()], host branch: [delete tally_or_val_ptr.list], which runs
    [~PinnedTally()], that is [free_list()]. *)
Definition destroy (d : Reduce_Data T) (w : world T) : option (world T) :=
  match tally_or_val_ptr d with
  | list_ptr None => Some w
  | list_ptr (Some l) =>
      t ← tallies w !! l;
      let '(_, p) := free_list t (pinned_pool w) in
      Some (mkWorld (objs w) (delete l (tallies w)) p (pinned w)
                    (device_pool w) (zeroed_pool w) (synchronized w))
  | val_ptr _ => None
  end.

(** [teardownForDevice(info)]; the object is destroyed right after, so only
    the pools are of interest. *)
Definition teardownForDevice (d : Reduce_Data T) (w : world T) : world T :=
  if own_device_ptr d then
    mkWorld (objs w) (tallies w) (pinned_pool w) (pinned w)
            (device_pool w ∖ from_option singleton ∅ (device d))
            (zeroed_pool w ∖ from_option singleton ∅ (device_count d))
            (synchronized w)
  else w.

(** [~Reduce()], host branch, of the handle at [this]. *)
Definition destruct (this : nat) (w : world T) : option (world T) :=
  o ← objs w !! this;
  w ← (if bool_decide (parent o = Some this) then destroy (val o) w
       else match parent o with
            | Some p => reduce p (value (val o)) w
            | None => Some (teardownForDevice (val o) w)
            end);
  Some (set_objs (delete this (objs w)) w).

(** [deviceToHost(info)]: [synchronize] every stream of the tally. *)
Definition deviceToHost (t : PinnedTally) (w : world T) : world T :=
  mkWorld (objs w) (tallies w) (pinned_pool w) (pinned w) (device_pool w) (zeroed_pool w)
          (rev (streams (streamBegin t)) ++ synchronized w).

(** [operator T()] of the handle at [this]: the value returned and the world
    afterwards. The loop over the tally visits at most as many nodes as the
    tally holds, which is the fuel it is given. *)
Definition read (this : nat) (w : world T) : option (T * world T) :=
  o ← objs w !! this;
  '(l, t) ← get_list (val o) w;
  let n := begin t in
  let end_ := Tally.end_ in
  if negb (iter_eq n end_) then
    let w := deviceToHost t w in
    let d := val o in
    let v := foldl (fun v n => combine v (pinned w n)) (value d)
                   (visited (S (length (slots t))) n) in
    let '(t, p) := free_list t (pinned_pool w) in
    let d := mkData v (tally_or_val_ptr d) (device_count d) (device d) (own_device_ptr d) in
    Some (v, mkWorld (<[this := mkReduce (parent o) d]> (objs w))
                     (<[l := t]> (tallies w)) p (pinned w)
                     (device_pool w) (zeroed_pool w) (synchronized w))
  else Some (value (val o), w).

(** [get()] *)
Definition get (this : nat) (w : world T) : option (T * world T) := read this w.

(** Reading again, after whatever was read before. *)
Definition reread (this : nat) (r : option (T * world T)) : option (T * world T) :=
  '(_, w) ← r; read this w.

(** The kernel stores its result through [val_ptr] of the launching copy. *)
Definition store_pinned (n : addr) (v : T) (w : world T) : world T :=
  mkWorld (objs w) (tallies w) (pinned_pool w)
          (fun a => if a =? n then v else pinned w a)
          (device_pool w) (zeroed_pool w) (synchronized w).

(** A host that holds no handle yet; [garbage] is what pinned memory holds. *)
Definition boot (garbage : addr -> T) : world T :=
  mkWorld ∅ ∅ ∅ garbage ∅ ∅ [].

(** [val.value] of the copy of a thread when the thread is through:
    [value{Reducer::identity}], then [reduce(rhsVal)] for every one of its
    contributions. *)
Definition thread_local (contributions : list T) : T :=
  serial_reduce identity contributions.

(** Modelled from the spec: a kernel launch by the execution engine (not
    part of this file) that captures the handle at [root] by value, in the
    order of the lifecycle: host-to-device copy, device destruction, host
    destructor of the launcher copy. The copy at [kernel] is made on the
    host by the copy constructor and sets up for the device; the threads
    copy it in turn, and destroying their copies is
    [if (grid_reduce(temp, device, device_count)) tally_or_val_ptr.val_ptr[0] = temp;],
    which leaves [stored] in the slot ([None]: no thread stored); then the
    copy at [kernel] is destroyed. *)
Definition launch (e : engine) (root kernel : nat) (stored : option T) (w : world T)
  : option (world T) :=
  w ← copy e kernel root w;
  c ← objs w !! kernel;
  match tally_or_val_ptr (val c) with
  | val_ptr (Some n) =>
      destruct kernel (match stored with
                       | Some v => store_pinned n v w
                       | None => w
                       end)
  | _ => None
  end.

(** [reduce(rhsVal)] on the handle at [this] for every value of [xs] in
    turn. *)
Definition reduces (this : nat) (xs : list T) (w : world T) : option (world T) :=
  foldl (fun ow x => w ← ow; reduce this x w) (Some w) xs.

(** One launch after the other, each with its engine state and with what
    its kernel leaves in the slot; the copy is made at [kernel] every time. *)
Definition launches (root kernel : nat) (ls : list (engine * option T)) (w : world T)
  : option (world T) :=
  foldl (fun ow l => w ← ow; launch (fst l) root kernel (snd l) w) (Some w) ls.

End Handle.
End Host.

(** * Properties *)

(** ** Reducers *)

Lemma combine_identity_r {T} `{ReducerLaws T} (x : T) : combine x identity = x.
Proof. rewrite combine_comm. apply combine_identity_l. Qed.

#[global] Instance laws_monoid {T} `{ReducerLaws T} : ReducerMonoid T.
Proof.
  split; [apply combine_assoc | apply combine_identity_l | apply combine_identity_r].
Qed.

Lemma sum_Z_laws : @ReducerLaws Z sum_Z.
Proof. split; simpl; intros; lia. Qed.

Lemma contributions_monoid : @ReducerMonoid (list nat) contributions.
Proof.
  split; simpl; intros.
  - apply app_assoc.
  - reflexivity.
  - apply app_nil_r.
Qed.

Lemma sum_int32_laws : @ReducerLaws int32 sum_int32.
Proof.
  split; simpl; intros.
  - apply Zmod.add_assoc.
  - apply Zmod.add_comm.
  - apply Zmod.add_0_l.
Qed.

Lemma int32_signed_range (x : int32) : (- 2 ^ 31 <= Zmod.signed x < 2 ^ 31)%Z.
Proof.
  pose proof (Zmod.signed_pos_bound x ltac:(reflexivity)) as Hb.
  set (s := Zmod.signed x) in *. clearbody s.
  change (2 ^ 32)%Z with 4294967296%Z in Hb.
  change (2 ^ 31)%Z with 2147483648%Z. lia.
Qed.

Lemma min_int32_laws : @ReducerLaws int32 min_int32.
Proof.
  assert (Hmax : Zmod.signed INT_MAX = 2147483647%Z) by reflexivity.
  split; cbn [combine identity min_int32]; intros.
  - repeat match goal with
           | |- context [(?a <? ?b)%Z] =>
               let E := fresh "E" in
               destruct (a <? b)%Z eqn:E; [apply Z.ltb_lt in E | apply Z.ltb_ge in E]
           end; try reflexivity; apply Zmod.signed_inj;
      repeat match goal with
             | H : context [(?a <? ?b)%Z] |- _ => destruct (Z.ltb_spec a b)
             end; lia.
  - repeat match goal with
           | |- context [(?a <? ?b)%Z] =>
               let E := fresh "E" in
               destruct (a <? b)%Z eqn:E; [apply Z.ltb_lt in E | apply Z.ltb_ge in E]
           end; try reflexivity; apply Zmod.signed_inj;
      repeat match goal with
             | H : context [(?a <? ?b)%Z] |- _ => destruct (Z.ltb_spec a b)
             end; lia.
  - pose proof (int32_signed_range x) as Hx.
    destruct (Z.ltb_spec (Zmod.signed x) (Zmod.signed INT_MAX)) as [|Hge]; [reflexivity|].
    apply Zmod.signed_inj. rewrite Hmax in *.
    set (s := Zmod.signed x) in *. clearbody s.
    change (2 ^ 31)%Z with 2147483648%Z in Hx. lia.
Qed.

Section Folds.
Context {T : Type} `{ReducerMonoid T}.

Lemma reduce_all_app (xs ys : list T) :
  reduce_all (xs ++ ys) = combine (reduce_all xs) (reduce_all ys).
Proof.
  induction xs as [|x xs IH]; simpl.
  - now rewrite monoid_identity_l.
  - unfold reduce_all in *. simpl. now rewrite IH, monoid_assoc.
Qed.

Lemma reduce_all_one (x : T) : reduce_all [x] = x.
Proof. unfold reduce_all. simpl. apply monoid_identity_r. Qed.

Lemma serial_reduce_spec (acc : T) (vs : list T) :
  serial_reduce acc vs = combine acc (reduce_all vs).
Proof.
  unfold serial_reduce. revert acc.
  induction vs as [|v vs IH]; intros acc; simpl.
  - now rewrite monoid_identity_r.
  - rewrite IH. unfold reduce_all. simpl. now rewrite monoid_assoc.
Qed.

Lemma reduce_all_concat (xss : list (list T)) :
  reduce_all (concat xss) = reduce_all (map reduce_all xss).
Proof.
  induction xss as [|xs xss IH]; simpl; [reflexivity|].
  rewrite reduce_all_app, IH. reflexivity.
Qed.

End Folds.

Lemma reduce_all_perm {T} `{ReducerLaws T} (xs ys : list T) :
  Permutation xs ys -> reduce_all xs = reduce_all ys.
Proof.
  induction 1 as [|x xs ys _ IH|x y xs|xs ys zs _ IH1 _ IH2]; unfold reduce_all in *; simpl.
  - reflexivity.
  - now rewrite IH.
  - rewrite !combine_assoc. f_equal. apply combine_comm.
  - congruence.
Qed.

(** ** [bitwize_zero] *)

Module BitwiseFacts.
Import Bitwise.

Lemma byte_zero (b : byte) : Byte.to_N b = 0%N <-> b = x00.
Proof.
  split.
  - intros Hb. pose proof (Byte.of_to_N b) as Hof. rewrite Hb in Hof.
    simpl in Hof. congruence.
  - intros ->. reflexivity.
Qed.

Lemma byte_range (b : byte) : (0 <= Z.of_N (Byte.to_N b) < 256)%Z.
Proof. pose proof (Byte.to_N_bounded b). lia. Qed.

(** The unsigned value of at most four bytes. *)
Definition unsigned_of (bs : list byte) : Z :=
  fold_right (fun b acc => (Z.of_N (Byte.to_N b) + 256 * acc)%Z) 0%Z bs.

Lemma unsigned_of_range (bs : list byte) :
  (0 <= unsigned_of bs < 256 ^ Z.of_nat (length bs))%Z.
Proof.
  induction bs as [|b bs IH].
  - simpl. lia.
  - cbn [unsigned_of fold_right length]. fold (unsigned_of bs).
    rewrite Nat2Z.inj_succ, Z.pow_succ_r by lia.
    pose proof (byte_range b). nia.
Qed.

Lemma unsigned_of_zero (bs : list byte) :
  unsigned_of bs = 0%Z <-> Forall (fun b => b = x00) bs.
Proof.
  induction bs as [|b bs IH].
  - split; [constructor | reflexivity].
  - cbn [unsigned_of fold_right]. fold (unsigned_of bs).
    pose proof (byte_range b). pose proof (unsigned_of_range bs).
    split.
    + intros Hz. constructor.
      * apply byte_zero. lia.
      * apply IH. lia.
    + intros Hall. inversion Hall as [|? ? Hb Hbs]; subst.
      apply IH in Hbs. rewrite Hbs. reflexivity.
Qed.

Lemma int_of_bytes_zero (bs : list byte) :
  length bs <= 4 -> (int_of_bytes bs = 0%Z <-> Forall (fun b => b = x00) bs).
Proof.
  intros Hlen. rewrite <- unsigned_of_zero.
  unfold int_of_bytes. fold (unsigned_of bs).
  pose proof (unsigned_of_range bs) as Hr.
  assert (Hb : (256 ^ Z.of_nat (length bs) <= 256 ^ 4)%Z)
    by (apply Z.pow_le_mono_r; lia).
  change (256 ^ 4)%Z with 4294967296%Z in Hb.
  change (2 ^ 32)%Z with 4294967296%Z.
  assert (Hu : (0 <= unsigned_of bs < 4294967296)%Z).
  { split; [apply Hr | eapply Z.lt_le_trans; [apply Hr | exact Hb]]. }
  clear Hr Hb.
  destruct (Z.ltb_spec (unsigned_of bs) (2 ^ 31)); lia.
Qed.

Lemma or_loop_zero (mem : list byte) (n : nat) (z : Z) :
  or_loop mem n z = 0%Z <-> z = 0%Z /\ forall i, i < n -> arr mem i = 0%Z.
Proof.
  unfold or_loop. revert z. induction n as [|n IH]; intros z.
  - simpl. split; [intros ->; split; [reflexivity | lia] | tauto].
  - rewrite seq_S, fold_left_app. simpl. rewrite Z.lor_eq_0_iff, IH.
    split.
    + intros [[Hz Hlt] Hn]. split; [exact Hz|].
      intros i Hi. destruct (decide (i = n)) as [->|]; [exact Hn | apply Hlt; lia].
    + intros [Hz Hall]. repeat split; auto.
Qed.

Lemma Tunion_length (var : list byte) :
  length (Tunion var) = sizeof_int * int_sizeof_T (length var).
Proof.
  unfold Tunion. rewrite length_app, repeat_length.
  unfold int_sizeof_T, sizeof_int.
  pose proof (Nat.div_mod_eq (length var + 4 - 1) 4).
  pose proof (Nat.mod_upper_bound (length var + 4 - 1) 4). lia.
Qed.

Lemma Tunion_zero (var : list byte) :
  Forall (fun b => b = x00) (Tunion var) <-> Forall (fun b => b = x00) var.
Proof.
  unfold Tunion. rewrite Forall_app. split; [tauto|].
  intros Hv. split; [exact Hv|].
  apply Forall_forall. intros b Hb. apply list_elem_of_In in Hb.
  now apply repeat_spec in Hb.
Qed.

(** The words of [arr] cover the bytes of the union. *)
Lemma words_zero (mem : list byte) (n : nat) :
  length mem = sizeof_int * n ->
  (forall i, i < n -> arr mem i = 0%Z) <-> Forall (fun b => b = x00) mem.
Proof.
  intros Hlen. unfold sizeof_int in *. split.
  - intros Hw. apply Forall_lookup. intros k b Hk.
    assert (Hkn : k < 4 * n) by (apply lookup_lt_Some in Hk; lia).
    specialize (Hw (k / 4)).
    unfold arr, sizeof_int in Hw.
    rewrite int_of_bytes_zero in Hw by (rewrite length_take; lia).
    assert (Hq : k / 4 < n) by (apply Nat.Div0.div_lt_upper_bound; lia).
    specialize (Hw Hq).
    rewrite Forall_lookup in Hw. apply (Hw (k mod 4)).
    rewrite lookup_take_lt by (apply Nat.mod_upper_bound; lia).
    rewrite lookup_drop. rewrite <- Nat.div_mod_eq. exact Hk.
  - intros Hall i Hi. unfold arr, sizeof_int.
    apply int_of_bytes_zero; [rewrite length_take; lia|].
    apply Forall_take, Forall_drop, Hall.
Qed.

(** C8: for every value [v] of a type [T] (its [sizeof(T)] bytes),
    [bitwize_zero(v)] is true if and only if all bytes of [v] are zero. *)
Theorem bitwize_zero_iff_all_bytes_zero (var : list byte) :
  bitwize_zero var = true <-> Forall (fun b => b = x00) var.
Proof.
  unfold bitwize_zero. rewrite Z.eqb_eq, or_loop_zero.
  rewrite <- Tunion_zero, <- (words_zero _ (int_sizeof_T (length var)))
    by apply Tunion_length.
  tauto.
Qed.

End BitwiseFacts.

(** ** Lists of program counters *)

Section ListFacts.

Context {A : Type}.

Lemma imap_lookup_Some {B : Type} (f : nat -> A -> B) (l : list A) (i : nat) (x : A) :
  l !! i = Some x -> imap f l !! i = Some (f i x).
Proof. intros Hx. rewrite list_lookup_imap, Hx. reflexivity. Qed.

Lemma omap_cons_eq {B : Type} (f : A -> option B) (x : A) (l : list A) :
  omap f (x :: l) = match f x with Some y => y :: omap f l | None => omap f l end.
Proof. reflexivity. Qed.

Lemma lookup_set (l : list A) (b b' : nat) (p p' : A) :
  <[b := p]> l !! b' = Some p' ->
  (b' = b /\ p' = p) \/ (b' <> b /\ l !! b' = Some p').
Proof.
  intros Hl. destruct (decide (b' = b)) as [->|Hne].
  - left. split; [reflexivity|].
    destruct (decide (b < length l)) as [Hlt|Hge].
    + rewrite list_lookup_insert_eq in Hl by exact Hlt. congruence.
    + rewrite list_insert_ge in Hl by lia. apply lookup_lt_Some in Hl. lia.
  - right. split; [exact Hne|]. now rewrite list_lookup_insert_ne in Hl by congruence.
Qed.

(** The number of elements that satisfy [f]. *)
Definition count_if (f : A -> bool) (l : list A) : nat :=
  length (List.filter f l).

Lemma count_if_le (f : A -> bool) (l : list A) : count_if f l <= length l.
Proof.
  unfold count_if. induction l as [|p l IH]; simpl; [lia|].
  destruct (f p); simpl; lia.
Qed.

Lemma count_if_insert (f : A -> bool) (l : list A) (b : nat) (p p' : A) :
  l !! b = Some p ->
  count_if f (<[b := p']> l) + (if f p then 1 else 0)
  = count_if f l + (if f p' then 1 else 0).
Proof.
  unfold count_if. revert b. induction l as [|q l IH]; intros b Hb; [discriminate|].
  destruct b as [|b]; simpl in *.
  - injection Hb as ->. destruct (f p), (f p'); simpl; lia.
  - specialize (IH b Hb). destruct (f q); simpl; lia.
Qed.

Lemma count_if_all (f : A -> bool) (l : list A) (b : nat) (p : A) :
  count_if f l = length l -> l !! b = Some p -> f p = true.
Proof.
  unfold count_if. revert b. induction l as [|q l IH]; intros b Hc Hb; [discriminate|].
  pose proof (count_if_le f l) as Hle. unfold count_if in Hle.
  simpl in Hc. destruct (f q) eqn:Hq; simpl in Hc; [|lia].
  destruct b as [|b]; simpl in Hb.
  - now injection Hb as <-.
  - apply (IH b); [lia | exact Hb].
Qed.

(** When all elements but one satisfy [f], that one is the exception. *)
Lemma count_if_others (f : A -> bool) (l : list A) (b b' : nat) (p p' : A) :
  count_if f l + 1 = length l ->
  l !! b = Some p -> f p = false ->
  l !! b' = Some p' -> b' <> b -> f p' = true.
Proof.
  revert b b'. induction l as [|q l IH]; intros b b' Hc Hb Hp Hb' Hne; [discriminate|].
  pose proof (count_if_le f l) as Hle.
  unfold count_if in Hc. cbn [List.filter length] in Hc.
  destruct b as [|b], b' as [|b']; simpl in Hb, Hb'; try congruence.
  - injection Hb as ->. rewrite Hp in Hc.
    apply (count_if_all f l b'); [unfold count_if; lia | exact Hb'].
  - injection Hb' as ->. destruct (f p') eqn:Hq; [reflexivity|].
    assert (Hd : f p = true)
      by (apply (count_if_all f l b); [unfold count_if; lia | exact Hb]).
    congruence.
  - destruct (f q) eqn:Hq; simpl in Hc.
    + apply (IH b b'); [unfold count_if; lia | auto ..].
    + assert (Hd : f p = true)
        by (apply (count_if_all f l b); [unfold count_if in *; lia | exact Hb]).
      congruence.
Qed.

Lemma count_if_replicate_false (f : A -> bool) (n : nat) (p : A) :
  f p = false -> count_if f (replicate n p) = 0.
Proof.
  intros Hp. unfold count_if. induction n as [|n IH]; [reflexivity|].
  simpl. now rewrite Hp.
Qed.

End ListFacts.

Ltac set_cases_eq H E :=
  apply lookup_set in H; destruct H as [[-> E]|[? H]].

Ltac set_cases H :=
  let E := fresh "E" in
  set_cases_eq H E;
    [try discriminate E; try (injection E as E); try rewrite E in *; try discriminate |].

(** ** [block_reduce] *)

Module BlockFacts.
Import Block.

(** *** Lanes and strides *)

Lemma lxor_stride (q j : nat) :
  Nat.lxor (q * 2 ^ S j) (2 ^ j) = q * 2 ^ S j + 2 ^ j.
Proof.
  symmetry. apply Nat.add_nocarry_lxor.
  apply Nat.bits_inj. intros m.
  rewrite Nat.land_spec, Nat.bits_0, Nat.pow2_bits_eqb.
  destruct (Nat.eqb_spec j m) as [<-|]; [|apply andb_false_r].
  rewrite Nat.mul_pow2_bits_low by lia. reflexivity.
Qed.

(** A thread at a multiple of [2^(j+1)] and its partner at distance [2^j]
    are in the same warp of [2^k] lanes, for [j < k]. *)
Lemma stride_same_warp (q j k : nat) :
  j < k ->
  exists q', (q * 2 ^ S j) mod 2 ^ k = q' * 2 ^ S j /\
             (q * 2 ^ S j) mod 2 ^ k + 2 ^ j < 2 ^ k.
Proof.
  intros Hjk.
  assert (Hk : 2 ^ k = 2 ^ (k - S j) * 2 ^ S j).
  { rewrite <- Nat.pow_add_r. f_equal. lia. }
  rewrite Hk, Nat.Div0.mul_mod_distr_r.
  exists (q mod 2 ^ (k - S j)). split; [reflexivity|].
  assert (Hc : 2 ^ (k - S j) <> 0) by (apply Nat.pow_nonzero; lia).
  pose proof (Nat.mod_upper_bound q _ Hc) as Hq.
  assert (Hj : 2 ^ j < 2 ^ S j) by (apply Nat.pow_lt_mono_r; lia).
  nia.
Qed.

Lemma xor_source (W k q j : nat) :
  W = 2 ^ k -> j < k ->
  W * (q * 2 ^ S j / W) + Nat.lxor ((q * 2 ^ S j) mod W) (2 ^ j) = q * 2 ^ S j + 2 ^ j.
Proof.
  intros -> Hjk.
  destruct (stride_same_warp q j k Hjk) as (q' & Hq' & _).
  rewrite Hq', lxor_stride, <- Hq'.
  pose proof (Nat.div_mod_eq (q * 2 ^ S j) (2 ^ k)). lia.
Qed.

Lemma indexed_source (W k q j : nat) :
  W = 2 ^ k -> j < k ->
  W * (q * 2 ^ S j / W) + Nat.lxor (q * 2 ^ S j) (2 ^ j) mod W = q * 2 ^ S j + 2 ^ j.
Proof.
  intros -> Hjk.
  destruct (stride_same_warp q j k Hjk) as (q' & Hq' & Hlt).
  rewrite lxor_stride.
  pose proof (Nat.div_mod_eq (q * 2 ^ S j) (2 ^ k)) as Hdm.
  assert (Hmod : (q * 2 ^ S j + 2 ^ j) mod 2 ^ k = (q * 2 ^ S j) mod 2 ^ k + 2 ^ j).
  { rewrite Hdm at 1.
    rewrite <- Nat.add_assoc, Nat.add_comm, (Nat.mul_comm (2 ^ k)), Nat.Div0.mod_add.
    apply Nat.mod_small. exact Hlt. }
  rewrite Hmod. lia.
Qed.

(** In a block of whole warps the partner exists. *)
Lemma partner_exists (W k n q j : nat) :
  W = 2 ^ k -> j < k -> n mod W = 0 ->
  q * 2 ^ S j < n -> q * 2 ^ S j + 2 ^ j < n.
Proof.
  intros -> Hjk Hn Ht.
  destruct (stride_same_warp q j k Hjk) as (q' & _ & Hlt).
  pose proof (Nat.div_mod_eq (q * 2 ^ S j) (2 ^ k)) as Hdm.
  pose proof (Nat.div_mod_eq n (2 ^ k)) as Hdn. rewrite Hn in Hdn.
  assert (Hq : (q * 2 ^ S j) / 2 ^ k < n / 2 ^ k) by nia.
  nia.
Qed.


Section Butterfly.

Context {T : Type} `{ReducerMonoid T}.
Variables WARP_SIZE MAX_WARPS : nat.
Variable undef : nat -> T.
Variable sd_init : nat -> T.
Variable k : nat.
Hypothesis warp_pow2 : WARP_SIZE = 2 ^ k.

Lemma warp_size_pos : 0 < WARP_SIZE.
Proof. rewrite warp_pow2. apply Nat.neq_0_lt_0, Nat.pow_nonzero. lia. Qed.

(** The loop over the strides runs its body at [2^0, ..., 2^(k-1)]; the
    fuel is never used up. *)
Lemma for_strides_unroll {St : Type} (body : nat -> St -> St) (fuel j : nat) (s : St) :
  j <= k -> k - j <= fuel ->
  for_strides WARP_SIZE fuel (2 ^ j) body s
  = foldl (fun s i => body (2 ^ i) s) s (seq j (k - j)).
Proof.
  revert j s. induction fuel as [|fuel IH]; intros j s Hj Hfuel.
  - replace (k - j) with 0 by lia. reflexivity.
  - cbn [for_strides]. destruct (Nat.ltb_spec (2 ^ j) WARP_SIZE) as [Hlt|Hge].
    + assert (Hjk : j < k).
      { rewrite warp_pow2 in Hlt. apply Nat.pow_lt_mono_r_iff in Hlt; lia. }
      replace (2 ^ j * 2) with (2 ^ S j) by (rewrite Nat.pow_succ_r'; lia).
      rewrite IH by lia.
      replace (k - j) with (S (k - S j)) by lia. reflexivity.
    + assert (Hjk : j = k).
      { destruct (decide (j = k)) as [|Hne]; [assumption|].
        exfalso. assert (2 ^ j < 2 ^ k) by (apply Nat.pow_lt_mono_r; lia). lia. }
      subst j. rewrite Nat.sub_diag. reflexivity.
Qed.

Lemma for_strides_warp {St : Type} (body : nat -> St -> St) (s : St) :
  for_strides WARP_SIZE WARP_SIZE 1 body s
  = foldl (fun s i => body (2 ^ i) s) s (seq 0 k).
Proof.
  change 1 with (2 ^ 0). rewrite for_strides_unroll; [|lia|].
  - now rewrite Nat.sub_0_r.
  - rewrite warp_pow2. pose proof (Nat.pow_gt_lin_r 2 k). lia.
Qed.

(** *** The butterfly *)

(** The combine of the [m] values from position [t] on. *)
Definition segment (vals : list T) (t m : nat) : T :=
  reduce_all (take m (drop t vals)).

Lemma segment_double (vals : list T) (t m : nat) :
  segment vals t (m + m) = combine (segment vals t m) (segment vals (t + m) m).
Proof.
  unfold segment. rewrite <- reduce_all_app. f_equal.
  rewrite <- (take_take_drop (drop t vals) m m), drop_drop. reflexivity.
Qed.

Lemma segment_past_end (vals : list T) (t m : nat) :
  length vals <= t -> segment vals t m = identity.
Proof.
  intros Ht. unfold segment. rewrite drop_ge by exact Ht.
  rewrite take_nil. reflexivity.
Qed.

Lemma segment_one (vals : list T) (t : nat) (v : T) :
  vals !! t = Some v -> segment vals t 1 = v.
Proof.
  intros Hv. unfold segment.
  destruct (drop t vals) as [|x rest] eqn:Hd.
  - apply (f_equal (fun l => l !! 0)) in Hd. rewrite lookup_drop, Nat.add_0_r in Hd.
    simpl in Hd. congruence.
  - apply (f_equal (fun l => l !! 0)) in Hd. rewrite lookup_drop, Nat.add_0_r in Hd.
    simpl in Hd. assert (x = v) by congruence. subst x.
    unfold reduce_all. simpl. apply monoid_identity_r.
Qed.

(** After the strides below [2^j], every thread of the first [m] at a
    multiple of [2^j] holds the combine of the [2^j] values from its own on. *)
Definition butterfly (vals : list T) (j : nat) (temps : list T) : Prop :=
  forall q, q * 2 ^ j < length vals ->
    temps !! (q * 2 ^ j) = Some (segment vals (q * 2 ^ j) (2 ^ j)).

Lemma butterfly_start (vals temps : list T) :
  (forall t, t < length vals -> temps !! t = vals !! t) ->
  butterfly vals 0 temps.
Proof.
  intros Hsame q Hq. simpl in *. rewrite Nat.mul_1_r in *.
  rewrite Hsame by exact Hq.
  destruct (lookup_lt_is_Some_2 vals q Hq) as [v Hv].
  rewrite Hv. f_equal. symmetry. now apply segment_one.
Qed.

(** One stride: a thread at a multiple of [2^(j+1)] combines the value of
    its partner at distance [2^j] when that thread is one of the [m], and
    keeps its own otherwise. *)
Lemma butterfly_step (vals old new : list T) (j : nat) :
  butterfly vals j old ->
  (forall q x, q * 2 ^ S j < length vals -> old !! (q * 2 ^ S j) = Some x ->
     new !! (q * 2 ^ S j)
     = Some (if q * 2 ^ S j + 2 ^ j <? length vals
             then combine x (lane_read undef old (q * 2 ^ S j + 2 ^ j))
             else x)) ->
  butterfly vals (S j) new.
Proof.
  intros Hold Hstep q Hq.
  assert (Hpow : 2 ^ S j = 2 ^ j + 2 ^ j) by (rewrite Nat.pow_succ_r'; lia).
  assert (Hself : old !! (q * 2 ^ S j) = Some (segment vals (q * 2 ^ S j) (2 ^ j))).
  { replace (q * 2 ^ S j) with ((2 * q) * 2 ^ j) by (rewrite Nat.pow_succ_r'; lia).
    apply Hold. rewrite Nat.pow_succ_r' in Hq. lia. }
  rewrite (Hstep q _ Hq Hself). f_equal.
  replace (segment vals (q * 2 ^ S j) (2 ^ S j))
    with (segment vals (q * 2 ^ S j) (2 ^ j + 2 ^ j)) by (f_equal; lia).
  rewrite segment_double.
  destruct (Nat.ltb_spec (q * 2 ^ S j + 2 ^ j) (length vals)) as [Hlt|Hge].
  - f_equal. unfold lane_read.
    replace (q * 2 ^ S j + 2 ^ j) with ((2 * q + 1) * 2 ^ j)
      by (rewrite Nat.pow_succ_r'; lia).
    rewrite Hold; [reflexivity|].
    rewrite Nat.pow_succ_r' in Hlt. lia.
  - rewrite (segment_past_end vals (q * 2 ^ S j + 2 ^ j)) by exact Hge.
    now rewrite monoid_identity_r.
Qed.

Lemma butterfly_done (vals temps : list T) (j : nat) :
  0 < length vals -> length vals <= 2 ^ j ->
  butterfly vals j temps -> temps !! 0 = Some (reduce_all vals).
Proof.
  intros Hpos Hle Hb. specialize (Hb 0). simpl in Hb.
  rewrite Hb by exact Hpos. unfold segment. rewrite drop_0, take_ge by exact Hle.
  reflexivity.
Qed.


Lemma xor_step_butterfly (vals temps : list T) (j : nat) :
  j < k -> length vals mod WARP_SIZE = 0 ->
  butterfly vals j temps ->
  butterfly vals (S j) (xor_step WARP_SIZE undef (2 ^ j) temps).
Proof.
  intros Hjk Hwhole Hb. apply (butterfly_step vals temps); [exact Hb|].
  intros q x Hq Hx. unfold xor_step.
  rewrite (imap_lookup_Some _ _ _ _ Hx). f_equal.
  unfold shfl_xor_sync. rewrite (xor_source WARP_SIZE k q j warp_pow2 Hjk).
  pose proof (partner_exists WARP_SIZE k _ q j warp_pow2 Hjk Hwhole Hq) as Hp.
  apply Nat.ltb_lt in Hp. now rewrite Hp.
Qed.

Lemma guarded_step_butterfly (vals temps : list T) (j : nat) :
  j < k ->
  butterfly vals j temps ->
  butterfly vals (S j) (guarded_step WARP_SIZE undef (length vals) (2 ^ j) temps).
Proof.
  intros Hjk Hb. apply (butterfly_step vals temps); [exact Hb|].
  intros q x Hq Hx. unfold guarded_step.
  rewrite (imap_lookup_Some _ _ _ _ Hx). f_equal.
  unfold shfl_sync. rewrite (indexed_source WARP_SIZE k q j warp_pow2 Hjk).
  rewrite lxor_stride. reflexivity.
Qed.

Lemma warp0_step_butterfly (vals temps : list T) (j : nat) :
  j < k -> length vals = WARP_SIZE ->
  butterfly vals j temps ->
  butterfly vals (S j) (warp0_step WARP_SIZE undef (2 ^ j) temps).
Proof.
  intros Hjk Hlen Hb. apply (butterfly_step vals temps); [exact Hb|].
  intros q x Hq Hx. unfold warp0_step.
  rewrite (imap_lookup_Some _ _ _ _ Hx). f_equal.
  rewrite Hlen in Hq.
  unfold shfl_xor_sync. rewrite (xor_source WARP_SIZE k q j warp_pow2 Hjk).
  rewrite (Nat.div_small _ _ Hq). cbn [Nat.eqb].
  assert (Hw : length vals mod WARP_SIZE = 0)
    by (rewrite Hlen; apply Nat.Div0.mod_same).
  rewrite <- Hlen in Hq.
  pose proof (partner_exists WARP_SIZE k _ q j warp_pow2 Hjk Hw Hq) as Hp.
  apply Nat.ltb_lt in Hp. now rewrite Hp.
Qed.

(** All strides of one loop. *)
Lemma strides_butterfly (vals temps : list T) (body : nat -> list T -> list T) :
  (forall j old, j < k -> butterfly vals j old -> butterfly vals (S j) (body (2 ^ j) old)) ->
  butterfly vals 0 temps ->
  butterfly vals k (for_strides WARP_SIZE WARP_SIZE 1 body temps).
Proof.
  intros Hbody Hstart. rewrite for_strides_warp.
  assert (Hall : forall j, j <= k ->
            butterfly vals j (foldl (fun s i => body (2 ^ i) s) temps (seq 0 j))).
  { induction j as [|j IH]; intros Hj; [exact Hstart|].
    rewrite seq_S, foldl_app. simpl. apply Hbody; [lia | apply IH; lia]. }
  apply Hall. lia.
Qed.

Lemma for_strides_length (body : nat -> list T -> list T) (temps : list T) :
  (forall i old, length (body i old) = length old) ->
  length (for_strides WARP_SIZE WARP_SIZE 1 body temps) = length temps.
Proof.
  intros Hbody. generalize 1 as i. generalize WARP_SIZE at 2 as fuel.
  intros fuel. revert temps. induction fuel as [|fuel IH]; intros temps i; simpl.
  - reflexivity.
  - destruct (i <? WARP_SIZE); [|reflexivity]. now rewrite IH, Hbody.
Qed.

(** The first loop of [block_reduce], whichever branch is taken. *)
Definition first_loop (val : list T) : list T :=
  if length val mod WARP_SIZE =? 0
  then for_strides WARP_SIZE WARP_SIZE 1 (xor_step WARP_SIZE undef) val
  else for_strides WARP_SIZE WARP_SIZE 1 (guarded_step WARP_SIZE undef (length val)) val.

Lemma first_loop_butterfly (val : list T) : butterfly val k (first_loop val).
Proof.
  unfold first_loop. destruct (Nat.eqb_spec (length val mod WARP_SIZE) 0) as [Hw|Hw].
  - apply strides_butterfly.
    + intros j old Hj Hold. now apply xor_step_butterfly.
    + now apply butterfly_start.
  - apply strides_butterfly.
    + intros j old Hj Hold. now apply guarded_step_butterfly.
    + now apply butterfly_start.
Qed.

Lemma first_loop_length (val : list T) : length (first_loop val) = length val.
Proof.
  unfold first_loop.
  destruct (length val mod WARP_SIZE =? 0); apply for_strides_length; intros i old.
  - unfold xor_step. apply length_imap.
  - unfold guarded_step. apply length_imap.
Qed.

(** *** Shared memory *)

Lemma publish_snoc (temps : list T) (x : T) (sd : list T) :
  publish WARP_SIZE (temps ++ [x]) sd
  = let sd' := publish WARP_SIZE temps sd in
    if length temps mod WARP_SIZE =? 0
    then <[length temps / WARP_SIZE := x]> sd' else sd'.
Proof.
  unfold publish. rewrite imap_app, foldl_app. simpl.
  rewrite Nat.add_0_r. reflexivity.
Qed.

Lemma publish_length (temps sd : list T) :
  length (publish WARP_SIZE temps sd) = length sd.
Proof.
  induction temps as [|x temps IH] using rev_ind; [reflexivity|].
  rewrite publish_snoc. cbv zeta.
  destruct (_ =? 0); [rewrite length_insert|]; exact IH.
Qed.

(** After the stores, [sd[w]] holds the value of lane 0 of warp [w]. *)
Lemma publish_lookup (temps sd : list T) (w : nat) :
  w * WARP_SIZE < length temps -> w < length sd ->
  publish WARP_SIZE temps sd !! w = temps !! (w * WARP_SIZE).
Proof.
  pose proof warp_size_pos as HW.
  induction temps as [|x temps IH] using rev_ind; intros Hw Hsd; [simpl in Hw; lia|].
  rewrite publish_snoc. cbv zeta. rewrite length_app in Hw. simpl in Hw.
  destruct (decide (w * WARP_SIZE = length temps)) as [Heq|Hne].
  - rewrite <- Heq, Nat.Div0.mod_mul, Nat.div_mul by lia. simpl.
    rewrite list_lookup_insert_eq by (rewrite publish_length; exact Hsd).
    rewrite Heq, lookup_app_r, Nat.sub_diag by lia. reflexivity.
  - rewrite lookup_app_l by lia.
    destruct (Nat.eqb_spec (length temps mod WARP_SIZE) 0) as [Hm|Hm].
    + rewrite list_lookup_insert_ne; [apply IH; lia|].
      intros Hq. apply Hne. subst w.
      pose proof (Nat.div_mod_eq (length temps) WARP_SIZE). lia.
    + apply IH; lia.
Qed.


(** Warp 0 after the loads: lane [l] holds the combine of warp [l], the
    identity when the block has no such warp. *)
Lemma load_warps_lookup (val : list T) (l : nat) :
  WARP_SIZE < length val -> length val <= WARP_SIZE * MAX_WARPS ->
  l < WARP_SIZE ->
  let temp := first_loop val in
  let sd := publish WARP_SIZE temp (map sd_init (seq 0 MAX_WARPS)) in
  load_warps WARP_SIZE undef (length val) sd temp !! l
  = Some (segment val (l * WARP_SIZE) WARP_SIZE).
Proof.
  intros Hbig Hmax Hl temp sd.
  assert (Hlen : length temp = length val) by apply first_loop_length.
  destruct (lookup_lt_is_Some_2 temp l) as [x Hx]; [lia|].
  unfold load_warps. rewrite (imap_lookup_Some _ _ _ _ Hx). f_equal.
  rewrite (Nat.div_small _ _ Hl), (Nat.mod_small _ _ Hl). cbn [Nat.eqb].
  destruct (Nat.ltb_spec (l * WARP_SIZE) (length val)) as [Hlt|Hge].
  - unfold sd_read, sd.
    rewrite publish_lookup; [| lia | rewrite length_map, length_seq; nia].
    subst temp. rewrite warp_pow2.
    rewrite (first_loop_butterfly val l) by (rewrite <- warp_pow2; exact Hlt).
    reflexivity.
  - symmetry. now apply segment_past_end.
Qed.

Lemma segments_cover (val : list T) (c m : nat) :
  reduce_all (map (fun l => segment val (l * m) m) (seq 0 c))
  = reduce_all (take (c * m) val).
Proof.
  induction c as [|c IH]; [reflexivity|].
  rewrite seq_S, map_app, reduce_all_app, IH.
  cbn [map Nat.add].
  rewrite reduce_all_one. unfold segment. rewrite <- reduce_all_app. f_equal.
  rewrite take_take_drop. f_equal. lia.
Qed.

Lemma block_reduce_lookup_0 (val : list T) :
  0 < length val -> length val <= WARP_SIZE * MAX_WARPS -> MAX_WARPS <= WARP_SIZE ->
  block_reduce WARP_SIZE MAX_WARPS undef sd_init val !! 0 = Some (reduce_all val).
Proof.
  intros Hpos Hmax Hwarps. unfold block_reduce. fold (first_loop val).
  destruct (Nat.ltb_spec WARP_SIZE (length val)) as [Hbig|Hsmall].
  - set (temp := first_loop val).
    set (sd := publish WARP_SIZE temp (map sd_init (seq 0 MAX_WARPS))).
    set (loaded := load_warps WARP_SIZE undef (length val) sd temp).
    assert (Hloaded : forall l, l < WARP_SIZE ->
              loaded !! l = Some (segment val (l * WARP_SIZE) WARP_SIZE))
      by (intros l Hl; now apply load_warps_lookup).
    assert (Hlen : length loaded = length val).
    { unfold loaded, load_warps. rewrite length_imap. apply first_loop_length. }
    set (warp0 := take WARP_SIZE loaded).
    assert (Hw0 : length warp0 = WARP_SIZE)
      by (unfold warp0; rewrite length_take; lia).
    assert (Hfinal : butterfly warp0 k
              (for_strides WARP_SIZE WARP_SIZE 1 (warp0_step WARP_SIZE undef) loaded)).
    { apply strides_butterfly.
      - intros j old Hj Hold. now apply warp0_step_butterfly.
      - apply butterfly_start. intros t Ht. unfold warp0.
        rewrite lookup_take_lt by lia. reflexivity. }
    rewrite (butterfly_done warp0 _ k); [| rewrite Hw0; apply warp_size_pos
                                          | rewrite Hw0, warp_pow2; lia | exact Hfinal].
    f_equal.
    assert (Hmap : warp0 = map (fun l => segment val (l * WARP_SIZE) WARP_SIZE)
                               (seq 0 WARP_SIZE)).
    { apply list_eq. intros l. unfold warp0.
      destruct (Nat.lt_ge_cases l WARP_SIZE) as [Hl|Hl].
      - rewrite lookup_take_lt, Hloaded by exact Hl.
        change map with (@fmap list _). rewrite list_lookup_fmap, lookup_seq_lt by exact Hl.
        reflexivity.
      - rewrite lookup_take_ge by exact Hl. symmetry. apply lookup_ge_None.
        rewrite length_map, length_seq. exact Hl. }
    rewrite Hmap, segments_cover, take_ge by nia. reflexivity.
  - apply (butterfly_done val _ k); [exact Hpos | rewrite <- warp_pow2; exact Hsmall |].
    apply first_loop_butterfly.
Qed.

Lemma block_aggregate_spec (val : list T) :
  0 < length val -> length val <= WARP_SIZE * MAX_WARPS -> MAX_WARPS <= WARP_SIZE ->
  block_aggregate WARP_SIZE MAX_WARPS undef sd_init val = reduce_all val.
Proof.
  intros Hpos Hmax Hwarps. unfold block_aggregate, lane_read.
  now rewrite block_reduce_lookup_0.
Qed.

End Butterfly.

Lemma reduce_all_contributions (n m : nat) :
  @reduce_all _ contributions (map (fun t => [t]) (seq n m)) = seq n m.
Proof.
  revert n. induction m as [|m IH]; intros n; [reflexivity|].
  cbn [seq map]. unfold reduce_all in *. cbn [foldr]. rewrite IH. reflexivity.
Qed.

(** C3: for every block size from 1 to [WARP_SIZE * MAX_WARPS] threads,
    a multiple of the warp size or not, and every value in every thread,
    [block_reduce] returns in thread 0 the combine of the values of all
    threads of the block, in the order of the thread ids. Lanes that hold
    no thread contribute nothing (whatever a shuffle reads from them), and
    the warps the block does not have contribute the identity. Each thread
    contributes exactly once: when combining is the concatenation of lists
    of thread ids, thread 0 ends with the list of all thread ids, each one
    once. *)
Theorem block_reduce_thread0 {T : Type} `{ReducerMonoid T}
    (WARP_SIZE MAX_WARPS k : nat) (undef sd_init : nat -> T)
    (undef' sd_init' : nat -> list nat) (val : list T) :
  WARP_SIZE = 2 ^ k ->
  0 < length val -> length val <= WARP_SIZE * MAX_WARPS -> MAX_WARPS <= WARP_SIZE ->
  block_reduce WARP_SIZE MAX_WARPS undef sd_init val !! 0 = Some (reduce_all val) /\
  @block_reduce _ contributions WARP_SIZE MAX_WARPS undef' sd_init'
     (map (fun threadId => [threadId]) (seq 0 (length val))) !! 0
  = Some (seq 0 (length val)).
Proof.
  intros HW Hpos Hmax Hwarps. split.
  - now apply (block_reduce_lookup_0 WARP_SIZE MAX_WARPS undef sd_init k).
  - rewrite (@block_reduce_lookup_0 _ contributions contributions_monoid
               WARP_SIZE MAX_WARPS undef' sd_init' k HW);
      rewrite ?length_map, ?length_seq; try assumption.
    now rewrite reduce_all_contributions.
Qed.

Lemma block_reduce_thread0_witness :
  let val := map Z.of_nat (seq 1 40) in
  @block_reduce Z sum_Z 32 32 (fun _ => 99%Z) (fun _ => 77%Z) val !! 0 = Some 820%Z /\
  @block_reduce _ contributions 32 32 (fun _ => [1000]) (fun _ => [2000])
     (map (fun threadId => [threadId]) (seq 0 40)) !! 0
  = Some (seq 0 40).
Proof.
  apply (@block_reduce_thread0 Z sum_Z (@laws_monoid Z sum_Z sum_Z_laws) 32 32 5);
    [reflexivity | simpl; lia ..].
Defined.

(** *** Every lane of a block of whole warps *)

(** The partner of a lane at stride [2^j] is [2^j] above the lane when bit
    [j] of the lane id is clear and [2^j] below it when the bit is set. *)
Lemma lxor_pow2_clear (x j : nat) :
  (x / 2 ^ j) mod 2 = 0 -> Nat.lxor x (2 ^ j) = x + 2 ^ j.
Proof.
  intros Hbit. apply Nat.testbit_false in Hbit.
  symmetry. apply Nat.add_nocarry_lxor.
  apply Nat.bits_inj. intros m.
  rewrite Nat.land_spec, Nat.bits_0, Nat.pow2_bits_eqb.
  destruct (Nat.eqb_spec j m) as [<-|]; [|apply andb_false_r].
  now rewrite Hbit.
Qed.

Lemma lxor_pow2_set (x j : nat) :
  (x / 2 ^ j) mod 2 = 1 -> 2 ^ j <= x /\ Nat.lxor x (2 ^ j) = x - 2 ^ j.
Proof.
  intros Hbit. apply Nat.testbit_true in Hbit.
  set (y := Nat.lxor x (2 ^ j)).
  assert (Hy : Nat.testbit y j = false).
  { unfold y. rewrite Nat.lxor_spec, Hbit, Nat.pow2_bits_eqb, Nat.eqb_refl. reflexivity. }
  apply Nat.testbit_false in Hy. apply lxor_pow2_clear in Hy.
  assert (Hx : Nat.lxor y (2 ^ j) = x).
  { unfold y. rewrite Nat.lxor_assoc, Nat.lxor_nilpotent, Nat.lxor_0_r. reflexivity. }
  lia.
Qed.

Lemma lane_bit (t j k : nat) :
  j < k -> ((t mod 2 ^ k) / 2 ^ j) mod 2 = (t / 2 ^ j) mod 2.
Proof.
  intros Hjk.
  pose proof (Nat.mod_pow2_bits_low t k j Hjk) as Hbits.
  destruct (Nat.testbit t j) eqn:Ht.
  - apply Nat.testbit_true in Hbits, Ht. congruence.
  - apply Nat.testbit_false in Hbits, Ht. congruence.
Qed.

Lemma stride_in_warp (x j k : nat) :
  j < k -> x < 2 ^ k -> (x / 2 ^ j) mod 2 = 0 -> x + 2 ^ j < 2 ^ k.
Proof.
  intros Hjk Hx Hbit.
  assert (Hk : 2 ^ k = 2 ^ j * (2 * 2 ^ (k - S j))).
  { rewrite <- Nat.pow_succ_r', <- Nat.pow_add_r. f_equal. lia. }
  assert (Hj : 2 ^ j <> 0) by (apply Nat.pow_nonzero; lia).
  pose proof (Nat.div_mod_eq x (2 ^ j)) as Hdm.
  pose proof (Nat.mod_upper_bound x _ Hj) as Hr.
  pose proof (Nat.div_mod_eq (x / 2 ^ j) 2) as Hq. rewrite Hbit in Hq.
  rewrite Hk in *. clear Hk Hbit.
  set (a := 2 ^ j) in *. set (q := x / a) in *. set (h := q / 2) in *.
  set (r := x mod a) in *. set (c := 2 ^ (k - S j)) in *.
  clearbody a q h r c.
  assert (h < c) by nia. nia.
Qed.

(** The lane [shfl_xor_sync] reads in thread [t] at stride [2^j]. *)
Lemma xor_partner (W k t j : nat) :
  W = 2 ^ k -> j < k ->
  (W * (t / W) + Nat.lxor (t mod W) (2 ^ j)) / W = t / W /\
  ((t / 2 ^ j) mod 2 = 0 ->
     W * (t / W) + Nat.lxor (t mod W) (2 ^ j) = t + 2 ^ j) /\
  ((t / 2 ^ j) mod 2 = 1 ->
     2 ^ j <= t /\ W * (t / W) + Nat.lxor (t mod W) (2 ^ j) = t - 2 ^ j).
Proof.
  intros -> Hjk.
  assert (HW : 2 ^ k <> 0) by (apply Nat.pow_nonzero; lia).
  pose proof (Nat.div_mod_eq t (2 ^ k)) as Hdm.
  pose proof (Nat.mod_upper_bound t _ HW) as Hr.
  pose proof (lane_bit t j k Hjk) as Hbit.
  assert (Hcases : (t / 2 ^ j) mod 2 = 0 \/ (t / 2 ^ j) mod 2 = 1).
  { pose proof (Nat.mod_upper_bound (t / 2 ^ j) 2). lia. }
  assert (Hin : Nat.lxor (t mod 2 ^ k) (2 ^ j) < 2 ^ k).
  { destruct Hcases as [Hclear|Hset].
    - rewrite lxor_pow2_clear by congruence.
      apply stride_in_warp; [assumption | assumption | congruence].
    - destruct (lxor_pow2_set (t mod 2 ^ k) j) as [? ->]; [congruence | lia]. }
  split; [|split].
  - symmetry.
    apply (Nat.div_unique _ _ _ (Nat.lxor (t mod 2 ^ k) (2 ^ j))); [exact Hin | reflexivity].
  - intros Hclear. rewrite lxor_pow2_clear by congruence. lia.
  - intros Hset. destruct (lxor_pow2_set (t mod 2 ^ k) j) as [Hle ->]; [congruence|]. lia.
Qed.

Section AllLanes.

Context {T : Type} `{ReducerLaws T}.
Variables WARP_SIZE MAX_WARPS : nat.
Variable undef : nat -> T.
Variable sd_init : nat -> T.
Variable k : nat.
Hypothesis warp_pow2 : WARP_SIZE = 2 ^ k.

(** After the strides below [2^j], every thread holds the combine of the
    [2^j] values of the aligned group of [2^j] threads it is in. *)
Definition all_lanes (vals : list T) (j : nat) (temps : list T) : Prop :=
  forall t, t < length vals ->
    temps !! t = Some (segment vals (t / 2 ^ j * 2 ^ j) (2 ^ j)).

Lemma all_lanes_start (vals temps : list T) :
  (forall t, t < length vals -> temps !! t = vals !! t) ->
  all_lanes vals 0 temps.
Proof.
  intros Hsame t Ht. rewrite Hsame by exact Ht.
  destruct (lookup_lt_is_Some_2 vals t Ht) as [v Hv].
  rewrite Hv. f_equal. symmetry. change (2 ^ 0) with 1. rewrite Nat.div_1_r, Nat.mul_1_r.
  now apply segment_one.
Qed.

(** One stride: every thread combines its own value with the value of its
    partner. The partner's group is the other half of the thread's next
    group; it is the right operand, whichever half it is. *)
Lemma all_lanes_step (vals old new : list T) (j : nat) :
  all_lanes vals j old ->
  (forall t x, t < length vals -> old !! t = Some x ->
     exists src, src < length vals /\
       ((t / 2 ^ j) mod 2 = 0 -> src = t + 2 ^ j) /\
       ((t / 2 ^ j) mod 2 = 1 -> 2 ^ j <= t /\ src = t - 2 ^ j) /\
       new !! t = Some (combine x (lane_read undef old src))) ->
  all_lanes vals (S j) new.
Proof.
  intros Hold Hstep t Ht.
  assert (Hj : 2 ^ j <> 0) by (apply Nat.pow_nonzero; lia).
  destruct (Hstep t _ Ht (Hold t Ht)) as (src & Hsrc & Hup & Hdown & ->). f_equal.
  unfold lane_read. rewrite (Hold src Hsrc).
  assert (Hbase : t / 2 ^ S j = t / 2 ^ j / 2).
  { rewrite Nat.Div0.div_div, Nat.pow_succ_r'. f_equal. lia. }
  rewrite Hbase.
  replace (2 ^ S j) with (2 ^ j + 2 ^ j) by (rewrite Nat.pow_succ_r'; lia).
  pose proof (Nat.div_mod_eq (t / 2 ^ j) 2) as Hq.
  pose proof (Nat.div_mod_eq t (2 ^ j)) as Hdm.
  pose proof (Nat.mod_upper_bound t _ Hj) as Hr.
  assert (Hcases : (t / 2 ^ j) mod 2 = 0 \/ (t / 2 ^ j) mod 2 = 1)
    by (pose proof (Nat.mod_upper_bound (t / 2 ^ j) 2); lia).
  destruct Hcases as [Hclear|Hset].
  - rewrite (Hup Hclear).
    replace ((t + 2 ^ j) / 2 ^ j) with (t / 2 ^ j + 1).
    2:{ replace (t + 2 ^ j) with (t + 1 * 2 ^ j) by lia.
        rewrite Nat.div_add by exact Hj. reflexivity. }
    rewrite segment_double. f_equal; f_equal; nia.
  - destruct (Hdown Hset) as [Hle ->].
    replace ((t - 2 ^ j) / 2 ^ j) with (t / 2 ^ j - 1).
    2:{ apply (Nat.div_unique _ _ _ (t mod 2 ^ j)); [exact Hr | nia]. }
    rewrite combine_comm, segment_double. f_equal; f_equal; nia.
Qed.

Lemma xor_step_all_lanes (vals temps : list T) (j : nat) :
  j < k -> length vals mod WARP_SIZE = 0 ->
  all_lanes vals j temps ->
  all_lanes vals (S j) (xor_step WARP_SIZE undef (2 ^ j) temps).
Proof.
  intros Hjk Hwhole Hb. apply (all_lanes_step vals temps); [exact Hb|].
  intros t x Ht Hx.
  destruct (xor_partner WARP_SIZE k t j warp_pow2 Hjk) as (Hwarp & Hup & Hdown).
  exists (WARP_SIZE * (t / WARP_SIZE) + Nat.lxor (t mod WARP_SIZE) (2 ^ j)).
  split; [|split; [exact Hup|split; [exact Hdown|]]].
  - pose proof (warp_size_pos WARP_SIZE k warp_pow2) as HW.
    set (src := WARP_SIZE * (t / WARP_SIZE) + _) in *.
    pose proof (Nat.div_mod_eq (length vals) WARP_SIZE) as Hn. rewrite Hwhole in Hn.
    pose proof (Nat.div_mod_eq src WARP_SIZE) as Hs.
    pose proof (Nat.mod_upper_bound src WARP_SIZE ltac:(lia)) as Hsr.
    pose proof (Nat.div_mod_eq t WARP_SIZE) as Hdm.
    rewrite Hwarp in Hs.
    assert (t / WARP_SIZE < length vals / WARP_SIZE) by nia.
    nia.
  - unfold xor_step. rewrite (imap_lookup_Some _ _ _ _ Hx). reflexivity.
Qed.

Lemma warp0_step_all_lanes (vals temps : list T) (j : nat) :
  j < k -> length vals = WARP_SIZE ->
  all_lanes vals j temps ->
  all_lanes vals (S j) (warp0_step WARP_SIZE undef (2 ^ j) temps).
Proof.
  intros Hjk Hlen Hb. apply (all_lanes_step vals temps); [exact Hb|].
  intros t x Ht Hx.
  destruct (xor_partner WARP_SIZE k t j warp_pow2 Hjk) as (Hwarp & Hup & Hdown).
  pose proof (warp_size_pos WARP_SIZE k warp_pow2) as HW.
  rewrite Hlen in Ht.
  exists (WARP_SIZE * (t / WARP_SIZE) + Nat.lxor (t mod WARP_SIZE) (2 ^ j)).
  split; [|split; [exact Hup|split; [exact Hdown|]]].
  - rewrite Hlen. apply Nat.div_small_iff; [lia|].
    rewrite Hwarp. apply Nat.div_small. exact Ht.
  - unfold warp0_step, shfl_xor_sync. rewrite (imap_lookup_Some _ _ _ _ Hx).
    rewrite (Nat.div_small _ _ Ht). reflexivity.
Qed.

(** All strides of one loop, for any property of the registers. *)
Lemma strides_invariant (P : nat -> list T -> Prop) (temps : list T)
    (body : nat -> list T -> list T) :
  (forall j old, j < k -> P j old -> P (S j) (body (2 ^ j) old)) ->
  P 0 temps ->
  P k (for_strides WARP_SIZE WARP_SIZE 1 body temps).
Proof.
  intros Hbody Hstart. rewrite (for_strides_warp WARP_SIZE k warp_pow2).
  assert (Hall : forall j, j <= k ->
            P j (foldl (fun s i => body (2 ^ i) s) temps (seq 0 j))).
  { induction j as [|j IH]; intros Hj; [exact Hstart|].
    rewrite seq_S, foldl_app. simpl. apply Hbody; [lia | apply IH; lia]. }
  apply Hall. lia.
Qed.

(** The second loop and the loads before it leave the other warps alone. *)
Lemma warp0_step_other_warps (i t : nat) (temps : list T) :
  t / WARP_SIZE <> 0 -> warp0_step WARP_SIZE undef i temps !! t = temps !! t.
Proof.
  intros Hw. unfold warp0_step. rewrite list_lookup_imap.
  destruct (temps !! t); [simpl|reflexivity].
  destruct (Nat.eqb_spec (t / WARP_SIZE) 0); [contradiction|reflexivity].
Qed.

Lemma load_warps_other_warps (n t : nat) (sd temps : list T) :
  t / WARP_SIZE <> 0 -> load_warps WARP_SIZE undef n sd temps !! t = temps !! t.
Proof.
  intros Hw. unfold load_warps. rewrite list_lookup_imap.
  destruct (temps !! t); [simpl|reflexivity].
  destruct (Nat.eqb_spec (t / WARP_SIZE) 0); [contradiction|reflexivity].
Qed.

(** X13. What [block_reduce] returns in the threads other than thread 0,
    in a block of whole warps (the branch [numThreads % WARP_SIZE == 0]),
    for a commutative reducer: every thread of warp 0 returns the combine
    of the values of all threads of the block, and a thread of any other
    warp returns the combine of the values of its own warp. *)
Theorem block_reduce_whole_warps (val : list T) (t : nat) :
  0 < length val -> length val mod WARP_SIZE = 0 ->
  length val <= WARP_SIZE * MAX_WARPS -> MAX_WARPS <= WARP_SIZE ->
  t < length val ->
  block_reduce WARP_SIZE MAX_WARPS undef sd_init val !! t
  = Some (if t <? WARP_SIZE then reduce_all val
          else reduce_all (take WARP_SIZE (drop (t / WARP_SIZE * WARP_SIZE) val))).
Proof.
  intros Hpos Hwhole Hmax Hwarps Ht.
  pose proof (warp_size_pos WARP_SIZE k warp_pow2) as HW.
  assert (Hfl : first_loop WARP_SIZE undef val
                = for_strides WARP_SIZE WARP_SIZE 1 (xor_step WARP_SIZE undef) val).
  { unfold first_loop. now rewrite Hwhole. }
  unfold block_reduce. fold (first_loop WARP_SIZE undef val).
  assert (Hfirst : all_lanes val k (first_loop WARP_SIZE undef val)).
  { rewrite Hfl. apply (strides_invariant (all_lanes val)).
    - intros j old Hj Hold. now apply xor_step_all_lanes.
    - now apply all_lanes_start. }
  assert (Hlen : length (first_loop WARP_SIZE undef val) = length val)
    by apply first_loop_length.
  destruct (Nat.ltb_spec WARP_SIZE (length val)) as [Hbig|Hsmall].
  - set (temp := first_loop WARP_SIZE undef val) in *.
    set (sd := publish WARP_SIZE temp (map sd_init (seq 0 MAX_WARPS))).
    set (loaded := load_warps WARP_SIZE undef (length val) sd temp).
    assert (Hlenl : length loaded = length val).
    { unfold loaded, load_warps. rewrite length_imap. exact Hlen. }
    destruct (Nat.ltb_spec t WARP_SIZE) as [Hlane|Hlane].
    + assert (Hloaded : forall l, l < WARP_SIZE ->
                loaded !! l = Some (segment val (l * WARP_SIZE) WARP_SIZE)).
      { intros l Hl.
        exact (load_warps_lookup WARP_SIZE MAX_WARPS undef sd_init k warp_pow2
                 val l Hbig Hmax Hl). }
      set (warp0 := take WARP_SIZE loaded).
      assert (Hw0 : length warp0 = WARP_SIZE)
        by (unfold warp0; rewrite length_take; lia).
      assert (Hfinal : all_lanes warp0 k
                (for_strides WARP_SIZE WARP_SIZE 1 (warp0_step WARP_SIZE undef) loaded)).
      { apply (strides_invariant (all_lanes warp0)).
        - intros j old Hj Hold. now apply warp0_step_all_lanes.
        - apply all_lanes_start. intros l Hl. unfold warp0.
          rewrite lookup_take_lt by lia. reflexivity. }
      rewrite (Hfinal t) by (rewrite Hw0; exact Hlane). f_equal.
      rewrite <- warp_pow2, (Nat.div_small _ _ Hlane). simpl.
      unfold segment. rewrite drop_0, take_ge by lia.
      assert (Hmap : warp0 = map (fun l => segment val (l * WARP_SIZE) WARP_SIZE)
                                 (seq 0 WARP_SIZE)).
      { apply list_eq. intros l. unfold warp0.
        destruct (Nat.lt_ge_cases l WARP_SIZE) as [Hl|Hl].
        - rewrite lookup_take_lt, Hloaded by exact Hl.
          change map with (@fmap list _). rewrite list_lookup_fmap, lookup_seq_lt by exact Hl.
          reflexivity.
        - rewrite lookup_take_ge by exact Hl. symmetry. apply lookup_ge_None.
          rewrite length_map, length_seq. exact Hl. }
      rewrite Hmap, (segments_cover WARP_SIZE k warp_pow2), take_ge by nia. reflexivity.
    + assert (Hother : t / WARP_SIZE <> 0).
      { intros Hz. apply Nat.div_small_iff in Hz; lia. }
      assert (Hkeep : for_strides WARP_SIZE WARP_SIZE 1 (warp0_step WARP_SIZE undef) loaded !! t
                      = loaded !! t).
      { apply (strides_invariant (fun _ temps => temps !! t = loaded !! t));
          [| reflexivity].
        intros j old _ Hold. now rewrite warp0_step_other_warps. }
      rewrite Hkeep. unfold loaded. rewrite load_warps_other_warps by exact Hother.
      rewrite (Hfirst t Ht), <- warp_pow2. reflexivity.
  - assert (Hlane : t < WARP_SIZE) by lia.
    apply Nat.ltb_lt in Hlane as Hlane'. rewrite Hlane'.
    rewrite (Hfirst t Ht). f_equal.
    rewrite <- warp_pow2, (Nat.div_small _ _ Hlane). simpl.
    unfold segment. rewrite drop_0, take_ge by lia. reflexivity.
Qed.

End AllLanes.

Lemma block_reduce_whole_warps_witness :
  let val := map Z.of_nat (seq 1 64) in
  @block_reduce Z sum_Z 32 32 (fun _ => 99%Z) (fun _ => 77%Z) val !! 17 = Some 2080%Z /\
  @block_reduce Z sum_Z 32 32 (fun _ => 99%Z) (fun _ => 77%Z) val !! 40 = Some 1552%Z.
Proof.
  intros val. split.
  - exact (@block_reduce_whole_warps Z sum_Z sum_Z_laws 32 32 (fun _ => 99%Z) (fun _ => 77%Z)
             5 eq_refl val 17 ltac:(simpl; lia) eq_refl ltac:(simpl; lia) ltac:(lia)
             ltac:(simpl; lia)).
  - exact (@block_reduce_whole_warps Z sum_Z sum_Z_laws 32 32 (fun _ => 99%Z) (fun _ => 77%Z)
             5 eq_refl val 40 ltac:(simpl; lia) eq_refl ltac:(simpl; lia) ltac:(lia)
             ltac:(simpl; lia)).
Defined.

End BlockFacts.

(** ** [block_reduce] on located values *)

Module BlockLocFacts.
Import Block.

Section Located.

Context {T I : Type} `{LocReducer T I}.
Variables WARP_SIZE MAX_WARPS : nat.
Variable undef_val : nat -> T.
Variable undef_idx : nat -> I.
Variable sd_val_init : nat -> T.
Variable sd_idx_init : nat -> I.

(** The 4-ary operator as a reducer of located values, with
    [(Reducer::identity, IndexType{-1})] for its identity. *)
Definition located : Reducer (Loc.LocType T I) :=
  {| combine := fun acc v => BlockLoc.reduce_loc acc (Loc.val v) (Loc.idx v);
     identity := Loc.mkLoc loc_identity no_loc;
     object_bytes := fun _ => [] |}.

(** A located value that is read where nothing was written. *)
Definition undef_loc (src : nat) : Loc.LocType T I :=
  Loc.mkLoc (undef_val src) (undef_idx src).

Definition sd_loc_init (w : nat) : Loc.LocType T I :=
  Loc.mkLoc (sd_val_init w) (sd_idx_init w).

Lemma lane_read_located (temps : list (Loc.LocType T I)) (src : nat) :
  lane_read undef_loc temps src
  = Loc.mkLoc (lane_read undef_val (map Loc.val temps) src)
              (lane_read undef_idx (map Loc.idx temps) src).
Proof.
  unfold lane_read. change map with (@fmap list _). rewrite !list_lookup_fmap.
  destruct (temps !! src) as [[v i]|]; reflexivity.
Qed.

Lemma sd_read_located (sd : list (Loc.LocType T I)) (w : nat) :
  sd_read undef_loc sd w
  = Loc.mkLoc (sd_read undef_val (map Loc.val sd) w)
              (sd_read undef_idx (map Loc.idx sd) w).
Proof.
  unfold sd_read. change map with (@fmap list _). rewrite !list_lookup_fmap.
  destruct (sd !! w) as [[v i]|]; reflexivity.
Qed.

Lemma xor_step_located (i : nat) (temps : list (Loc.LocType T I)) :
  BlockLoc.xor_step WARP_SIZE undef_val undef_idx i temps
  = @xor_step _ located WARP_SIZE undef_loc i temps.
Proof.
  unfold BlockLoc.xor_step, xor_step. apply imap_ext. intros t temp _.
  unfold shfl_xor_sync. rewrite lane_read_located. reflexivity.
Qed.

Lemma guarded_step_located (n i : nat) (temps : list (Loc.LocType T I)) :
  BlockLoc.guarded_step WARP_SIZE undef_val undef_idx n i temps
  = @guarded_step _ located WARP_SIZE undef_loc n i temps.
Proof.
  unfold BlockLoc.guarded_step, guarded_step. apply imap_ext. intros t temp _.
  unfold shfl_sync. rewrite lane_read_located. reflexivity.
Qed.

Lemma warp0_step_located (i : nat) (temps : list (Loc.LocType T I)) :
  BlockLoc.warp0_step WARP_SIZE undef_val undef_idx i temps
  = @warp0_step _ located WARP_SIZE undef_loc i temps.
Proof.
  unfold BlockLoc.warp0_step, warp0_step. apply imap_ext. intros t temp _.
  unfold shfl_xor_sync. rewrite lane_read_located. reflexivity.
Qed.

Lemma for_strides_ext {St : Type} (body body' : nat -> St -> St) (fuel i : nat) (s : St) :
  (forall i s, body i s = body' i s) ->
  for_strides WARP_SIZE fuel i body s = for_strides WARP_SIZE fuel i body' s.
Proof.
  intros Hext. revert i s. induction fuel as [|fuel IH]; intros i s; [reflexivity|].
  simpl. destruct (i <? WARP_SIZE); [|reflexivity]. now rewrite Hext, IH.
Qed.

(** The two shared arrays are the two halves of one array of located
    values. *)
Lemma publish_map {A B : Type} (f : A -> B) (temps sd : list A) :
  map f (publish WARP_SIZE temps sd) = publish WARP_SIZE (map f temps) (map f sd).
Proof.
  induction temps as [|x temps IH] using rev_ind; [reflexivity|].
  rewrite map_app. cbn [map].
  rewrite !BlockFacts.publish_snoc. cbv zeta. rewrite length_map, <- IH.
  destruct (_ =? 0); [|reflexivity].
  change map with (@fmap list _). now rewrite list_fmap_insert.
Qed.

Lemma load_warps_located (n : nat) (sd temps : list (Loc.LocType T I)) :
  BlockLoc.load_warps WARP_SIZE undef_val undef_idx n
    (map Loc.val sd) (map Loc.idx sd) temps
  = @load_warps _ located WARP_SIZE undef_loc n sd temps.
Proof.
  unfold BlockLoc.load_warps, load_warps. apply imap_ext. intros t temp _.
  cbv zeta. rewrite sd_read_located. reflexivity.
Qed.

(** X14. [block_reduce] on [LocType], which shuffles [temp.val] and
    [temp.idx] one after the other and keeps the per-warp values in the two
    shared arrays [sd_val] and [sd_idx], returns in every thread of a block
    of any size what the scalar [block_reduce] returns on the located
    values, with the 4-ary operator for its combine and
    [(Reducer::identity, IndexType{-1})] for its identity; a lane without a
    thread and a cell of shared memory that was not written give the pair
    of what they give for the value and for the index. *)
Theorem block_reduce_located (val : list (Loc.LocType T I)) :
  BlockLoc.block_reduce WARP_SIZE MAX_WARPS undef_val undef_idx sd_val_init sd_idx_init val
  = @block_reduce _ located WARP_SIZE MAX_WARPS undef_loc sd_loc_init val.
Proof.
  unfold BlockLoc.block_reduce, block_reduce.
  rewrite (for_strides_ext _ _ _ _ val (xor_step_located)).
  rewrite (for_strides_ext _ _ _ _ val (guarded_step_located (length val))).
  set (temp := if length val mod WARP_SIZE =? 0 then _ else _).
  destruct (WARP_SIZE <? length val); [|reflexivity].
  rewrite (for_strides_ext _ _ _ _ _ (warp0_step_located)).
  f_equal.
  rewrite <- load_warps_located, !publish_map, !map_map. reflexivity.
Qed.

End Located.

End BlockLocFacts.

(** ** [grid_reduce] *)

Module TreeFacts.
Import Tree.

Section Gather.

Context {T : Type} `{ReducerLaws T}.
Variable undef : nat -> T.
Variable vals : list (list T).
Variable numThreads : nat.
Hypothesis threads_pos : 0 < numThreads.

(** Fold a value that may be missing. *)
Definition combine_opt (a : T) (o : option T) : T :=
  match o with
  | Some x => combine a x
  | None => a
  end.

(** The [j]-th run of [numThreads] consecutive elements of the scratch. *)
Definition row (mem : list T) (j : nat) : list T :=
  take numThreads (drop (j * numThreads) mem).

Lemma row_lookup (mem : list T) (j t : nat) :
  t < numThreads -> row mem j !! t = mem !! (t + j * numThreads).
Proof.
  intros Ht. unfold row. rewrite lookup_take_lt by exact Ht.
  rewrite lookup_drop. f_equal. lia.
Qed.

(** The strided loop of thread [t] folds the [t]-th element of every row. *)
Lemma gather_loop_rows (mem : list T) (t fuel j : nat) (acc : T) :
  t < numThreads -> length mem = numBlocks vals ->
  gather_loop undef vals numThreads fuel (t + j * numThreads) mem acc
  = foldl (fun a j' => combine_opt a (row mem j' !! t)) acc (seq j fuel).
Proof.
  intros Ht Hlen. revert j acc. induction fuel as [|fuel IH]; intros j acc.
  - reflexivity.
  - cbn [gather_loop seq foldl]. rewrite row_lookup by exact Ht.
    destruct (Nat.ltb_spec (t + j * numThreads) (numBlocks vals)) as [Hlt|Hge].
    + replace (t + j * numThreads + numThreads) with (t + S j * numThreads) by lia.
      rewrite IH. f_equal. unfold Block.sd_read.
      destruct (lookup_lt_is_Some_2 mem (t + j * numThreads)) as [x Hx]; [lia|].
      now rewrite Hx.
    + rewrite (lookup_ge_None_2 mem) by lia. cbn [combine_opt].
      clear IH. revert j Hge. induction fuel as [|fuel IH]; intros j Hge.
      * reflexivity.
      * cbn [seq foldl]. rewrite row_lookup, (lookup_ge_None_2 mem) by lia.
        apply IH. lia.
Qed.

(** Folding one more row into every thread adds the combine of the row. *)
Lemma fold_row_imap (As xs : list T) :
  length xs <= length As ->
  reduce_all (imap (fun t a => combine_opt a (xs !! t)) As)
  = combine (reduce_all As) (reduce_all xs).
Proof.
  revert xs. induction As as [|a As IH]; intros xs Hlen.
  - destruct xs; [|simpl in Hlen; lia]. simpl. now rewrite combine_identity_l.
  - rewrite imap_cons. destruct xs as [|x xs].
    + rewrite (imap_ext _ (fun t a => combine_opt a (@nil T !! t))) by reflexivity.
      unfold reduce_all in *. cbn [foldr]. fold (reduce_all As).
      specialize (IH [] ltac:(simpl; lia)). unfold reduce_all in IH. rewrite IH.
      cbn [foldr lookup list_lookup combine_opt].
      now rewrite !combine_identity_r.
    + rewrite (imap_ext _ (fun t a => combine_opt a (xs !! t))) by reflexivity.
      specialize (IH xs ltac:(simpl in Hlen; lia)).
      unfold reduce_all in *. cbn [foldr lookup list_lookup combine_opt].
      rewrite IH. rewrite <- !combine_assoc. f_equal.
      rewrite !combine_assoc. f_equal. apply combine_comm.
Qed.

Lemma fold_row (A : nat -> T) (xs : list T) (n : nat) :
  length xs <= n ->
  reduce_all (map (fun t => combine_opt (A t) (xs !! t)) (seq 0 n))
  = combine (reduce_all (map A (seq 0 n))) (reduce_all xs).
Proof.
  intros Hlen. rewrite <- fold_row_imap by (rewrite length_map, length_seq; exact Hlen).
  f_equal. apply list_eq. intros t.
  change map with (@fmap list _).
  rewrite list_lookup_imap, !list_lookup_fmap.
  destruct (Nat.lt_ge_cases t n) as [Ht|Ht].
  - rewrite lookup_seq_lt by exact Ht. reflexivity.
  - rewrite lookup_seq_ge by exact Ht. reflexivity.
Qed.

Lemma rows_cover (mem : list T) (r : nat) :
  reduce_all (map (fun t => foldl (fun a j => combine_opt a (row mem j !! t)) identity (seq 0 r))
                  (seq 0 numThreads))
  = reduce_all (take (r * numThreads) mem).
Proof.
  induction r as [|r IH].
  - simpl. induction (seq 0 numThreads) as [|t ts IHts]; [reflexivity|].
    unfold reduce_all in *. simpl. rewrite IHts. apply combine_identity_l.
  - erewrite map_ext; [|intros t; rewrite seq_S, foldl_app; reflexivity].
    cbn [foldl Nat.add].
    rewrite (fold_row (fun t => foldl _ identity (seq 0 r)) (row mem r)), IH.
    + rewrite <- reduce_all_app. f_equal. unfold row.
      rewrite take_take_drop. f_equal. lia.
    + unfold row. rewrite length_take. lia.
Qed.

End Gather.

(** *** Counting program counters *)

Definition is_done {T : Type} (p : pc T) : bool :=
  match p with Done => true | _ => false end.

Definition count_done {T : Type} (l : list (pc T)) : nat := count_if is_done l.

Lemma is_done_Done {T : Type} (p : pc T) : is_done p = true -> p = Done.
Proof. destruct p; try discriminate. reflexivity. Qed.

Lemma count_done_insert {T : Type} (l : list (pc T)) (b : nat) (p p' : pc T) :
  l !! b = Some p ->
  count_done (<[b := p']> l) + (if is_done p then 1 else 0)
  = count_done l + (if is_done p' then 1 else 0).
Proof. apply count_if_insert. Qed.

Lemma count_done_others {T : Type} (l : list (pc T)) (b b' : nat) (p p' : pc T) :
  count_done l + 1 = length l ->
  l !! b = Some p -> is_done p = false ->
  l !! b' = Some p' -> b' <> b -> p' = Done.
Proof.
  intros Hc Hb Hp Hb' Hne. apply is_done_Done.
  exact (count_if_others is_done l b b' p p' Hc Hb Hp Hb' Hne).
Qed.

(** *** Who returns [true] *)

Lemma filter_imap_none {A B : Type} (p : B -> bool) (g : nat -> A -> B) (l : list A) :
  (forall t x, p (g t x) = false) -> List.filter p (imap g l) = [].
Proof.
  revert g. induction l as [|x l IH]; intros g Hg; [reflexivity|].
  rewrite imap_cons. cbn [List.filter]. rewrite Hg. apply IH. intros t y. apply Hg.
Qed.

(** Of the threads of a block, thread 0 alone returns [true], and only
    when [lastBlock] holds. *)
Lemma returning_cases {T : Type} (lastBlock : bool) (val : list T) :
  returning lastBlock val
  = match val with
    | [] => []
    | v :: _ => if lastBlock then [(0, v)] else []
    end.
Proof.
  destruct val as [|v val]; [reflexivity|].
  unfold returning. rewrite imap_cons. cbn [List.filter fst].
  rewrite filter_imap_none.
  - unfold returns_true. now destruct lastBlock.
  - intros t x. unfold returns_true. cbn [fst compose Nat.eqb]. apply andb_false_r.
Qed.

Lemma returning_not_last {T : Type} (val : list T) : returning false val = [].
Proof. rewrite returning_cases. now destruct val. Qed.

Lemma stores_left_rank {T : Type} (lastBlock : bool) (val : list T) :
  stores_left (returning lastBlock val) = Done \/
  exists v, stores_left (returning lastBlock val) = Return [(0, v)].
Proof.
  rewrite returning_cases. destruct val as [|v val]; [now left|].
  destruct lastBlock; [right; now exists v | now left].
Qed.

(** The barrier hands what thread 0 saw to every thread of the block. *)
Lemma syncthreads_or_thread0 {A : Type} (flag : bool) (x : A) (l : list A) :
  syncthreads_or (imap (fun threadId _ => (threadId =? 0) && flag) (x :: l)) = flag.
Proof.
  unfold syncthreads_or. rewrite imap_cons. cbn [existsb id Nat.eqb andb].
  assert (Hrest : forall (g : nat -> nat) (l' : list A),
            (forall t, g t <> 0) ->
            existsb id (imap (fun threadId _ => (g threadId =? 0) && flag) l') = false).
  { intros g l'. revert g. induction l' as [|y l' IH]; intros g Hg; [reflexivity|].
    rewrite imap_cons. cbn [existsb id].
    destruct (Nat.eqb_spec (g 0) 0) as [E|_]; [now apply Hg in E|].
    cbn [andb orb]. apply (IH (g ∘ S)). intros t. apply Hg. }
  rewrite (Hrest S) by (intros t; discriminate). apply orb_false_r.
Qed.

(** *** The protocol between the blocks *)

Section Protocol.

Context {T : Type} `{ReducerLaws T}.
Variables WARP_SIZE MAX_WARPS k : nat.
Variables undef sd_init : nat -> T.
Hypothesis warp_pow2 : WARP_SIZE = 2 ^ k.
Hypothesis warps_fit : MAX_WARPS <= WARP_SIZE.

(** The launch: [numThreads] threads in every block. *)
Variable vals : list (list T).
Variable numThreads : nat.
Hypothesis threads_pos : 0 < numThreads.
Hypothesis threads_fit : numThreads <= WARP_SIZE * MAX_WARPS.
Hypothesis uniform : Forall (fun blk => length blk = numThreads) vals.

Abbreviation nb := (numBlocks vals).
Abbreviation step_ := (step WARP_SIZE MAX_WARPS undef sd_init vals numThreads).
Abbreviation run_ := (run WARP_SIZE MAX_WARPS undef sd_init vals numThreads).

(** The combine of the values of block [b], and of all the values. *)
Definition aggregate (b : nat) : T := reduce_all (default [] (vals !! b)).
Definition total : T := reduce_all (concat vals).

Lemma block_aggregate_block (b : nat) :
  b < nb ->
  Block.block_aggregate WARP_SIZE MAX_WARPS undef sd_init (default [] (vals !! b))
  = aggregate b.
Proof.
  intros Hb. destruct (lookup_lt_is_Some_2 vals b Hb) as [blk Hblk].
  assert (Hlen : length blk = numThreads).
  { rewrite Forall_lookup in uniform. exact (uniform b blk Hblk). }
  unfold aggregate. rewrite Hblk. change (default [] (Some blk)) with blk.
  apply (BlockFacts.block_aggregate_spec WARP_SIZE MAX_WARPS undef sd_init k);
    rewrite ?Hlen; assumption.
Qed.

Lemma gather_total (mem : list T) :
  length mem = nb ->
  (forall b, b < nb -> mem !! b = Some (aggregate b)) ->
  gather WARP_SIZE MAX_WARPS undef sd_init vals numThreads mem = total.
Proof.
  intros Hlen Hmem. unfold gather.
  rewrite (BlockFacts.block_aggregate_spec WARP_SIZE MAX_WARPS undef sd_init k);
    [| rewrite ?length_map, ?length_seq; assumption ..].
  erewrite map_ext_in.
  2:{ intros t Ht. apply in_seq in Ht.
      replace t with (t + 0 * numThreads) at 1 by lia.
      apply (gather_loop_rows undef vals numThreads); first [lia | exact Hlen]. }
  rewrite (rows_cover numThreads threads_pos mem nb).
  rewrite take_ge by (rewrite Hlen; unfold numBlocks; nia).
  assert (Hmap : mem = map reduce_all vals).
  { apply list_eq. intros b. change map with (@fmap list _).
    rewrite list_lookup_fmap.
    destruct (Nat.lt_ge_cases b nb) as [Hb|Hb].
    - rewrite Hmem by exact Hb. unfold aggregate.
      destruct (lookup_lt_is_Some_2 vals b Hb) as [blk ->]. reflexivity.
    - rewrite !lookup_ge_None_2; [reflexivity | exact Hb | lia]. }
  rewrite Hmap. unfold total. now rewrite reduce_all_concat.
Qed.

(** Every block of the grid has a thread 0. *)
Lemma block_threads (b : nat) :
  b < nb -> exists v val, default [] (vals !! b) = v :: val.
Proof.
  intros Hb. destruct (lookup_lt_is_Some_2 vals b Hb) as [blk Hblk].
  assert (Hlen : length blk = numThreads).
  { rewrite Forall_lookup in uniform. exact (uniform b blk Hblk). }
  rewrite Hblk. destruct blk as [|v val]; [simpl in Hlen; lia|]. now exists v, val.
Qed.

Lemma broadcast_thread0 (b : nat) (flag : bool) :
  b < nb -> broadcast vals b flag = flag.
Proof.
  intros Hb. destruct (block_threads b Hb) as (v & val & Hval).
  unfold broadcast. rewrite Hval. apply syncthreads_or_thread0.
Qed.

(** The threads of the last block return: thread 0 with [true] and [temp]
    in [val], all others with [false]. *)
Lemma leave_last (b : nat) (temp : T) (count : nat) (tr : list (event T))
    (st : state T) :
  b < nb ->
  leave b true (store_val temp (default [] (vals !! b))) count tr st
  = mkState (device_mem st) count (val_ptr st)
            (set_pc b (Return [(0, temp)]) st) (ReturnTrue b 0 temp :: tr).
Proof.
  intros Hb. destruct (block_threads b Hb) as (v & val & Hval).
  unfold leave. rewrite returning_cases, Hval. reflexivity.
Qed.

(** The threads of any other block all return [false]. *)
Lemma leave_not_last (b : nat) (val : list T) (count : nat) (tr : list (event T))
    (st : state T) :
  leave b false val count tr st
  = mkState (device_mem st) count (val_ptr st) (set_pc b Done st) tr.
Proof. unfold leave. rewrite returning_not_last. reflexivity. Qed.

(** A step of a block of the grid, with what its threads return written
    out. *)
Lemma step_block (st : state T) (b : nat) :
  b < nb ->
  step_ st b
  = match pcs st !! b with
    | None => st
    | Some Start =>
        let temp := Block.block_aggregate WARP_SIZE MAX_WARPS undef sd_init
                      (default [] (vals !! b)) in
        if nb =? 1
        then mkState (device_mem st) (device_count st) (val_ptr st)
                     (set_pc b (Return [(0, temp)]) st) (ReturnTrue b 0 temp :: trace st)
        else mkState (device_mem st) (device_count st) (val_ptr st)
                     (set_pc b (Publish temp) st) (trace st)
    | Some (Publish temp) =>
        mkState (<[b := temp]> (device_mem st)) (device_count st) (val_ptr st)
                (set_pc b Count st) (WriteScratch b temp :: trace st)
    | Some Count =>
        let '(old_count, new_count) := atomicInc (device_count st) (wrap_around vals) in
        let lastBlock := old_count =? wrap_around vals in
        mkState (device_mem st) new_count (val_ptr st)
                (set_pc b (if lastBlock then Gather else Done) st)
                (IncCount b old_count :: trace st)
    | Some Gather =>
        let temp := gather WARP_SIZE MAX_WARPS undef sd_init vals numThreads
                      (device_mem st) in
        mkState (device_mem st) (device_count st) (val_ptr st)
                (set_pc b (Return [(0, temp)]) st)
                (ReturnTrue b 0 temp :: ReadScratch b :: trace st)
    | Some (Return pending) =>
        match pending with
        | [] => mkState (device_mem st) (device_count st) (val_ptr st)
                        (set_pc b Done st) (trace st)
        | (_, val) :: pending' =>
            mkState (device_mem st) (device_count st) (Some val)
                    (set_pc b (stores_left pending') st)
                    (WritePinned b val :: trace st)
        end
    | Some Done => st
    end.
Proof.
  intros Hb. unfold step.
  destruct (pcs st !! b) as [[|temp| | |pending|]|]; try reflexivity.
  - cbv zeta. destruct (nb =? 1); [|reflexivity]. now apply leave_last.
  - unfold atomicInc. cbv zeta. rewrite broadcast_thread0 by exact Hb.
    destruct (device_count st =? wrap_around vals); [reflexivity|].
    apply leave_not_last.
  - cbv zeta. now apply leave_last.
Qed.

Definition published (p : pc T) : bool :=
  match p with Count | Gather | Return _ | Done => true | _ => false end.

Definition collecting (p : pc T) : bool :=
  match p with Start | Publish _ | Count | Done => true | _ => false end.

Definition others_done (st : state T) (b : nat) : Prop :=
  forall b' p, b' <> b -> pcs st !! b' = Some p -> p = Done.

(** What holds of the blocks one by one. *)
Record common (st : state T) : Prop := mkCommon {
  c_pcs : length (pcs st) = nb;
  c_mem : length (device_mem st) = nb;
  c_publish : forall b t, pcs st !! b = Some (Publish t) -> t = aggregate b;
  c_published : 1 < nb -> forall b p, pcs st !! b = Some p -> published p = true ->
                device_mem st !! b = Some (aggregate b)
}.

(** Where the grid stands: blocks are still arriving at the counter; the
    last one gathers; it holds the result; all is done. *)
Inductive phase (st : state T) : Prop :=
  | Collecting :
      (forall b p, pcs st !! b = Some p -> collecting p = true) ->
      (nb = 1 -> forall b p, pcs st !! b = Some p -> p = Start) ->
      device_count st = count_done (pcs st) ->
      count_done (pcs st) < nb ->
      wrapped_blocks vals st = [] -> returned_true st = [] -> pinned_writes st = [] ->
      device_accesses st = [] \/ 1 < nb ->
      phase st
  | Gathering (b : nat) :
      1 < nb -> pcs st !! b = Some Gather -> others_done st b ->
      device_count st = 0 ->
      wrapped_blocks vals st = [b] -> returned_true st = [] -> pinned_writes st = [] ->
      phase st
  | Returning (b : nat) :
      pcs st !! b = Some (Return [(0, total)]) -> others_done st b ->
      device_count st = 0 ->
      wrapped_blocks vals st = (if nb =? 1 then [] else [b]) ->
      returned_true st = [(b, 0)] -> pinned_writes st = [] ->
      device_accesses st = [] \/ 1 < nb ->
      phase st
  | Finished (b : nat) :
      b < nb -> (forall b' p, pcs st !! b' = Some p -> p = Done) ->
      device_count st = 0 ->
      wrapped_blocks vals st = (if nb =? 1 then [] else [b]) ->
      returned_true st = [(b, 0)] -> pinned_writes st = [(b, total)] ->
      val_ptr st = Some total ->
      device_accesses st = [] \/ 1 < nb ->
      phase st.

Lemma init_common (mem_init : list T) :
  length mem_init = nb -> common (init vals mem_init).
Proof.
  intros Hlen. split; cbn [init pcs device_mem].
  - apply length_replicate.
  - exact Hlen.
  - intros b t Hb. apply lookup_replicate in Hb. destruct Hb; discriminate.
  - intros _ b p Hb Hp. apply lookup_replicate in Hb. destruct Hb; subst. discriminate.
Qed.

Lemma count_done_replicate_start (n : nat) : count_done (replicate n (@Start T)) = 0.
Proof. now apply count_if_replicate_false. Qed.

Lemma init_phase (mem_init : list T) :
  0 < nb -> phase (init vals mem_init).
Proof.
  intros Hnb. apply Collecting; cbn [init pcs device_count trace]; try reflexivity.
  - intros b p Hb. apply lookup_replicate in Hb. destruct Hb; subst. reflexivity.
  - intros _ b p Hb. apply lookup_replicate in Hb. now destruct Hb.
  - now rewrite count_done_replicate_start.
  - now rewrite count_done_replicate_start.
  - now left.
Qed.


Ltac common_fields :=
  split; unfold set_pc; cbn [pcs device_mem]; rewrite ?length_insert;
    [assumption | assumption | intros ?b' ?t Hb' | intros Hnb ?b' ?p Hb' Hp].

Lemma step_common (st : state T) (b : nat) :
  common st -> common (step_ st b).
Proof.
  intros [Hpcs Hmem Hpub Hdone].
  destruct (pcs st !! b) as [p|] eqn:Hpc;
    [|unfold step; rewrite Hpc; now split].
  assert (Hb : b < nb) by (apply lookup_lt_Some in Hpc; lia).
  rewrite (step_block st b Hb), Hpc.
  destruct p as [|temp| | |pending|].
  - (* Start *)
    cbv zeta. destruct (Nat.eqb_spec nb 1) as [Hone|Hmany]; common_fields.
    + set_cases Hb'; eauto.
    + lia.
    + set_cases Hb'; [|eauto]. now apply block_aggregate_block.
    + set_cases Hb'; eauto.
  - (* Publish *)
    common_fields.
    + set_cases Hb'; eauto.
    + set_cases Hb'.
      * rewrite list_lookup_insert_eq by lia. f_equal. eauto.
      * rewrite list_lookup_insert_ne by congruence. eauto.
  - (* Count *)
    unfold atomicInc. common_fields.
    + set_cases Hb'; [destruct (_ =? _); discriminate | eauto].
    + set_cases Hb'; eauto.
  - (* Gather *)
    common_fields.
    + set_cases Hb'; eauto.
    + set_cases Hb'; eauto.
  - (* Return *)
    destruct pending as [|[t v] [|r pending]]; common_fields.
    all: set_cases Hb'; eauto.
  - (* Done *)
    now split.
Qed.


Lemma total_single (b : nat) : nb = 1 -> b < nb -> aggregate b = total.
Proof.
  unfold aggregate, total, numBlocks. intros Hone Hb.
  destruct vals as [|blk [|? ?]]; try discriminate.
  assert (b = 0) as -> by (simpl in Hb; lia).
  simpl. now rewrite app_nil_r.
Qed.

Ltac observe :=
  unfold set_pc, others_done;
  unfold wrapped_blocks, returned_true, pinned_writes, device_accesses in *;
  cbn [pcs device_count val_ptr trace] in *;
  rewrite ?omap_cons_eq; cbn [List.filter]; cbv beta iota.

Lemma step_phase (st : state T) (b : nat) :
  common st -> phase st -> phase (step_ st b).
Proof.
  intros Hcommon Hphase.
  pose proof Hcommon as [Hpcs Hmem Hpub Hdone].
  destruct (pcs st !! b) as [p|] eqn:Hpc;
    [|unfold step; rewrite Hpc; exact Hphase].
  assert (Hb : b < nb) by (apply lookup_lt_Some in Hpc; lia).
  rewrite (step_block st b Hb), Hpc.
  destruct Hphase as [Hcol Hone Hcnt Hlt Hw Hl Hp Hacc
                     |b0 Hnb Hb0 Hothers Hcnt Hw Hl Hp
                     |b0 Hb0 Hothers Hcnt Hw Hl Hp Hacc
                     |b0 Hb0 Hall Hcnt Hw Hl Hp Hval Hacc].
  - (* blocks are still arriving *)
    destruct p as [|temp| | |pending|]; try (specialize (Hcol _ _ Hpc); discriminate).
    + (* Start *)
      cbv zeta. rewrite block_aggregate_block by exact Hb.
      destruct (Nat.eqb_spec nb 1) as [Hsingle|Hmany].
      * apply (Returning _ b); observe.
        -- rewrite list_lookup_insert_eq by lia. now rewrite total_single.
        -- intros b' p Hne Hb'. apply lookup_lt_Some in Hb'.
           rewrite length_insert in Hb'. lia.
        -- rewrite Hcnt. lia.
        -- rewrite Hsingle. exact Hw.
        -- now rewrite Hl.
        -- exact Hp.
        -- left. destruct Hacc as [Hacc|Hacc]; [exact Hacc | lia].
      * pose proof (count_done_insert (pcs st) b Start (Publish (aggregate b)) Hpc) as Hc.
        cbn [is_done] in Hc.
        apply Collecting; observe.
        -- intros b' p Hb'. set_cases Hb'; eauto.
        -- intros Hsingle. contradiction.
        -- lia.
        -- lia.
        -- exact Hw.
        -- exact Hl.
        -- exact Hp.
        -- right. lia.
    + (* Publish *)
      assert (Hmany : 1 < nb).
      { destruct (decide (nb = 1)) as [Hsingle|]; [|lia].
        specialize (Hone Hsingle _ _ Hpc). discriminate. }
      pose proof (count_done_insert (pcs st) b (Publish temp) Count Hpc) as Hc.
      cbn [is_done] in Hc.
      apply Collecting; observe.
      * intros b' p Hb'. set_cases Hb'; eauto.
      * intros Hsingle. lia.
      * lia.
      * lia.
      * exact Hw.
      * exact Hl.
      * exact Hp.
      * right. lia.
    + (* Count *)
      assert (Hmany : 1 < nb).
      { destruct (decide (nb = 1)) as [Hsingle|]; [|lia].
        specialize (Hone Hsingle _ _ Hpc). discriminate. }
      rewrite Hcnt. unfold atomicInc, wrap_around.
      destruct (Nat.eqb_spec (count_done (pcs st)) (nb - 1)) as [Hlast|Hmore].
      * apply (Gathering _ b); observe.
        -- exact Hmany.
        -- rewrite list_lookup_insert_eq by lia. reflexivity.
        -- intros b' p Hne Hb'. rewrite list_lookup_insert_ne in Hb' by congruence.
           apply (count_done_others (pcs st) b b' Count p); auto. lia.
        -- destruct (Nat.leb_spec (nb - 1) (count_done (pcs st))); [reflexivity | lia].
        -- unfold wrap_around in *.
           destruct (Nat.eqb_spec (count_done (pcs st)) (nb - 1)); [|contradiction].
           now rewrite Hw.
        -- exact Hl.
        -- exact Hp.
      * pose proof (count_done_insert (pcs st) b Count Done Hpc) as Hc.
        cbn [is_done] in Hc.
        apply Collecting; observe.
        -- intros b' p Hb'. set_cases Hb'; eauto.
        -- intros Hsingle. lia.
        -- destruct (Nat.leb_spec (nb - 1) (count_done (pcs st))); lia.
        -- lia.
        -- unfold wrap_around in *.
           destruct (Nat.eqb_spec (count_done (pcs st)) (nb - 1)); [contradiction|].
           exact Hw.
        -- exact Hl.
        -- exact Hp.
        -- right. lia.
    + (* Done *)
      now apply Collecting.
  - (* the last block gathers *)
    destruct (decide (b = b0)) as [->|Hne].
    + rewrite Hb0 in Hpc. injection Hpc as <-.
      cbv zeta. rewrite gather_total; [| exact Hmem |].
      * apply (Returning _ b0); observe.
        -- rewrite list_lookup_insert_eq by lia. reflexivity.
        -- intros b' p Hne Hb'. rewrite list_lookup_insert_ne in Hb' by congruence. eauto.
        -- exact Hcnt.
        -- destruct (Nat.eqb_spec nb 1); [lia | exact Hw].
        -- now rewrite Hl.
        -- exact Hp.
        -- right. exact Hnb.
      * intros b' Hb'. destruct (lookup_lt_is_Some_2 (pcs st) b') as [p Hp']; [lia|].
        apply (Hdone Hnb b' p Hp').
        destruct (decide (b' = b0)) as [->|Hne];
          [rewrite Hb0 in Hp'; now injection Hp' as <- |].
        now rewrite (Hothers b' p Hne Hp').
    + rewrite (Hothers b p Hne Hpc). now apply (Gathering _ b0).
  - (* the last block holds the result *)
    destruct (decide (b = b0)) as [->|Hne].
    + rewrite Hb0 in Hpc. injection Hpc as <-.
      cbn [stores_left].
      apply (Finished _ b0); observe.
      * exact Hb.
      * intros b' p Hb'. set_cases Hb'; eauto.
      * exact Hcnt.
      * exact Hw.
      * exact Hl.
      * now rewrite Hp.
      * reflexivity.
      * exact Hacc.
    + rewrite (Hothers b p Hne Hpc). now apply (Returning _ b0).
  - rewrite (Hall b p Hpc). now apply (Finished _ b0).
Qed.


Lemma run_snoc (sched : list nat) (b : nat) (st : state T) :
  run_ (sched ++ [b]) st = step_ (run_ sched st) b.
Proof. unfold run. now rewrite foldl_app. Qed.

Lemma run_invariant (mem_init : list T) (sched : list nat) :
  length mem_init = nb -> 0 < nb ->
  common (run_ sched (init vals mem_init)) /\ phase (run_ sched (init vals mem_init)).
Proof.
  intros Hlen Hnb. induction sched as [|b sched [IHc IHp]] using rev_ind.
  - split; [now apply init_common | now apply init_phase].
  - rewrite run_snoc. split; [now apply step_common | now apply step_phase].
Qed.

(** *** Every increment of the counter follows the store of the aggregate *)

Fixpoint writes_precede (tr : list (event T)) : Prop :=
  match tr with
  | [] => True
  | e :: older =>
      match e with
      | IncCount b _ => In (WriteScratch b (aggregate b)) older
      | _ => True
      end /\ writes_precede older
  end.

Definition ordered (st : state T) : Prop :=
  writes_precede (trace st) /\
  forall b, pcs st !! b = Some Count -> In (WriteScratch b (aggregate b)) (trace st).

Lemma step_ordered (st : state T) (b : nat) :
  common st -> ordered st -> ordered (step_ st b).
Proof.
  intros [Hpcs Hmem Hpub Hdone] [Hprec Hcount].
  destruct (pcs st !! b) as [p|] eqn:Hpc;
    [|unfold step; rewrite Hpc; now split].
  assert (Hb : b < nb) by (apply lookup_lt_Some in Hpc; lia).
  rewrite (step_block st b Hb), Hpc.
  destruct p as [|temp| | |pending|].
  - cbv zeta.
    destruct (nb =? 1); (split; unfold set_pc; cbn [pcs trace writes_precede];
      [auto | intros b' Hb'; set_cases Hb'; cbn [In]; auto]).
  - rewrite (Hpub b temp Hpc).
    split; unfold set_pc; cbn [pcs trace writes_precede]; [auto|].
    intros b' Hb'. set_cases Hb'; cbn [In]; auto.
  - unfold atomicInc. split; unfold set_pc; cbn [pcs trace writes_precede]; [auto|].
    intros b' Hb'. set_cases Hb'; [destruct (_ =? _); discriminate | cbn [In]; auto].
  - cbv zeta. split; unfold set_pc; cbn [pcs trace writes_precede]; [auto|].
    intros b' Hb'. set_cases Hb'; cbn [In]; auto.
  - destruct pending as [|[t v] [|r pending]];
      (split; unfold set_pc; cbn [pcs trace writes_precede stores_left]; [auto|]);
      intros b' Hb'; set_cases Hb'; cbn [In]; auto.
  - now split.
Qed.

Lemma run_ordered (mem_init : list T) (sched : list nat) :
  length mem_init = nb -> 0 < nb ->
  ordered (run_ sched (init vals mem_init)).
Proof.
  intros Hlen Hnb. induction sched as [|b sched IH] using rev_ind.
  - split; [exact I|]. cbn [init pcs]. intros b Hb.
    apply lookup_replicate in Hb. destruct Hb; discriminate.
  - rewrite run_snoc. apply step_ordered; [|exact IH].
    now apply run_invariant.
Qed.

(** *** Every block gets through *)

Definition rank (p : pc T) : nat :=
  match p with
  | Start => 5 | Publish _ => 4 | Count => 3 | Gather => 2
  | Return pending => Nat.max 1 (length pending) | Done => 0
  end.

Lemma stores_left_returning (lastBlock : bool) (val : list T) :
  rank (stores_left (returning lastBlock val)) <= 1.
Proof.
  destruct (stores_left_rank lastBlock val) as [->|[v ->]]; cbn [rank length]; lia.
Qed.

Lemma stores_left_length (pending : list (nat * T)) :
  rank (stores_left pending) <= length pending.
Proof. destruct pending as [|r pending]; cbn [stores_left rank length]; lia. Qed.

Lemma step_rank (st : state T) (b b' : nat) (p : pc T) :
  pcs st !! b' = Some p ->
  exists p', pcs (step_ st b) !! b' = Some p' /\
             rank p' + (if decide (b = b') then 1 else 0) <= Nat.max 1 (rank p) /\
             rank p' <= rank p.
Proof.
  intros Hb'. unfold step.
  destruct (decide (b = b')) as [->|Hne].
  - rewrite Hb'. assert (Hlt : b' < length (pcs st)) by (now apply lookup_lt_Some in Hb').
    destruct p as [|temp| | |[|[t v] pending]|]; unfold atomicInc, leave, set_pc;
      cbv zeta;
      try destruct (nb =? 1); try destruct (broadcast vals b' _);
      cbn [pcs]; rewrite ?list_lookup_insert_eq by exact Hlt;
      eexists; (split; [first [reflexivity | eassumption] |]);
      try (pose proof (stores_left_returning true
                         (store_val (Block.block_aggregate WARP_SIZE MAX_WARPS undef sd_init
                                       (default [] (vals !! b')))
                                    (default [] (vals !! b')))));
      try (pose proof (stores_left_returning true
                         (store_val (gather WARP_SIZE MAX_WARPS undef sd_init vals numThreads
                                       (device_mem st))
                                    (default [] (vals !! b')))));
      try (pose proof (stores_left_returning false (default [] (vals !! b'))));
      try (pose proof (stores_left_length pending));
      cbn [rank length] in *; lia.
  - exists p. split; [|lia].
    destruct (pcs st !! b) as [q|] eqn:Hq; [|exact Hb'].
    destruct q as [|temp| | |[|[t v] pending]|]; unfold atomicInc, leave, set_pc;
      cbv zeta;
      try destruct (nb =? 1); try destruct (broadcast vals b _);
      cbn [pcs]; rewrite ?list_lookup_insert_ne by exact Hne; exact Hb'.
Qed.

Lemma run_rank (sched : list nat) (st : state T) (b : nat) (p : pc T) :
  pcs st !! b = Some p ->
  exists p', pcs (run_ sched st) !! b = Some p' /\
             rank p' <= rank p - count_occ Nat.eq_dec sched b.
Proof.
  revert st p. induction sched as [|b' sched IH]; intros st p Hb.
  - exists p. split; [exact Hb | simpl; lia].
  - destruct (step_rank st b' b p Hb) as (p1 & Hp1 & Hdec & Hle).
    destruct (IH (step_ st b') p1 Hp1) as (p2 & Hp2 & Hr).
    exists p2. split; [exact Hp2|]. cbn [count_occ].
    destruct (Nat.eq_dec b' b) as [->|Hne].
    + rewrite decide_True in Hdec by reflexivity. lia.
    + lia.
Qed.

(** A schedule is fair when every block steps often enough to get through
    its five steps. *)
Definition fair (sched : list nat) : Prop :=
  forall b, b < nb -> 5 <= count_occ Nat.eq_dec sched b.

Lemma fair_finished (mem_init : list T) (sched : list nat) :
  fair sched -> finished (run_ sched (init vals mem_init)) = true.
Proof.
  intros Hfair. unfold finished. apply forallb_forall. intros p Hp.
  apply list_elem_of_In, list_elem_of_lookup in Hp. destruct Hp as [b Hb].
  assert (Hlt : b < nb).
  { destruct (Nat.lt_ge_cases b nb) as [Hlt|Hge]; [exact Hlt|].
    assert (Hnone : pcs (init vals mem_init) !! b = None)
      by (cbn [init pcs]; apply lookup_replicate_None; exact Hge).
    exfalso. clear Hfair. revert Hb. generalize (init vals mem_init) as st, Hnone.
    induction sched as [|b' sched IH]; intros st Hst Hb; [simpl in Hb; congruence|].
    apply (IH (step_ st b')); [|exact Hb].
    unfold step. destruct (pcs st !! b') as [q|] eqn:Hq; [|exact Hst].
    assert (Hne : b' <> b) by congruence.
    destruct q as [|temp| | |[|[t v] pending]|]; unfold atomicInc, leave, set_pc;
      cbv zeta;
      try destruct (nb =? 1); try destruct (broadcast vals b' _);
      cbn [pcs]; rewrite ?list_lookup_insert_ne by exact Hne; exact Hst. }
  assert (Hstart : pcs (init vals mem_init) !! b = Some Start)
    by (cbn [init pcs]; now apply lookup_replicate_2).
  destruct (run_rank sched _ b Start Hstart) as (p' & Hp' & Hr).
  specialize (Hfair b Hlt). cbn [rank] in Hr.
  assert (p' = p) by congruence. subst p'.
  destruct p; cbn [rank] in Hr; first [reflexivity | lia].
Qed.


Lemma finished_all_done (st : state T) (b : nat) (p : pc T) :
  finished st = true -> pcs st !! b = Some p -> p = Done.
Proof.
  unfold finished. intros Hall Hb. rewrite forallb_forall in Hall.
  specialize (Hall p). destruct p; try reflexivity;
    (exfalso; assert (Hf : false = true); [apply Hall|discriminate Hf]);
    apply list_elem_of_In, list_elem_of_lookup; eauto.
Qed.

Lemma finished_count (st : state T) :
  finished st = true -> count_done (pcs st) = length (pcs st).
Proof.
  unfold finished, count_done, count_if. induction (pcs st) as [|p l IH]; [reflexivity|].
  cbn [forallb List.filter]. intros Hall. apply andb_prop in Hall as [Hp Hl].
  destruct p; try discriminate. cbn [is_done length]. now rewrite IH.
Qed.

(** Once all blocks are through, one of them has stored the combine of all
    values to the tally slot, and nothing else was stored there. *)
Lemma finished_delivers (mem_init : list T) (sched : list nat) :
  length mem_init = nb -> 0 < nb ->
  finished (run_ sched (init vals mem_init)) = true ->
  exists b, b < nb /\
    returned_true (run_ sched (init vals mem_init)) = [(b, 0)] /\
    pinned_writes (run_ sched (init vals mem_init)) = [(b, total)] /\
    val_ptr (run_ sched (init vals mem_init)) = Some total.
Proof.
  intros Hlen Hnb Hfin.
  destruct (run_invariant mem_init sched Hlen Hnb) as [Hcommon Hphase].
  destruct Hphase as [Hcol Hone Hcnt Hlt Hw Hl Hp Hacc
                     |b0 Hmany Hb0 Hothers Hcnt Hw Hl Hp
                     |b0 Hb0 Hothers Hcnt Hw Hl Hp Hacc
                     |b0 Hb0 Hall Hcnt Hw Hl Hp Hval Hacc].
  - apply finished_count in Hfin. destruct Hcommon as [Hpcs _ _ _]. lia.
  - pose proof (finished_all_done _ b0 _ Hfin Hb0). discriminate.
  - pose proof (finished_all_done _ b0 _ Hfin Hb0). discriminate.
  - exists b0. auto.
Qed.

(** C4: in the tree variant with more than one block, thread 0 of a block
    has stored the aggregate of the block to [device_mem[blockId]] before
    it increments [device_count] (with wrap value [numBlocks - 1]); at most
    one block sees the wrap-around value. Of all threads of all blocks,
    [grid_reduce] returns [true] to thread 0 of that block only: the
    barrier gives [lastBlock] to every thread of the block, and
    [return lastBlock && threadId == 0] keeps the others from returning
    [true]. Only that thread stores to the tally slot, and once all blocks
    are through it has done so once, with the combine of all values. In a
    grid of one block [device_mem] and [device_count] are never accessed,
    and thread 0, alone of the threads of the block, returns [true] with
    the block aggregate. A schedule in which every block takes its five
    steps ends with all blocks through. *)
Theorem grid_reduce_last_block (mem_init : list T) (sched : list nat) :
  length mem_init = nb -> 0 < nb ->
  let st := run_ sched (init vals mem_init) in
  (1 < nb ->
     writes_precede (trace st) /\
     length (wrapped_blocks vals st) <= 1 /\
     (forall b t, In (b, t) (returned_true st) ->
        t = 0 /\ wrapped_blocks vals st = [b] /\ returned_true st = [(b, 0)]) /\
     (forall b v, In (b, v) (pinned_writes st) ->
        returned_true st = [(b, 0)] /\ pinned_writes st = [(b, v)]) /\
     (finished st = true ->
        exists b, b < nb /\ wrapped_blocks vals st = [b] /\
                  returned_true st = [(b, 0)] /\
                  pinned_writes st = [(b, total)] /\ val_ptr st = Some total)) /\
  (nb = 1 ->
     device_accesses st = [] /\
     (finished st = true ->
        returned_true st = [(0, 0)] /\ pinned_writes st = [(0, aggregate 0)] /\
        val_ptr st = Some (aggregate 0))) /\
  (forall b lastBlock0, b < nb ->
     broadcast vals b lastBlock0 = lastBlock0 /\
     forall temp,
       returning (broadcast vals b lastBlock0)
                 (store_val temp (default [] (vals !! b)))
       = if lastBlock0 then [(0, temp)] else []) /\
  (fair sched -> finished st = true).
Proof.
  intros Hlen Hnb st.
  destruct (run_invariant mem_init sched Hlen Hnb) as [Hcommon Hphase].
  destruct (run_ordered mem_init sched Hlen Hnb) as [Hprec _].
  fold st in Hcommon, Hphase, Hprec.
  split; [|split; [|split]].
  - intros Hmany. split; [exact Hprec|].
    assert (Hne : (nb =? 1) = false) by (apply Nat.eqb_neq; lia).
    destruct Hphase as [Hcol Hone Hcnt Hlt Hw Hl Hp Hacc
                       |b0 _ Hb0 Hothers Hcnt Hw Hl Hp
                       |b0 Hb0 Hothers Hcnt Hw Hl Hp Hacc
                       |b0 Hb0 Hall Hcnt Hw Hl Hp Hval Hacc];
      rewrite ?Hne in Hw; rewrite Hw, Hl, Hp; cbn [length].
    + split; [lia|]. split; [intros b t []|]. split; [intros b v []|].
      intros Hfin. apply finished_count in Hfin.
      destruct Hcommon as [Hpcs _ _ _]. lia.
    + split; [lia|]. split; [intros b t []|]. split; [intros b v []|].
      intros Hfin. pose proof (finished_all_done st b0 _ Hfin Hb0). discriminate.
    + split; [lia|].
      split; [intros b t [E|[]]; injection E as <- <-; now repeat split|].
      split; [intros b v []|].
      intros Hfin. pose proof (finished_all_done st b0 _ Hfin Hb0). discriminate.
    + split; [lia|].
      split; [intros b t [E|[]]; injection E as <- <-; now repeat split|].
      split; [intros b v [E|[]]; injection E as <- <-; now split|].
      intros _. exists b0. repeat split; auto.
  - intros Hsingle. 
    assert (Heq : (nb =? 1) = true) by (now apply Nat.eqb_eq).
    destruct Hphase as [Hcol Hone Hcnt Hlt Hw Hl Hp Hacc
                       |b0 Hmany Hb0 Hothers Hcnt Hw Hl Hp
                       |b0 Hb0 Hothers Hcnt Hw Hl Hp Hacc
                       |b0 Hb0 Hall Hcnt Hw Hl Hp Hval Hacc]; try lia.
    + split; [destruct Hacc; [assumption | lia]|].
      intros Hfin. apply finished_count in Hfin.
      destruct Hcommon as [Hpcs _ _ _]. lia.
    + split; [destruct Hacc; [assumption | lia]|].
      intros Hfin. pose proof (finished_all_done st b0 _ Hfin Hb0). discriminate.
    + split; [destruct Hacc; [assumption | lia]|].
      intros _. assert (b0 = 0) as -> by lia.
      rewrite Hl, Hp, Hval, (total_single 0 Hsingle) by lia. auto.
  - intros b lastBlock0 Hb. rewrite broadcast_thread0 by exact Hb.
    split; [reflexivity|]. intros temp.
    destruct (block_threads b Hb) as (v & val & ->).
    rewrite returning_cases. reflexivity.
  - apply fair_finished.
Qed.

(** In a grid of one block the scratch memory is never stored to. *)
Lemma single_block_scratch (mem_init : list T) (sched : list nat) :
  length mem_init = nb -> nb = 1 ->
  device_mem (run_ sched (init vals mem_init)) = mem_init.
Proof.
  intros Hlen Hsingle. induction sched as [|b sched IH] using rev_ind; [reflexivity|].
  rewrite run_snoc.
  destruct (run_invariant mem_init sched Hlen ltac:(lia)) as [_ Hphase].
  revert Hphase IH. generalize (run_ sched (init vals mem_init)). intros st Hphase IH.
  unfold step. destruct (pcs st !! b) as [p|] eqn:Hpc; [|exact IH].
  destruct p as [|temp| | |[|[t v] pending]|]; unfold atomicInc, leave; cbv zeta;
    try exact IH; try (destruct (broadcast vals b _); exact IH).
  - now destruct (nb =? 1).
  - exfalso.
    destruct Hphase as [Hcol Hone Hcnt Hlt Hw Hl Hp Hacc
                       |b0 Hmany Hb0 Hothers Hcnt Hw Hl Hp
                       |b0 Hb0 Hothers Hcnt Hw Hl Hp Hacc
                       |b0 Hb0 Hall Hcnt Hw Hl Hp Hval Hacc].
    + specialize (Hone Hsingle _ _ Hpc). discriminate.
    + lia.
    + destruct (decide (b = b0)) as [->|Hne]; [congruence|].
      specialize (Hothers _ _ Hne Hpc). discriminate.
    + specialize (Hall _ _ Hpc). discriminate.
Qed.

(** X8. The counter and the scratch memory of the tree variant, under any
    schedule: [device_count] stays below [numBlocks], and it is 0 again
    once all blocks are through (the last [atomicInc] wraps), as the zeroed
    pool it goes back to expects. With more than one block every cell of
    [device_mem] then holds the combine of the values of its own block; in
    a grid of one block [device_mem] is never stored to. *)
Theorem grid_reduce_counter_wraps (mem_init : list T) (sched : list nat) :
  length mem_init = nb -> 0 < nb ->
  let st := run_ sched (init vals mem_init) in
  device_count st < nb /\
  (finished st = true -> device_count st = 0) /\
  (1 < nb -> finished st = true -> device_mem st = map aggregate (seq 0 nb)) /\
  (nb = 1 -> device_mem st = mem_init).
Proof.
  intros Hlen Hnb st.
  destruct (run_invariant mem_init sched Hlen Hnb) as [Hcommon Hphase].
  fold st in Hcommon, Hphase.
  split; [|split; [|split]].
  - destruct Hphase as [Hcol Hone Hcnt Hlt Hw Hl Hp Hacc
                       |b0 Hmany Hb0 Hothers Hcnt Hw Hl Hp
                       |b0 Hb0 Hothers Hcnt Hw Hl Hp Hacc
                       |b0 Hb0 Hall Hcnt Hw Hl Hp Hval Hacc]; lia.
  - intros Hfin.
    destruct Hphase as [Hcol Hone Hcnt Hlt Hw Hl Hp Hacc
                       |b0 Hmany Hb0 Hothers Hcnt Hw Hl Hp
                       |b0 Hb0 Hothers Hcnt Hw Hl Hp Hacc
                       |b0 Hb0 Hall Hcnt Hw Hl Hp Hval Hacc]; try assumption.
    apply finished_count in Hfin. destruct Hcommon as [Hpcs _ _ _]. lia.
  - intros Hmany Hfin. destruct Hcommon as [Hpcs Hmem _ Hpub].
    apply list_eq. intros b. change map with (@fmap list _).
    rewrite list_lookup_fmap.
    destruct (Nat.lt_ge_cases b nb) as [Hb|Hb].
    + rewrite lookup_seq_lt by exact Hb.
      destruct (lookup_lt_is_Some_2 (pcs st) b) as [p Hp']; [lia|].
      rewrite (Hpub Hmany b p Hp'); [reflexivity|].
      now rewrite (finished_all_done st b p Hfin Hp').
    + rewrite lookup_seq_ge by exact Hb. apply lookup_ge_None_2. lia.
  - intros Hsingle. now apply single_block_scratch.
Qed.

End Protocol.

Lemma grid_reduce_last_block_witness :
  let vals := [[1; 2; 3]; [4; 5; 6]; [7; 8; 9]]%Z in
  let sched := concat (replicate 5 [0; 1; 2]) in
  let st := @run Z sum_Z 32 32 (fun _ => 99%Z) (fun _ => 77%Z) vals 3 sched
              (init vals [0; 0; 0]%Z) in
  finished st = true /\
  exists b, b < 3 /\ wrapped_blocks vals st = [b] /\ returned_true st = [(b, 0)] /\
            pinned_writes st = [(b, 45%Z)] /\ val_ptr st = Some 45%Z.
Proof.
  intros vals sched st.
  assert (Huniform : Forall (fun blk : list Z => length blk = 3) vals)
    by (repeat constructor).
  pose proof (@grid_reduce_last_block Z sum_Z sum_Z_laws 32 32 5
                (fun _ => 99%Z) (fun _ => 77%Z) eq_refl ltac:(lia)
                vals 3 ltac:(lia) ltac:(simpl; lia) Huniform
                [0; 0; 0]%Z sched eq_refl ltac:(unfold numBlocks; simpl; lia))
    as (Hmany & _ & _ & Hfair).
  assert (Hfin : finished st = true).
  { apply Hfair. intros b Hb. unfold numBlocks in Hb. simpl in Hb.
    destruct b as [|[|[|b]]]; simpl; lia. }
  split; [exact Hfin|].
  destruct (Hmany ltac:(unfold numBlocks; simpl; lia)) as (_ & _ & _ & _ & Hlast).
  exact (Hlast Hfin).
Defined.

Lemma grid_reduce_counter_wraps_witness :
  let vals := [[1; 2; 3]; [4; 5; 6]; [7; 8; 9]]%Z in
  let sched := concat (replicate 5 [0; 1; 2]) in
  let st := @run Z sum_Z 32 32 (fun _ => 99%Z) (fun _ => 77%Z) vals 3 sched
              (init vals [0; 0; 0]%Z) in
  finished st = true /\ device_count st = 0 /\ device_mem st = [6; 15; 24]%Z.
Proof.
  intros vals sched st.
  assert (Huniform : Forall (fun blk : list Z => length blk = 3) vals)
    by (repeat constructor).
  assert (Hfin : finished st = true) by (vm_compute; reflexivity).
  pose proof (@grid_reduce_counter_wraps Z sum_Z sum_Z_laws 32 32 5
                (fun _ => 99%Z) (fun _ => 77%Z) eq_refl ltac:(lia)
                vals 3 ltac:(lia) ltac:(simpl; lia) Huniform
                [0; 0; 0]%Z sched eq_refl ltac:(unfold numBlocks; simpl; lia))
    as (_ & Hzero & Hmem & _).
  split; [exact Hfin|]. split; [exact (Hzero Hfin)|].
  fold st in Hmem. rewrite (Hmem ltac:(unfold numBlocks; simpl; lia) Hfin).
  reflexivity.
Defined.

End TreeFacts.

(** ** [grid_reduce_atomic] *)

Module AtomicFacts.
Import Atomic.

Definition is_done {T : Type} (p : pc T) : bool :=
  match p with Done => true | _ => false end.

Definition count_done {T : Type} (l : list (pc T)) : nat := count_if is_done l.

Lemma atomic_is_done_Done {T : Type} (p : pc T) : is_done p = true -> p = Done.
Proof. destruct p; try discriminate. reflexivity. Qed.

Lemma all_done_count {T : Type} (l : list (pc T)) :
  (forall b p, l !! b = Some p -> p = Done) -> count_done l = length l.
Proof.
  unfold count_done, count_if. induction l as [|p l IH]; intros Hall; [reflexivity|].
  rewrite (Hall 0 p eq_refl). cbn [List.filter is_done length]. f_equal.
  apply IH. intros b q Hq. exact (Hall (S b) q Hq).
Qed.

(** *** A reducer whose identity is bitwise zero *)

Section ZeroIdentity.

Context {T : Type} `{Reducer T}.
Variables WARP_SIZE MAX_WARPS : nat.
Variables undef sd_init : nat -> T.
Variable vals : list (list T).
Variable zero : T.

Hypothesis zero_identity : identity_is_zero = true.
Hypothesis many_blocks : 1 < numBlocks vals.

Abbreviation nb := (numBlocks vals).
Abbreviation step_ := (step WARP_SIZE MAX_WARPS undef sd_init vals).
Abbreviation run_ := (run WARP_SIZE MAX_WARPS undef sd_init vals).

(** No block initializes, spins or is last; the counter counts the blocks
    that are through. *)
Definition arriving (p : pc T) : bool :=
  match p with
  | Setup | Reduce | Combine _ | Count | Done => true
  | _ => false
  end.

Record never_last (st : state T) : Prop := mkNeverLast {
  nl_pcs : length (pcs st) = nb;
  nl_arriving : forall b p, pcs st !! b = Some p -> arriving p = true;
  nl_count : device_count st = count_done (pcs st);
  nl_last : last_blocks st = [];
  nl_pinned : pinned_writes st = [];
  nl_val : val_ptr st = None
}.

Ltac observe :=
  unfold set_pc;
  unfold last_blocks, pinned_writes, cas_winners, initializers, combined_blocks in *;
  cbn [pcs device_count device_mem written val_ptr trace] in *;
  rewrite ?omap_cons_eq; cbv beta iota.

Lemma init_never_last : never_last (init vals zero).
Proof.
  split; cbn [init pcs device_count trace val_ptr]; try reflexivity.
  - apply length_replicate.
  - intros b p Hb. apply lookup_replicate in Hb. destruct Hb; subst. reflexivity.
  - unfold count_done. now rewrite count_if_replicate_false.
Qed.

Lemma step_never_last (st : state T) (b : nat) :
  never_last st -> never_last (step_ st b).
Proof.
  intros [Hpcs Harr Hcnt Hl Hp Hv]. unfold step.
  destruct (pcs st !! b) as [p|] eqn:Hpc; [|now split].
  assert (Hb : b < nb) by (apply lookup_lt_Some in Hpc; lia).
  assert (Hne : (nb =? 1) = false) by (apply Nat.eqb_neq; lia).
  pose proof (Harr _ _ Hpc) as Hp0.
  destruct p as [| | | |temp|temp| | |val|]; try discriminate Hp0;
    rewrite ?zero_identity, ?Hne; cbn [negb andb].
  - (* Setup *)
    pose proof (count_if_insert is_done (pcs st) b Setup Reduce Hpc) as Hc.
    split; observe; rewrite ?length_insert; auto.
    + intros b' p Hb'. set_cases Hb'; eauto.
    + unfold count_done in *. cbn [is_done] in Hc. lia.
  - (* Reduce *)
    pose proof (count_if_insert is_done (pcs st) b Reduce
                  (Combine (Block.block_aggregate WARP_SIZE MAX_WARPS undef sd_init
                              (default [] (vals !! b)))) Hpc) as Hc.
    split; observe; rewrite ?length_insert; auto.
    + intros b' p Hb'. set_cases Hb'; eauto.
    + unfold count_done in *. cbn [is_done] in Hc. lia.
  - (* Combine *)
    pose proof (count_if_insert is_done (pcs st) b (Combine temp) Count Hpc) as Hc.
    split; observe; rewrite ?length_insert; auto.
    + intros b' p Hb'. set_cases Hb'; eauto.
    + unfold count_done in *. cbn [is_done] in Hc. lia.
  - (* Count: the old count is below [numBlocks], never [numBlocks + 1] *)
    pose proof (count_if_insert is_done (pcs st) b Count Done Hpc) as Hc.
    pose proof (count_if_le is_done (pcs st)) as Hle.
    cbn [is_done] in Hc. unfold count_done in Hcnt.
    assert (Hlt : count_if is_done (pcs st) < nb).
    { destruct (decide (count_if is_done (pcs st) = length (pcs st))) as [Hall|]; [|lia].
      pose proof (count_if_all is_done (pcs st) b Count Hall Hpc). discriminate. }
    unfold atomicInc, wrap_around. rewrite Hcnt.
    destruct (Nat.eqb_spec (count_if is_done (pcs st)) (nb + 1)) as [|_]; [lia|].
    destruct (Nat.leb_spec (nb + 1) (count_if is_done (pcs st))) as [|_]; [lia|].
    split; observe; rewrite ?length_insert; auto.
    + intros b' p Hb'. set_cases Hb'; eauto.
    + unfold count_done. lia.
  - (* Done *)
    now split.
Qed.

Lemma atomic_run_snoc (sched : list nat) (b : nat) (st : state T) :
  run_ (sched ++ [b]) st = step_ (run_ sched st) b.
Proof. unfold run. now rewrite foldl_app. Qed.

Lemma run_never_last (sched : list nat) : never_last (run_ sched (init vals zero)).
Proof.
  induction sched as [|b sched IH] using rev_ind.
  - apply init_never_last.
  - rewrite atomic_run_snoc. now apply step_never_last.
Qed.


(** Without the spin, every block gets through in four steps. *)
Definition rank0 (p : pc T) : nat :=
  match p with
  | Setup => 4 | Reduce => 3 | Combine _ => 2 | Count => 1 | _ => 0
  end.

Lemma step_rank0 (st : state T) (b b' : nat) (p : pc T) :
  never_last st -> pcs st !! b' = Some p ->
  exists p', pcs (step_ st b) !! b' = Some p' /\
             rank0 p' + (if decide (b = b') then 1 else 0) <= Nat.max 1 (rank0 p) /\
             rank0 p' <= rank0 p.
Proof.
  intros Hnl Hb'. pose proof (step_never_last st b Hnl) as Hnl'.
  destruct Hnl as [Hpcs Harr Hcnt Hl Hp Hv]. revert Hnl'. unfold step.
  assert (Hne : (nb =? 1) = false) by (apply Nat.eqb_neq; lia).
  destruct (decide (b = b')) as [->|Hneq].
  - rewrite Hb'. assert (Hlt : b' < length (pcs st)) by (now apply lookup_lt_Some in Hb').
    pose proof (Harr _ _ Hb') as Hp0.
    destruct p as [| | | |temp|temp| | |val|]; try discriminate Hp0;
      rewrite ?zero_identity, ?Hne; cbn [negb andb]; intros Hnl'.
    + eexists. unfold set_pc. cbn [pcs]. rewrite list_lookup_insert_eq by exact Hlt.
      split; [reflexivity | cbn [rank0]; lia].
    + eexists. unfold set_pc. cbn [pcs]. rewrite list_lookup_insert_eq by exact Hlt.
      split; [reflexivity | cbn [rank0]; lia].
    + eexists. unfold set_pc. cbn [pcs]. rewrite list_lookup_insert_eq by exact Hlt.
      split; [reflexivity | cbn [rank0]; lia].
    + revert Hnl'. unfold atomicInc, set_pc.
      destruct (device_count st =? wrap_around vals); intros [_ Harr' _ _ _ _];
        cbn [pcs] in *.
      * specialize (Harr' b' ReadBack). rewrite list_lookup_insert_eq in Harr' by exact Hlt.
        specialize (Harr' eq_refl). discriminate.
      * eexists. rewrite list_lookup_insert_eq by exact Hlt.
        split; [reflexivity | cbn [rank0]; lia].
    + exists Done. split; [exact Hb' | cbn [rank0]; lia].
  - intros _. exists p. split; [|lia].
    destruct (pcs st !! b) as [q|] eqn:Hq; [|exact Hb'].
    destruct q as [| | | |temp|temp| | |val|]; unfold atomicCAS, atomicInc, set_pc;
      rewrite ?zero_identity, ?Hne; cbn [negb andb];
      try destruct (device_count st =? wrap_around vals);
      try destruct (device_count st <? 2);
      try destruct (device_count st =? 0);
      cbn [pcs]; rewrite ?list_lookup_insert_ne by exact Hneq; exact Hb'.
Qed.

Lemma run_rank0 (sched : list nat) (st : state T) (b : nat) (p : pc T) :
  never_last st -> pcs st !! b = Some p ->
  exists p', pcs (run_ sched st) !! b = Some p' /\
             rank0 p' <= rank0 p - count_occ Nat.eq_dec sched b.
Proof.
  revert st p. induction sched as [|b' sched IH]; intros st p Hnl Hb.
  - exists p. split; [exact Hb | simpl; lia].
  - destruct (step_rank0 st b' b p Hnl Hb) as (p1 & Hp1 & Hdec & Hle).
    destruct (IH (step_ st b') p1 (step_never_last st b' Hnl) Hp1) as (p2 & Hp2 & Hr).
    exists p2. split; [exact Hp2|]. cbn [count_occ].
    destruct (Nat.eq_dec b' b) as [->|Hne].
    + rewrite decide_True in Hdec by reflexivity. lia.
    + lia.
Qed.

(** Every block steps at least four times. *)
Definition fair0 (sched : list nat) : Prop :=
  forall b, b < nb -> 4 <= count_occ Nat.eq_dec sched b.

Lemma fair0_finished (sched : list nat) :
  fair0 sched -> finished (run_ sched (init vals zero)) = true.
Proof.
  intros Hfair. unfold finished. apply forallb_forall. intros p Hp.
  apply list_elem_of_In, list_elem_of_lookup in Hp. destruct Hp as [b Hb].
  pose proof (run_never_last sched) as Hnl.
  assert (Hlt : b < nb).
  { apply lookup_lt_Some in Hb. now rewrite (nl_pcs _ Hnl) in Hb. }
  assert (Hstart : pcs (init vals zero) !! b = Some Setup)
    by (cbn [init pcs]; now apply lookup_replicate_2).
  destruct (run_rank0 sched _ b Setup init_never_last Hstart) as (p' & Hp' & Hr).
  specialize (Hfair b Hlt). cbn [rank0] in Hr.
  assert (p' = p) by congruence. subst p'.
  pose proof (nl_arriving _ Hnl b p Hb) as Harr.
  destruct p; cbn [rank0] in Hr; first [reflexivity | discriminate Harr | lia].
Qed.

(** C2 (the case the code misses): with a reducer whose identity is
    bitwise zero (such as sum) and more than one block, the initializer is
    skipped, [device_count] starts at 0, and the increments return
    [0, ..., numBlocks - 1]: no block ever sees the wrap value
    [numBlocks + 1], [grid_reduce_atomic] returns [false] in every block
    and the tally slot is never written, also when all blocks are
    through. *)
Theorem atomic_zero_identity_no_last_block (sched : list nat) :
  let st := run_ sched (init vals zero) in
  last_blocks st = [] /\ pinned_writes st = [] /\ val_ptr st = None /\
  (fair0 sched -> finished st = true).
Proof.
  intros st. destruct (run_never_last sched) as [_ _ _ Hl Hp Hv].
  repeat split; try assumption. apply fair0_finished.
Qed.

End ZeroIdentity.

Lemma atomic_zero_identity_no_last_block_witness :
  let vals := [[Zmod.of_Z _ 1%Z; Zmod.of_Z _ 2%Z]; [Zmod.of_Z _ 3%Z; Zmod.of_Z _ 4%Z]] in
  let st := @run int32 sum_int32 32 32 (fun _ => Zmod.zero) (fun _ => Zmod.zero) vals
              [0; 0; 0; 0; 1; 1; 1; 1] (init vals Zmod.zero) in
  finished st = true /\ last_blocks st = [] /\ pinned_writes st = [] /\
  val_ptr st = None /\ device_count st = 2 /\ device_mem st = Zmod.of_Z _ 10%Z.
Proof.
  intros vals st.
  pose proof (@atomic_zero_identity_no_last_block int32 sum_int32 32 32
                (fun _ => Zmod.zero) (fun _ => Zmod.zero) vals Zmod.zero
                eq_refl ltac:(unfold numBlocks; simpl; lia) [0; 0; 0; 0; 1; 1; 1; 1])
    as (Hl & Hp & Hv & Hfair).
  split; [|repeat split; try assumption; reflexivity].
  apply Hfair. intros b Hb. unfold numBlocks in Hb. simpl in Hb.
  destruct b as [|[|b]]; simpl; lia.
Defined.


(** *** A reducer whose identity is not bitwise zero *)

Section NonzeroIdentity.

Context {T : Type} `{ReducerLaws T}.
Variables WARP_SIZE MAX_WARPS k : nat.
Variables undef sd_init : nat -> T.
Hypothesis warp_pow2 : WARP_SIZE = 2 ^ k.
Hypothesis warps_fit : MAX_WARPS <= WARP_SIZE.

Variable vals : list (list T).
Variable numThreads : nat.
Hypothesis threads_pos : 0 < numThreads.
Hypothesis threads_fit : numThreads <= WARP_SIZE * MAX_WARPS.
Hypothesis uniform : Forall (fun blk => length blk = numThreads) vals.
Variable zero : T.

Hypothesis nonzero_identity : identity_is_zero = false.
Hypothesis many_blocks : 1 < numBlocks vals.

Abbreviation nb := (numBlocks vals).
Abbreviation step_ := (step WARP_SIZE MAX_WARPS undef sd_init vals).
Abbreviation run_ := (run WARP_SIZE MAX_WARPS undef sd_init vals).

Definition aggregate (b : nat) : T := reduce_all (default [] (vals !! b)).
Definition total : T := reduce_all (concat vals).

Lemma atomic_block_aggregate_block (b : nat) :
  b < nb ->
  Block.block_aggregate WARP_SIZE MAX_WARPS undef sd_init (default [] (vals !! b))
  = aggregate b.
Proof.
  intros Hb. destruct (lookup_lt_is_Some_2 vals b Hb) as [blk Hblk].
  assert (Hlen : length blk = numThreads).
  { rewrite Forall_lookup in uniform. exact (uniform b blk Hblk). }
  unfold aggregate. rewrite Hblk. change (default [] (Some blk)) with blk.
  apply (BlockFacts.block_aggregate_spec WARP_SIZE MAX_WARPS undef sd_init k);
    rewrite ?Hlen; assumption.
Qed.

Lemma total_aggregates : reduce_all (map aggregate (seq 0 nb)) = total.
Proof.
  unfold total. rewrite reduce_all_concat. f_equal.
  apply list_eq. intros b. change map with (@fmap list _).
  rewrite !list_lookup_fmap. unfold aggregate.
  destruct (Nat.lt_ge_cases b nb) as [Hb|Hb].
  - rewrite lookup_seq_lt by exact Hb.
    destruct (lookup_lt_is_Some_2 vals b Hb) as [blk Hblk].
    rewrite Hblk. simpl. now rewrite Hblk.
  - rewrite lookup_seq_ge by exact Hb. now rewrite lookup_ge_None_2.
Qed.

(** When every block has combined once, the accumulator holds the total. *)
Lemma all_combined_total (l : list nat) :
  List.NoDup l -> (forall b, In b l <-> b < nb) ->
  reduce_all (map aggregate l) = total.
Proof.
  intros Hnd Hin. rewrite <- total_aggregates. apply reduce_all_perm.
  apply Permutation_map, Permutation.NoDup_Permutation.
  - exact Hnd.
  - apply seq_NoDup.
  - intros b. rewrite in_seq. rewrite Hin. lia.
Qed.

Definition waiting (p : pc T) : bool :=
  match p with Setup | Reduce | Spin _ => true | _ => false end.

Definition working (p : pc T) : bool :=
  match p with
  | Setup | Reduce | Spin _ | Combine _ | Count | Done => true
  | _ => false
  end.

Definition arrived (p : pc T) : bool :=
  match p with Count | Done => true | _ => false end.

Definition others_done (st : state T) (b : nat) : Prop :=
  forall b' p, b' <> b -> pcs st !! b' = Some p -> p = Done.

(** What holds of the blocks one by one. *)
Record basic (st : state T) : Prop := mkBasic {
  b_pcs : length (pcs st) = nb;
  b_spin : forall b t, pcs st !! b = Some (Spin t) -> t = aggregate b;
  b_combine : forall b t, pcs st !! b = Some (Combine t) ->
              t = aggregate b /\ exists count, 2 <= count /\ In (ReadCount b count) (trace st)
}.

(** Where the grid stands. [b0] wins the CAS and initializes; [b1] is last. *)
Inductive phase (st : state T) : Prop :=
  | Untouched :
      device_count st = 0 -> written st = false ->
      (forall b p, pcs st !! b = Some p -> p = Setup) ->
      cas_winners st = [] -> initializers st = [] -> combined_blocks st = [] ->
      last_blocks st = [] -> pinned_writes st = [] ->
      phase st
  | Initializing (b0 : nat) :
      device_count st = 1 ->
      (pcs st !! b0 = Some InitWrite /\ written st = false /\ initializers st = []) \/
      (pcs st !! b0 = Some InitBump /\ written st = true /\ initializers st = [b0] /\
       device_mem st = identity) ->
      (forall b p, b <> b0 -> pcs st !! b = Some p -> waiting p = true) ->
      cas_winners st = [b0] -> combined_blocks st = [] ->
      last_blocks st = [] -> pinned_writes st = [] ->
      phase st
  | Combining (b0 : nat) :
      device_count st = 2 + count_done (pcs st) -> count_done (pcs st) < nb ->
      written st = true ->
      (forall b p, pcs st !! b = Some p -> working p = true) ->
      device_mem st = reduce_all (map aggregate (combined_blocks st)) ->
      List.NoDup (combined_blocks st) ->
      (forall b, In b (combined_blocks st) <->
                 exists p, pcs st !! b = Some p /\ arrived p = true) ->
      cas_winners st = [b0] -> initializers st = [b0] ->
      last_blocks st = [] -> pinned_writes st = [] ->
      phase st
  | Reading (b0 b1 : nat) :
      device_count st = 0 -> written st = true ->
      pcs st !! b1 = Some ReadBack -> others_done st b1 ->
      device_mem st = total ->
      cas_winners st = [b0] -> initializers st = [b0] ->
      last_blocks st = [] -> pinned_writes st = [] ->
      phase st
  | Returning (b0 b1 : nat) :
      device_count st = 0 -> written st = true ->
      pcs st !! b1 = Some (Return total) -> others_done st b1 ->
      cas_winners st = [b0] -> initializers st = [b0] ->
      last_blocks st = [b1] -> pinned_writes st = [] ->
      phase st
  | Finished (b0 b1 : nat) :
      b1 < nb -> device_count st = 0 -> written st = true ->
      (forall b p, pcs st !! b = Some p -> p = Done) ->
      cas_winners st = [b0] -> initializers st = [b0] ->
      last_blocks st = [b1] -> pinned_writes st = [(b1, total)] ->
      val_ptr st = Some total ->
      phase st.

Ltac observe :=
  unfold set_pc, others_done;
  unfold last_blocks, pinned_writes, cas_winners, initializers, combined_blocks in *;
  cbn [pcs device_count device_mem written val_ptr trace] in *;
  rewrite ?omap_cons_eq; cbv beta iota.

Lemma init_basic : basic (init vals zero).
Proof.
  split; cbn [init pcs].
  - apply length_replicate.
  - intros b t Hb. apply lookup_replicate in Hb. destruct Hb; discriminate.
  - intros b t Hb. apply lookup_replicate in Hb. destruct Hb; discriminate.
Qed.

Lemma atomic_init_phase : phase (init vals zero).
Proof.
  apply Untouched; cbn [init pcs device_count written trace]; try reflexivity.
  intros b p Hb. apply lookup_replicate in Hb. now destruct Hb.
Qed.

Lemma step_basic (st : state T) (b : nat) :
  basic st -> basic (step_ st b).
Proof.
  intros [Hpcs Hspin Hcomb]. unfold step.
  destruct (pcs st !! b) as [p|] eqn:Hpc; [|now split].
  assert (Hb : b < nb) by (apply lookup_lt_Some in Hpc; lia).
  assert (Hne : (nb =? 1) = false) by (apply Nat.eqb_neq; lia).
  assert (Hkeep : forall es b' t, pcs st !! b' = Some (Combine t) ->
            t = aggregate b' /\
            exists count, 2 <= count /\ In (ReadCount b' count) (es ++ trace st)).
  { intros es b' t Hb'. destruct (Hcomb b' t Hb') as (Ht & c & Hc & Hin).
    split; [exact Ht|]. exists c. split; [exact Hc | apply in_or_app; now right]. }
  pose proof (Hkeep []) as Hkeep0. pose proof (fun e => Hkeep [e]) as Hkeep1.
  pose proof (fun e e' => Hkeep [e; e']) as Hkeep2. cbn [app] in Hkeep0, Hkeep1, Hkeep2.
  destruct p as [| | | |temp|temp| | |val|];
    rewrite ?nonzero_identity, ?Hne; cbn [negb andb]; unfold atomicCAS, atomicInc.
  - (* Setup *)
    split; observe; rewrite ?length_insert; auto.
    + intros b' t Hb'. set_cases_eq Hb' E;
        [destruct (device_count st =? 0); discriminate E | eauto].
    + intros b' t Hb'. set_cases_eq Hb' E;
        [destruct (device_count st =? 0); discriminate E | eauto].
  - split; observe; rewrite ?length_insert; auto.
    + intros b' t Hb'. set_cases Hb'; eauto.
    + intros b' t Hb'. set_cases Hb'; eauto.
  - split; observe; rewrite ?length_insert; auto.
    + intros b' t Hb'. set_cases Hb'; eauto.
    + intros b' t Hb'. set_cases Hb'; eauto.
  - (* Reduce *)
    rewrite atomic_block_aggregate_block by exact Hb.
    split; observe; rewrite ?length_insert; auto.
    + intros b' t Hb'. set_cases Hb'; eauto.
    + intros b' t Hb'. set_cases Hb'; eauto.
  - (* Spin *)
    pose proof (Hspin b temp Hpc) as Htemp.
    split; observe; rewrite ?length_insert; auto.
    + intros b' t Hb'. set_cases_eq Hb' E; [|eauto].
      destruct (device_count st <? 2); [|discriminate]. now injection E as ->.
    + intros b' t Hb'. set_cases_eq Hb' E; [|eauto].
      destruct (Nat.ltb_spec (device_count st) 2) as [|Hge]; [discriminate|].
      injection E as ->. split; [exact Htemp|].
      exists (device_count st). split; [exact Hge | now left].
  - (* Combine *)
    split; observe; rewrite ?length_insert; auto.
    + intros b' t Hb'. set_cases Hb'; eauto.
    + intros b' t Hb'. set_cases Hb'; eauto.
  - (* Count *)
    split; observe; rewrite ?length_insert; auto.
    + intros b' t Hb'. set_cases_eq Hb' E;
        [destruct (device_count st =? wrap_around vals); discriminate E | eauto].
    + intros b' t Hb'. set_cases_eq Hb' E;
        [destruct (device_count st =? wrap_around vals); discriminate E | eauto].
  - split; observe; rewrite ?length_insert; auto.
    + intros b' t Hb'. set_cases Hb'; eauto.
    + intros b' t Hb'. set_cases Hb'; eauto.
  - split; observe; rewrite ?length_insert; auto.
    + intros b' t Hb'. set_cases Hb'; eauto.
    + intros b' t Hb'. set_cases Hb'; eauto.
  - now split.
Qed.


Lemma count_done_none (l : list (pc T)) :
  (forall b p, l !! b = Some p -> is_done p = false) -> count_done l = 0.
Proof.
  unfold count_done, count_if. induction l as [|p l IH]; intros Hall; [reflexivity|].
  cbn [List.filter]. rewrite (Hall 0 p eq_refl). apply IH.
  intros b q Hq. exact (Hall (S b) q Hq).
Qed.

Lemma arrived_insert (l : list nat) (ps : list (pc T)) (b : nat) (p p' : pc T) :
  ps !! b = Some p -> arrived p' = arrived p ->
  (forall x, In x l <-> exists q, ps !! x = Some q /\ arrived q = true) ->
  (forall x, In x l <-> exists q, <[b := p']> ps !! x = Some q /\ arrived q = true).
Proof.
  intros Hb Harr Hiff x. rewrite Hiff. apply lookup_lt_Some in Hb as Hlt.
  destruct (decide (x = b)) as [->|Hne].
  - rewrite list_lookup_insert_eq by exact Hlt. rewrite Hb. split.
    + intros (q & Hq & Hq'). injection Hq as <-. exists p'. split; congruence.
    + intros (q & Hq & Hq'). injection Hq as <-. exists p. split; congruence.
  - now rewrite list_lookup_insert_ne by congruence.
Qed.

Lemma arrived_insert_new (l : list nat) (ps : list (pc T)) (b : nat) (p p' : pc T) :
  ps !! b = Some p -> arrived p' = true ->
  (forall x, In x l <-> exists q, ps !! x = Some q /\ arrived q = true) ->
  (forall x, In x (b :: l) <-> exists q, <[b := p']> ps !! x = Some q /\ arrived q = true).
Proof.
  intros Hb Harr Hiff x. apply lookup_lt_Some in Hb as Hlt. cbn [In].
  destruct (decide (x = b)) as [->|Hne].
  - rewrite list_lookup_insert_eq by exact Hlt. split; [|now left].
    intros _. now exists p'.
  - rewrite list_lookup_insert_ne by congruence. rewrite <- Hiff. split; [|now right].
    intros [Heq|Hin]; [congruence | exact Hin].
Qed.

Lemma waiting_working (p : pc T) : waiting p = true -> working p = true.
Proof. destruct p; try discriminate; reflexivity. Qed.

Lemma waiting_not_done (p : pc T) : waiting p = true -> is_done p = false.
Proof. destruct p; try discriminate; reflexivity. Qed.

Lemma waiting_not_arrived (p : pc T) : waiting p = true -> arrived p = false.
Proof. destruct p; try discriminate; reflexivity. Qed.


Lemma atomic_step_phase (st : state T) (b : nat) :
  basic st -> phase st -> phase (step_ st b).
Proof.
  intros [Hpcs Hspin Hcomb] Hphase. unfold step.
  destruct (pcs st !! b) as [p|] eqn:Hpc; [|exact Hphase].
  assert (Hb : b < nb) by (apply lookup_lt_Some in Hpc; lia).
  assert (Hlt : b < length (pcs st)) by lia.
  assert (Hne : (nb =? 1) = false) by (apply Nat.eqb_neq; lia).
  rewrite ?nonzero_identity, ?Hne. cbn [negb andb].
  destruct Hphase as [Hcnt Hwr Hall Hcas Hini Hcmb Hl Hp
                     |b0 Hcnt Hb0 Hothers Hcas Hcmb Hl Hp
                     |b0 Hcnt Hclt Hwr Hwork Hmem Hnd Hiff Hcas Hini Hl Hp
                     |b0 b1 Hcnt Hwr Hb1 Hothers Hmem Hcas Hini Hl Hp
                     |b0 b1 Hcnt Hwr Hb1 Hothers Hcas Hini Hl Hp
                     |b0 b1 Hb1 Hcnt Hwr Hall Hcas Hini Hl Hp Hval].
  - (* nothing has happened yet: the first CAS wins *)
    rewrite (Hall b p Hpc), Hcnt. cbn [atomicCAS Nat.eqb].
    apply (Initializing _ b); observe.
    + reflexivity.
    + left. rewrite list_lookup_insert_eq by exact Hlt. now rewrite Hini.
    + intros b' q Hneq Hb'. rewrite list_lookup_insert_ne in Hb' by congruence.
      now rewrite (Hall b' q Hb').
    + now rewrite Hcas.
    + exact Hcmb.
    + exact Hl.
    + exact Hp.
  - (* the winner initializes, the others wait *)
    destruct (decide (b = b0)) as [->|Hneq].
    + destruct Hb0 as [(Hb0 & Hwr & Hini)|(Hb0 & Hwr & Hini & Hmem)];
        rewrite Hb0 in Hpc; injection Hpc as <-.
      * apply (Initializing _ b0); observe; auto.
        -- right. rewrite list_lookup_insert_eq by exact Hlt. now rewrite Hini.
        -- intros b' q Hneq Hb'. rewrite list_lookup_insert_ne in Hb' by congruence. eauto.
      * assert (Hnone : count_done (<[b0 := Reduce]> (pcs st)) = 0).
        { apply count_done_none. intros b' q Hb'. set_cases Hb'; try reflexivity.
          apply waiting_not_done. eauto. }
        apply (Combining _ b0); observe; rewrite ?Hnone, ?Hcmb; auto.
        -- lia.
        -- lia.
        -- intros b' q Hb'. set_cases Hb'; try reflexivity.
           apply waiting_working. eauto.
        -- constructor.
        -- intros x. cbn [In]. split; [tauto|].
           intros (q & Hq & Harr). set_cases Hq; try discriminate.
           assert (Hw : waiting q = true) by eauto.
           apply waiting_not_arrived in Hw. congruence.
    + pose proof (Hothers b p Hneq Hpc) as Hwait.
      destruct p as [| | | |temp|temp| | |val|]; try discriminate Hwait.
      * (* Setup: the CAS fails *)
        rewrite Hcnt. cbn [atomicCAS Nat.eqb].
        apply (Initializing _ b0); observe; auto.
        -- rewrite list_lookup_insert_ne by congruence. exact Hb0.
        -- intros b' q Hneq' Hb'. set_cases Hb'; first [reflexivity | eauto].
      * (* Reduce *)
        apply (Initializing _ b0); observe; auto.
        -- rewrite list_lookup_insert_ne by congruence. exact Hb0.
        -- intros b' q Hneq' Hb'. set_cases Hb'; first [reflexivity | eauto].
      * (* Spin: the count is 1, the block keeps waiting *)
        rewrite Hcnt. cbn [Nat.ltb Nat.leb].
        apply (Initializing _ b0); observe; auto.
        -- rewrite list_lookup_insert_ne by congruence. exact Hb0.
        -- intros b' q Hneq' Hb'. set_cases Hb'; first [reflexivity | eauto].
  - (* the accumulator is initialized: blocks combine and count *)
    pose proof (Hwork b p Hpc) as Hworking.
    destruct p as [| | | |temp|temp| | |val|]; try discriminate Hworking.
    + (* Setup: the CAS fails *)
      pose proof (count_if_insert is_done (pcs st) b Setup Reduce Hpc) as Hc.
      cbn [is_done] in Hc. unfold count_done in *.
      rewrite Hcnt. cbn [atomicCAS Nat.eqb Nat.add].
      apply (Combining _ b0); observe; unfold count_done; auto; try lia.
      * intros b' q Hb'. set_cases Hb'; first [reflexivity | eauto].
      * now apply (arrived_insert _ _ _ Setup).
    + (* Reduce *)
      pose proof (count_if_insert is_done (pcs st) b Reduce
                    (Spin (Block.block_aggregate WARP_SIZE MAX_WARPS undef sd_init
                             (default [] (vals !! b)))) Hpc) as Hc.
      cbn [is_done] in Hc. unfold count_done in *.
      apply (Combining _ b0); observe; unfold count_done; auto; try lia.
      * intros b' q Hb'. set_cases Hb'; first [reflexivity | eauto].
      * now apply (arrived_insert _ _ _ Reduce).
    + (* Spin: the count is at least 2 *)
      pose proof (count_if_insert is_done (pcs st) b (Spin temp) (Combine temp) Hpc) as Hc.
      cbn [is_done] in Hc. unfold count_done in *.
      rewrite Hcnt. cbn [Nat.ltb Nat.leb Nat.add].
      apply (Combining _ b0); observe; unfold count_done; auto; try lia.
      * intros b' q Hb'. set_cases Hb'; first [reflexivity | eauto].
      * now apply (arrived_insert _ _ _ (Spin temp)).
    + (* Combine *)
      pose proof (count_if_insert is_done (pcs st) b (Combine temp) Count Hpc) as Hc.
      cbn [is_done] in Hc. unfold count_done in *.
      destruct (Hcomb b temp Hpc) as [-> _].
      apply (Combining _ b0); observe; unfold count_done; auto; try lia.
      * intros b' q Hb'. set_cases Hb'; first [reflexivity | eauto].
      * rewrite Hmem. cbn [map]. unfold reduce_all. cbn [foldr]. apply combine_comm.
      * constructor; [|exact Hnd].
        intros Hin. apply Hiff in Hin as (q & Hq & Harr).
        rewrite Hpc in Hq. injection Hq as <-. discriminate.
      * now apply (arrived_insert_new _ _ _ (Combine (aggregate b))).
    + (* Count *)
      unfold count_done in *. rewrite Hcnt. unfold atomicInc, wrap_around.
      destruct (Nat.eqb_spec (2 + count_if is_done (pcs st)) (nb + 1)) as [Hlast|Hmore].
      * assert (Hothers : forall b' q, b' <> b -> pcs st !! b' = Some q -> q = Done).
        { intros b' q Hneq Hb'. apply atomic_is_done_Done.
          apply (count_if_others is_done (pcs st) b b' Count q); auto. lia. }
        apply (Reading _ b0 b); observe; auto.
        -- destruct (Nat.leb_spec (nb + 1) (2 + count_if is_done (pcs st))); [reflexivity|lia].
        -- rewrite list_lookup_insert_eq by exact Hlt. reflexivity.
        -- intros b' q Hneq Hb'. rewrite list_lookup_insert_ne in Hb' by congruence. eauto.
        -- rewrite Hmem. apply all_combined_total; [exact Hnd|].
           intros x. rewrite Hiff. split.
           ++ intros (q & Hq & _). apply lookup_lt_Some in Hq. lia.
           ++ intros Hx. destruct (lookup_lt_is_Some_2 (pcs st) x) as [q Hq]; [lia|].
              exists q. split; [exact Hq|].
              destruct (decide (x = b)) as [->|Hneq].
              ** rewrite Hpc in Hq. now injection Hq as <-.
              ** now rewrite (Hothers x q Hneq Hq).
      * pose proof (count_if_insert is_done (pcs st) b Count Done Hpc) as Hc.
        cbn [is_done] in Hc.
        destruct (Nat.leb_spec (nb + 1) (2 + count_if is_done (pcs st))) as [Hge|_]; [lia|].
        apply (Combining _ b0); observe; unfold count_done; auto; try lia.
        -- intros b' q Hb'. set_cases Hb'; first [reflexivity | eauto].
        -- now apply (arrived_insert _ _ _ Count).
    + (* Done *)
      now apply (Combining _ b0).
  - (* the last block reads the accumulator *)
    destruct (decide (b = b1)) as [->|Hneq].
    + rewrite Hb1 in Hpc. injection Hpc as <-. rewrite Hmem.
      apply (Returning _ b0 b1); observe; auto.
      * rewrite list_lookup_insert_eq by exact Hlt. reflexivity.
      * intros b' q Hneq Hb'. rewrite list_lookup_insert_ne in Hb' by congruence. eauto.
      * now rewrite Hl.
    + rewrite (Hothers b p Hneq Hpc). now apply (Reading _ b0 b1).
  - (* the last block stores to the tally slot *)
    destruct (decide (b = b1)) as [->|Hneq].
    + rewrite Hb1 in Hpc. injection Hpc as <-.
      apply (Finished _ b0 b1); observe; auto.
      * intros b' q Hb'. set_cases Hb'; first [reflexivity | eauto].
      * now rewrite Hp.
    + rewrite (Hothers b p Hneq Hpc). now apply (Returning _ b0 b1).
  - rewrite (Hall b p Hpc). now apply (Finished _ b0 b1).
Qed.


(** A block that is about to combine finds the accumulator initialized. *)
Lemma combine_written (st : state T) (b : nat) (t : T) :
  phase st -> pcs st !! b = Some (Combine t) -> written st = true.
Proof.
  intros Hphase Hb.
  destruct Hphase as [Hcnt Hwr Hall Hcas Hini Hcmb Hl Hp
                     |b0 Hcnt Hb0 Hothers Hcas Hcmb Hl Hp
                     |b0 Hcnt Hclt Hwr Hwork Hmem Hnd Hiff Hcas Hini Hl Hp
                     |b0 b1 Hcnt Hwr Hb1 Hothers Hmem Hcas Hini Hl Hp
                     |b0 b1 Hcnt Hwr Hb1 Hothers Hcas Hini Hl Hp
                     |b0 b1 Hb1 Hcnt Hwr Hall Hcas Hini Hl Hp Hval]; try exact Hwr.
  - pose proof (Hall b _ Hb). discriminate.
  - destruct (decide (b = b0)) as [->|Hneq].
    + destruct Hb0 as [(Hb0 & _)|(Hb0 & _)]; congruence.
    + pose proof (Hothers b _ Hneq Hb). discriminate.
Qed.

Lemma step_guarded (st : state T) (b : nat) :
  basic st -> phase st -> combines_guarded (trace st) ->
  combines_guarded (trace (step_ st b)).
Proof.
  intros Hbasic Hphase Hg. unfold step.
  destruct (pcs st !! b) as [p|] eqn:Hpc; [|exact Hg].
  destruct p as [| | | |temp|temp| | |val|]; unfold atomicCAS, atomicInc;
    try destruct (negb identity_is_zero && negb (nb =? 1));
    try destruct (nb =? 1); try destruct (negb identity_is_zero);
    cbn [trace combines_guarded]; auto.
  all: split; [|exact Hg]; split;
    [exact (combine_written st b temp Hphase Hpc)
    |destruct (b_combine st Hbasic b temp Hpc) as (_ & c & Hc & Hin); eauto].
Qed.

Lemma atomic_run_snoc' (sched : list nat) (b : nat) (st : state T) :
  run_ (sched ++ [b]) st = step_ (run_ sched st) b.
Proof. unfold run. now rewrite foldl_app. Qed.

Lemma atomic_run_invariant (sched : list nat) :
  let st := run_ sched (init vals zero) in
  basic st /\ phase st /\ combines_guarded (trace st).
Proof.
  induction sched as [|b sched (IHb & IHp & IHg)] using rev_ind.
  - split; [apply init_basic | split; [apply atomic_init_phase | exact I]].
  - rewrite atomic_run_snoc'. cbv zeta.
    split; [now apply step_basic | split; [now apply atomic_step_phase | now apply step_guarded]].
Qed.

Lemma atomic_finished_all_done (st : state T) (b : nat) (p : pc T) :
  finished st = true -> pcs st !! b = Some p -> p = Done.
Proof.
  unfold finished. intros Hall Hb. rewrite forallb_forall in Hall.
  apply atomic_is_done_Done. apply (Hall p).
  apply list_elem_of_In, list_elem_of_lookup; eauto.
Qed.

(** C5: in the atomic variant with a reducer whose identity is not bitwise
    zero and more than one block, at most one block wins the CAS of
    [device_count] from 0 to 1, and only that block stores the identity to
    the accumulator; every atomic combine comes after its block has read a
    [device_count] of at least 2, and finds an accumulator that has been
    stored to: no block folds its contribution into the zero the pool left
    there. When all blocks are through, one block has been last and has
    stored the combine of the identity and of all values to the tally
    slot. *)
Theorem atomic_initializer_protocol (sched : list nat) :
  let st := run_ sched (init vals zero) in
  length (cas_winners st) <= 1 /\
  (forall b, In b (initializers st) -> cas_winners st = [b] /\ initializers st = [b]) /\
  combines_guarded (trace st) /\
  (finished st = true ->
     exists b0 b1, cas_winners st = [b0] /\ initializers st = [b0] /\
                   last_blocks st = [b1] /\ pinned_writes st = [(b1, total)] /\
                   val_ptr st = Some total).
Proof.
  intros st. destruct (atomic_run_invariant sched) as (Hbasic & Hphase & Hg). fold st in Hbasic, Hphase, Hg.
  split; [|split; [|split; [exact Hg|]]].
  - destruct Hphase as [Hcnt Hwr Hall Hcas Hini Hcmb Hl Hp
                       |b0 Hcnt Hb0 Hothers Hcas Hcmb Hl Hp
                       |b0 Hcnt Hclt Hwr Hwork Hmem Hnd Hiff Hcas Hini Hl Hp
                       |b0 b1 Hcnt Hwr Hb1 Hothers Hmem Hcas Hini Hl Hp
                       |b0 b1 Hcnt Hwr Hb1 Hothers Hcas Hini Hl Hp
                       |b0 b1 Hb1 Hcnt Hwr Hall Hcas Hini Hl Hp Hval];
      rewrite Hcas; simpl; lia.
  - intros b Hin.
    destruct Hphase as [Hcnt Hwr Hall Hcas Hini Hcmb Hl Hp
                       |b0 Hcnt Hb0 Hothers Hcas Hcmb Hl Hp
                       |b0 Hcnt Hclt Hwr Hwork Hmem Hnd Hiff Hcas Hini Hl Hp
                       |b0 b1 Hcnt Hwr Hb1 Hothers Hmem Hcas Hini Hl Hp
                       |b0 b1 Hcnt Hwr Hb1 Hothers Hcas Hini Hl Hp
                       |b0 b1 Hb1 Hcnt Hwr Hall Hcas Hini Hl Hp Hval];
      try (rewrite Hini in Hin |- *; rewrite Hcas; destruct Hin as [<-|[]]; now split).
    + rewrite Hini in Hin. destruct Hin.
    + destruct Hb0 as [(_ & _ & Hini)|(_ & _ & Hini & _)]; rewrite Hini in Hin |- *.
      * destruct Hin.
      * rewrite Hcas. destruct Hin as [<-|[]]. now split.
  - intros Hfin.
    destruct Hphase as [Hcnt Hwr Hall Hcas Hini Hcmb Hl Hp
                       |b0 Hcnt Hb0 Hothers Hcas Hcmb Hl Hp
                       |b0 Hcnt Hclt Hwr Hwork Hmem Hnd Hiff Hcas Hini Hl Hp
                       |b0 b1 Hcnt Hwr Hb1 Hothers Hmem Hcas Hini Hl Hp
                       |b0 b1 Hcnt Hwr Hb1 Hothers Hcas Hini Hl Hp
                       |b0 b1 Hb1 Hcnt Hwr Hall Hcas Hini Hl Hp Hval].
    + destruct (lookup_lt_is_Some_2 (pcs st) 0) as [p Hp0];
        [rewrite (b_pcs st Hbasic); lia|].
      pose proof (atomic_finished_all_done st 0 p Hfin Hp0). pose proof (Hall 0 p Hp0). congruence.
    + destruct Hb0 as [(Hb0 & _)|(Hb0 & _)];
        pose proof (atomic_finished_all_done st b0 _ Hfin Hb0); discriminate.
    + pose proof (all_done_count (pcs st) (fun b p => atomic_finished_all_done st b p Hfin)) as Hc.
      rewrite (b_pcs st Hbasic) in Hc. lia.
    + pose proof (atomic_finished_all_done st b1 _ Hfin Hb1). discriminate.
    + pose proof (atomic_finished_all_done st b1 _ Hfin Hb1). discriminate.
    + exists b0, b1. auto.
Qed.

(** Once a block has been last, the accumulator holds the combine of all
    values, and stays so. *)
Lemma step_settled (st : state T) (b : nat) :
  phase st ->
  (last_blocks st <> [] -> device_mem st = total) ->
  last_blocks (step_ st b) <> [] -> device_mem (step_ st b) = total.
Proof.
  intros Hphase Hsettled. unfold step.
  destruct (pcs st !! b) as [p|] eqn:Hpc; [|exact Hsettled].
  assert (Hne : (nb =? 1) = false) by (apply Nat.eqb_neq; lia).
  assert (Hlate : last_blocks st <> [] -> p = Done \/ exists v, p = Return v).
  { intros Hl.
    destruct Hphase as [Hcnt Hwr Hall Hcas Hini Hcmb Hl' Hp
                       |b0 Hcnt Hb0 Hothers Hcas Hcmb Hl' Hp
                       |b0 Hcnt Hclt Hwr Hwork Hmem Hnd Hiff Hcas Hini Hl' Hp
                       |b0 b1 Hcnt Hwr Hb1 Hothers Hmem Hcas Hini Hl' Hp
                       |b0 b1 Hcnt Hwr Hb1 Hothers Hcas Hini Hl' Hp
                       |b0 b1 Hb1 Hcnt Hwr Hall Hcas Hini Hl' Hp Hval];
      try congruence.
    - destruct (decide (b = b1)) as [->|Hneq].
      + right. exists total. congruence.
      + left. exact (Hothers b p Hneq Hpc).
    - left. exact (Hall b p Hpc). }
  destruct p as [| | | |temp|temp| | |val|]; unfold atomicCAS, atomicInc;
    rewrite ?nonzero_identity, ?Hne; cbn [negb andb].
  - (* Setup *) observe. exact Hsettled.
  - (* InitWrite *) observe. intros Hl.
    destruct (Hlate Hl) as [|[? ?]]; discriminate.
  - (* InitBump *) observe. exact Hsettled.
  - (* Reduce *) observe. exact Hsettled.
  - (* Spin *) observe. exact Hsettled.
  - (* Combine *) observe. intros Hl.
    destruct (Hlate Hl) as [|[? ?]]; discriminate.
  - (* Count *) observe. exact Hsettled.
  - (* ReadBack *) observe. intros _.
    destruct Hphase as [Hcnt Hwr Hall Hcas Hini Hcmb Hl' Hp
                       |b0 Hcnt Hb0 Hothers Hcas Hcmb Hl' Hp
                       |b0 Hcnt Hclt Hwr Hwork Hmem Hnd Hiff Hcas Hini Hl' Hp
                       |b0 b1 Hcnt Hwr Hb1 Hothers Hmem Hcas Hini Hl' Hp
                       |b0 b1 Hcnt Hwr Hb1 Hothers Hcas Hini Hl' Hp
                       |b0 b1 Hb1 Hcnt Hwr Hall Hcas Hini Hl' Hp Hval].
    + specialize (Hall _ _ Hpc). discriminate.
    + destruct (decide (b = b0)) as [->|Hneq].
      * destruct Hb0 as [(Hb0 & _)|(Hb0 & _)]; congruence.
      * specialize (Hothers _ _ Hneq Hpc). discriminate.
    + specialize (Hwork _ _ Hpc). discriminate.
    + exact Hmem.
    + destruct (decide (b = b1)) as [->|Hneq]; [congruence|].
      specialize (Hothers _ _ Hneq Hpc). discriminate.
    + specialize (Hall _ _ Hpc). discriminate.
  - (* Return *) observe. exact Hsettled.
  - (* Done *) exact Hsettled.
Qed.

Lemma run_settled (sched : list nat) :
  last_blocks (run_ sched (init vals zero)) <> [] ->
  device_mem (run_ sched (init vals zero)) = total.
Proof.
  induction sched as [|b sched IH] using rev_ind.
  - intros Hl. now contradiction Hl.
  - rewrite atomic_run_snoc'. apply step_settled; [|exact IH].
    now destruct (atomic_run_invariant sched) as (_ & Hphase & _).
Qed.

(** X9. The counter and the accumulator of the atomic variant with an
    identity that is not bitwise zero, under any schedule: [device_count]
    never exceeds [numBlocks + 1]; once all blocks are through it is 0
    again (the last [atomicInc] wraps), and the accumulator, which came
    from the zeroed pool, holds the combine of all values. *)
Theorem atomic_counter_wraps (sched : list nat) :
  let st := run_ sched (init vals zero) in
  device_count st <= nb + 1 /\
  (finished st = true -> device_count st = 0 /\ device_mem st = total).
Proof.
  intros st. destruct (atomic_run_invariant sched) as (Hbasic & Hphase & _).
  pose proof (run_settled sched) as Hsettled. fold st in Hbasic, Hphase, Hsettled.
  split.
  - destruct Hphase as [Hcnt Hwr Hall Hcas Hini Hcmb Hl Hp
                       |b0 Hcnt Hb0 Hothers Hcas Hcmb Hl Hp
                       |b0 Hcnt Hclt Hwr Hwork Hmem Hnd Hiff Hcas Hini Hl Hp
                       |b0 b1 Hcnt Hwr Hb1 Hothers Hmem Hcas Hini Hl Hp
                       |b0 b1 Hcnt Hwr Hb1 Hothers Hcas Hini Hl Hp
                       |b0 b1 Hb1 Hcnt Hwr Hall Hcas Hini Hl Hp Hval]; lia.
  - intros Hfin.
    destruct Hphase as [Hcnt Hwr Hall Hcas Hini Hcmb Hl Hp
                       |b0 Hcnt Hb0 Hothers Hcas Hcmb Hl Hp
                       |b0 Hcnt Hclt Hwr Hwork Hmem Hnd Hiff Hcas Hini Hl Hp
                       |b0 b1 Hcnt Hwr Hb1 Hothers Hmem Hcas Hini Hl Hp
                       |b0 b1 Hcnt Hwr Hb1 Hothers Hcas Hini Hl Hp
                       |b0 b1 Hb1 Hcnt Hwr Hall Hcas Hini Hl Hp Hval].
    + destruct (lookup_lt_is_Some_2 (pcs st) 0) as [p Hp0];
        [rewrite (b_pcs st Hbasic); lia|].
      pose proof (atomic_finished_all_done st 0 p Hfin Hp0). pose proof (Hall 0 p Hp0).
      congruence.
    + destruct Hb0 as [(Hb0 & _)|(Hb0 & _)];
        pose proof (atomic_finished_all_done st b0 _ Hfin Hb0); discriminate.
    + pose proof (all_done_count (pcs st) (fun b p => atomic_finished_all_done st b p Hfin))
        as Hc.
      rewrite (b_pcs st Hbasic) in Hc. lia.
    + pose proof (atomic_finished_all_done st b1 _ Hfin Hb1). discriminate.
    + pose proof (atomic_finished_all_done st b1 _ Hfin Hb1). discriminate.
    + split; [exact Hcnt|]. apply Hsettled. rewrite Hl. discriminate.
Qed.

(** *** The spin-wait ends *)

(** The steps a block has left at most. *)
Definition rank (p : pc T) : nat :=
  match p with
  | Setup => 9 | InitWrite => 8 | InitBump => 7 | Reduce => 6 | Spin _ => 5
  | Combine _ => 4 | Count => 3 | ReadBack => 2 | Return _ => 1 | Done => 0
  end.

Definition steps_left (st : state T) : nat := list_sum (map rank (pcs st)).

(** A step of [b] that does not move [b]: it is through, or it spins. *)
Definition idle (st : state T) (b : nat) : Prop :=
  match pcs st !! b with
  | None | Some Done => True
  | Some (Spin _) => device_count st < 2
  | Some _ => False
  end.

Lemma list_sum_insert (l : list (pc T)) (b : nat) (p q : pc T) :
  l !! b = Some p ->
  list_sum (map rank (<[b := q]> l)) + rank p = list_sum (map rank l) + rank q.
Proof.
  revert b. induction l as [|r l IH]; intros b Hb; [discriminate|].
  destruct b as [|b]; simpl in *.
  - injection Hb as ->. lia.
  - specialize (IH b Hb). lia.
Qed.

Lemma step_idle (st : state T) (b : nat) :
  idle st b ->
  pcs (step_ st b) = pcs st /\ device_count (step_ st b) = device_count st.
Proof.
  unfold idle, step. destruct (pcs st !! b) as [p|] eqn:Hpc; [|now split].
  destruct p as [| | | |temp|temp| | |val|]; try contradiction; [|now split].
  intros Hlt. destruct (Nat.ltb_spec (device_count st) 2) as [_|]; [|lia].
  unfold set_pc. cbn [pcs device_count]. split; [|reflexivity].
  now apply list_insert_id.
Qed.

Lemma step_busy (st : state T) (b : nat) :
  ~ idle st b -> steps_left (step_ st b) < steps_left st.
Proof.
  unfold idle, step, steps_left. destruct (pcs st !! b) as [p|] eqn:Hpc; [|tauto].
  assert (Hne : (nb =? 1) = false) by (apply Nat.eqb_neq; lia).
  destruct p as [| | | |temp|temp| | |val|]; unfold atomicCAS, atomicInc, set_pc;
    rewrite ?nonzero_identity, ?Hne; cbn [negb andb pcs]; intros Hbusy;
    try tauto;
    match goal with
    | |- context [<[b := ?q]> (pcs st)] =>
        pose proof (list_sum_insert (pcs st) b _ q Hpc) as Hsum
    end; cbn [rank] in Hsum.
  - destruct (device_count st =? 0); cbn [rank] in Hsum; lia.
  - lia.
  - lia.
  - lia.
  - destruct (Nat.ltb_spec (device_count st) 2); [tauto|]. cbn [rank] in Hsum. lia.
  - lia.
  - destruct (device_count st =? wrap_around vals); cbn [rank] in Hsum; lia.
  - lia.
  - lia.
Qed.

Lemma steps_left_step (st : state T) (b : nat) :
  steps_left (step_ st b) <= steps_left st.
Proof.
  destruct (pcs st !! b) as [p|] eqn:Hpc.
  - assert (Hdec : idle st b \/ ~ idle st b).
    { unfold idle. rewrite Hpc. destruct p; try tauto. lia. }
    destruct Hdec as [Hidle|Hbusy].
    + unfold steps_left. now rewrite (proj1 (step_idle st b Hidle)).
    + pose proof (step_busy st b Hbusy). lia.
  - unfold step. now rewrite Hpc.
Qed.

Lemma steps_left_run (sched : list nat) (st : state T) :
  steps_left (run_ sched st) <= steps_left st.
Proof.
  revert st. induction sched as [|b sched IH]; intros st; [reflexivity|].
  change (run_ (b :: sched) st) with (run_ sched (step_ st b)).
  pose proof (IH (step_ st b)). pose proof (steps_left_step st b). lia.
Qed.

(** If a round of steps moves no block, every block that stepped was idle
    at the start of the round. *)
Lemma round_idle (round : list nat) (st : state T) :
  steps_left (run_ round st) = steps_left st ->
  forall b, In b round -> idle st b.
Proof.
  revert st. induction round as [|b' round IH]; intros st Heq b Hin; [destruct Hin|].
  change (run_ (b' :: round) st) with (run_ round (step_ st b')) in Heq.
  pose proof (steps_left_run round (step_ st b')) as Hrun.
  pose proof (steps_left_step st b') as Hstep.
  assert (Hidle : idle st b').
  { destruct (pcs st !! b') as [p|] eqn:Hpc.
    - assert (Hdec : idle st b' \/ ~ idle st b').
      { unfold idle. rewrite Hpc. destruct p; try tauto. lia. }
      destruct Hdec as [Hidle|Hbusy]; [exact Hidle|].
      pose proof (step_busy st b' Hbusy). lia.
    - unfold idle. now rewrite Hpc. }
  destruct Hin as [<-|Hin]; [exact Hidle|].
  destruct (step_idle st b' Hidle) as [Hpcs Hcnt].
  assert (Hb : idle (step_ st b') b) by (apply IH; [lia | exact Hin]).
  unfold idle in *. now rewrite Hpcs, Hcnt in Hb.
Qed.

(** No deadlock: when no block can move, all blocks are through. *)
Lemma idle_finished (st : state T) :
  basic st -> phase st -> (forall b, b < nb -> idle st b) -> steps_left st = 0.
Proof.
  intros Hbasic Hphase Hidle.
  assert (Hall : forall b p, pcs st !! b = Some p ->
                             p = Done \/ (exists t, p = Spin t) /\ device_count st < 2).
  { intros b p Hpc. assert (Hb : b < nb).
    { apply lookup_lt_Some in Hpc. now rewrite (b_pcs st Hbasic) in Hpc. }
    specialize (Hidle b Hb). unfold idle in Hidle. rewrite Hpc in Hidle.
    destruct p; try contradiction; [right; eauto | now left]. }
  assert (Hdone : forall b p, pcs st !! b = Some p -> p = Done).
  { intros b p Hpc. destruct (Hall b p Hpc) as [Hd|[[t ->] Hcnt]]; [exact Hd|].
    exfalso.
    destruct Hphase as [Hc Hwr Hsetup Hcas Hini Hcmb Hl Hp
                       |b0 Hc Hb0 Hothers Hcas Hcmb Hl Hp
                       |b0 Hc Hclt Hwr Hwork Hmem Hnd Hiff Hcas Hini Hl Hp
                       |b0 b1 Hc Hwr Hb1 Hothers Hmem Hcas Hini Hl Hp
                       |b0 b1 Hc Hwr Hb1 Hothers Hcas Hini Hl Hp
                       |b0 b1 Hb1 Hc Hwr Hfin Hcas Hini Hl Hp Hval].
    - specialize (Hsetup _ _ Hpc). discriminate.
    - destruct Hb0 as [(Hb0 & _)|(Hb0 & _)];
        destruct (Hall b0 _ Hb0) as [|[[? ?] _]]; discriminate.
    - lia.
    - destruct (Hall b1 _ Hb1) as [|[[? ?] _]]; discriminate.
    - destruct (Hall b1 _ Hb1) as [|[[? ?] _]]; discriminate.
    - specialize (Hfin _ _ Hpc). discriminate. }
  unfold steps_left. clear -Hdone. induction (pcs st) as [|p l IH]; [reflexivity|].
  cbn [map list_sum]. rewrite (Hdone 0 p eq_refl). cbn [rank].
  apply IH. intros b q Hq. exact (Hdone (S b) q Hq).
Qed.

Lemma steps_left_finished (st : state T) : steps_left st = 0 -> finished st = true.
Proof.
  unfold steps_left, finished. induction (pcs st) as [|p l IH]; [reflexivity|].
  cbn [map forallb]. intros Hsum.
  destruct p; simpl in Hsum; try lia. apply IH. exact Hsum.
Qed.

(** A round in which every block steps at least once brings the grid
    forward, unless all blocks are through. *)
Lemma round_progress (sched round : list nat) :
  (forall b, b < nb -> In b round) ->
  steps_left (run_ (sched ++ round) (init vals zero))
  <= steps_left (run_ sched (init vals zero)) - 1.
Proof.
  intros Hround. unfold run at 1. rewrite foldl_app.
  change (foldl step_ ?s round) with (run_ round s).
  change (foldl step_ (init vals zero) sched) with (run_ sched (init vals zero)).
  destruct (atomic_run_invariant sched) as (Hbasic & Hphase & _).
  set (st := run_ sched (init vals zero)) in *.
  pose proof (steps_left_run round st) as Hle.
  destruct (decide (steps_left (run_ round st) = steps_left st)) as [Heq|]; [|lia].
  assert (Hzero : steps_left st = 0); [|lia].
  apply (idle_finished st Hbasic Hphase).
  intros b Hb. exact (round_idle round st Heq b (Hround b Hb)).
Qed.

Lemma rounds_progress (rounds : list (list nat)) (sched : list nat) :
  Forall (fun round => forall b, b < nb -> In b round) rounds ->
  steps_left (run_ (sched ++ concat rounds) (init vals zero))
  <= steps_left (run_ sched (init vals zero)) - length rounds.
Proof.
  revert sched. induction rounds as [|round rounds IH]; intros sched Hfair.
  - cbn [concat length]. rewrite app_nil_r. lia.
  - pose proof (Forall_inv Hfair) as Hround. pose proof (Forall_inv_tail Hfair) as Hrest.
    cbn [concat length]. rewrite app_assoc.
    pose proof (IH (sched ++ round) Hrest). pose proof (round_progress sched round Hround).
    lia.
Qed.

Lemma steps_left_setup (n : nat) : list_sum (map rank (replicate n Setup)) = 9 * n.
Proof. induction n as [|n IH]; [reflexivity|]. simpl in *. lia. Qed.

(** X11. The spin-wait of the atomic variant ends. With an identity that
    is not bitwise zero and more than one block, under any schedule made of
    rounds in each of which every block steps at least once (in any order,
    any number of times), after [9 * numBlocks] rounds all blocks are
    through, whichever block won the CAS, and the combine of all values is
    in the tally slot. *)
Theorem atomic_spin_wait_ends (rounds : list (list nat)) :
  Forall (fun round => forall b, b < nb -> In b round) rounds ->
  9 * nb <= length rounds ->
  let st := run_ (concat rounds) (init vals zero) in
  finished st = true /\ val_ptr st = Some total.
Proof.
  intros Hfair Hlen st.
  pose proof (rounds_progress rounds [] Hfair) as Hprog.
  cbn [app] in Hprog. fold st in Hprog.
  assert (Hinit : steps_left (run_ [] (init vals zero)) = 9 * nb).
  { unfold steps_left. cbn [run foldl init pcs]. apply steps_left_setup. }
  assert (Hfin : finished st = true) by (apply steps_left_finished; lia).
  split; [exact Hfin|].
  destruct (atomic_run_invariant (concat rounds)) as (Hbasic & Hphase & _).
  fold st in Hbasic, Hphase.
  destruct Hphase as [Hcnt Hwr Hall Hcas Hini Hcmb Hl Hp
                     |b0 Hcnt Hb0 Hothers Hcas Hcmb Hl Hp
                     |b0 Hcnt Hclt Hwr Hwork Hmem Hnd Hiff Hcas Hini Hl Hp
                     |b0 b1 Hcnt Hwr Hb1 Hothers Hmem Hcas Hini Hl Hp
                     |b0 b1 Hcnt Hwr Hb1 Hothers Hcas Hini Hl Hp
                     |b0 b1 Hb1 Hcnt Hwr Hall Hcas Hini Hl Hp Hval].
  - destruct (lookup_lt_is_Some_2 (pcs st) 0) as [p Hp0];
      [rewrite (b_pcs st Hbasic); lia|].
    pose proof (atomic_finished_all_done st 0 p Hfin Hp0). pose proof (Hall 0 p Hp0).
    congruence.
  - destruct Hb0 as [(Hb0 & _)|(Hb0 & _)];
      pose proof (atomic_finished_all_done st b0 _ Hfin Hb0); discriminate.
  - pose proof (all_done_count (pcs st) (fun b p => atomic_finished_all_done st b p Hfin))
      as Hc.
    rewrite (b_pcs st Hbasic) in Hc. lia.
  - pose proof (atomic_finished_all_done st b1 _ Hfin Hb1). discriminate.
  - pose proof (atomic_finished_all_done st b1 _ Hfin Hb1). discriminate.
  - exact Hval.
Qed.

End NonzeroIdentity.

Lemma atomic_initializer_protocol_witness :
  let i32 := Zmod.of_Z (2 ^ 32) in
  let vals := [[i32 5%Z; i32 3%Z]; [i32 9%Z; i32 (-3)%Z]; [i32 7%Z; i32 8%Z]] in
  let sched := [2; 0; 1; 1; 0; 2; 0; 1; 2; 2; 0; 1; 1; 0; 0; 2; 1; 1; 1; 0; 2; 0; 2;
                1; 1; 2; 2] in
  let st := @run int32 min_int32 32 32 (fun _ => Zmod.zero) (fun _ => Zmod.zero) vals
              sched (init vals Zmod.zero) in
  finished st = true /\ combines_guarded (trace st) /\
  exists b0 b1, cas_winners st = [b0] /\ initializers st = [b0] /\
                last_blocks st = [b1] /\
                pinned_writes st = [(b1, i32 (-3)%Z)] /\
                val_ptr st = Some (i32 (-3)%Z).
Proof.
  intros i32 vals sched st.
  assert (Huniform : Forall (fun blk : list int32 => length blk = 2) vals)
    by (repeat constructor).
  assert (Hnonzero : @identity_is_zero int32 min_int32 = false)
    by (vm_compute; reflexivity).
  assert (Hdone : finished st = true) by (vm_compute; reflexivity).
  assert (Htotal : @total int32 min_int32 vals = i32 (-3)%Z)
    by (vm_compute; reflexivity).
  pose proof (@atomic_initializer_protocol int32 min_int32 min_int32_laws 32 32 5
                (fun _ => Zmod.zero) (fun _ => Zmod.zero) eq_refl ltac:(lia)
                vals 2 ltac:(lia) ltac:(simpl; lia) Huniform Zmod.zero
                Hnonzero ltac:(unfold numBlocks; simpl; lia) sched)
    as (_ & _ & Hg & Hfin).
  split; [exact Hdone|]. split; [exact Hg|].
  destruct (Hfin Hdone) as (b0 & b1 & Hcas & Hini & Hl & Hp & Hv).
  rewrite Htotal in Hp, Hv.
  exists b0, b1. repeat split; assumption.
Defined.

Lemma atomic_counter_wraps_witness :
  let i32 := Zmod.of_Z (2 ^ 32) in
  let vals := [[i32 5%Z; i32 3%Z]; [i32 9%Z; i32 (-3)%Z]; [i32 7%Z; i32 8%Z]] in
  let sched := [2; 0; 1; 1; 0; 2; 0; 1; 2; 2; 0; 1; 1; 0; 0; 2; 1; 1; 1; 0; 2; 0; 2;
                1; 1; 2; 2] in
  let st := @run int32 min_int32 32 32 (fun _ => Zmod.zero) (fun _ => Zmod.zero) vals
              sched (init vals Zmod.zero) in
  finished st = true /\ device_count st = 0 /\ device_mem st = i32 (-3)%Z.
Proof.
  intros i32 vals sched st.
  assert (Huniform : Forall (fun blk : list int32 => length blk = 2) vals)
    by (repeat constructor).
  assert (Hnonzero : @identity_is_zero int32 min_int32 = false)
    by (vm_compute; reflexivity).
  assert (Hdone : finished st = true) by (vm_compute; reflexivity).
  assert (Htotal : @total int32 min_int32 vals = i32 (-3)%Z)
    by (vm_compute; reflexivity).
  pose proof (@atomic_counter_wraps int32 min_int32 min_int32_laws 32 32 5
                (fun _ => Zmod.zero) (fun _ => Zmod.zero) eq_refl ltac:(lia)
                vals 2 ltac:(lia) ltac:(simpl; lia) Huniform Zmod.zero
                Hnonzero ltac:(unfold numBlocks; simpl; lia) sched)
    as (_ & Hfin).
  split; [exact Hdone|]. destruct (Hfin Hdone) as (Hcnt & Hmem).
  rewrite Htotal in Hmem. split; assumption.
Defined.

(** *** A grid of one block *)

Section SingleBlock.

Context {T : Type} `{ReducerMonoid T}.
Variables WARP_SIZE MAX_WARPS k : nat.
Variables undef sd_init : nat -> T.
Hypothesis warp_pow2 : WARP_SIZE = 2 ^ k.
Hypothesis warps_fit : MAX_WARPS <= WARP_SIZE.

Variable blk : list T.
Hypothesis threads_pos : 0 < length blk.
Hypothesis threads_fit : length blk <= WARP_SIZE * MAX_WARPS.
Variable zero : T.

Abbreviation step1 := (step WARP_SIZE MAX_WARPS undef sd_init [blk]).
Abbreviation run1 := (run WARP_SIZE MAX_WARPS undef sd_init [blk]).

(** The state after thread 0 of the block has taken [n] steps. *)
Definition after (n : nat) : state T :=
  match n with
  | 0 => mkState zero false 0 None [Setup] []
  | 1 => mkState zero false 0 None [Reduce] []
  | 2 => mkState zero false 0 None [Return (reduce_all blk)]
                 [ReturnTrue 0 (reduce_all blk)]
  | _ => mkState zero false 0 (Some (reduce_all blk)) [Done]
                 [WritePinned 0 (reduce_all blk); ReturnTrue 0 (reduce_all blk)]
  end.

Lemma step_after (n b : nat) :
  step1 (after n) b = after (if b =? 0 then Nat.min 3 (S n) else n).
Proof.
  destruct b as [|b]; cbn [Nat.eqb].
  - destruct n as [|[|[|n]]]; unfold step; cbn [after pcs lookup list_lookup].
    + unfold numBlocks. cbn [length Nat.eqb negb]. now rewrite andb_false_r.
    + unfold numBlocks. cbn [length Nat.eqb].
      change (default [] ([blk] !! 0)) with blk.
      rewrite (BlockFacts.block_aggregate_spec WARP_SIZE MAX_WARPS undef sd_init k)
        by assumption.
      reflexivity.
    + reflexivity.
    + reflexivity.
  - unfold step. now destruct n as [|[|[|n]]].
Qed.

Lemma run_after (sched : list nat) (n : nat) :
  run1 sched (after n) = after (Nat.min 3 (n + count_occ Nat.eq_dec sched 0)).
Proof.
  revert n. induction sched as [|b sched IH]; intros n.
  - cbn [run foldl count_occ]. rewrite Nat.add_0_r.
    destruct n as [|[|[|[|n]]]]; reflexivity.
  - change (run1 (b :: sched) (after n)) with (run1 sched (step1 (after n) b)).
    rewrite step_after, IH. cbn [count_occ].
    destruct b as [|b]; cbn [Nat.eqb].
    + destruct (Nat.eq_dec 0 0) as [_|]; [|contradiction]. f_equal. lia.
    + destruct (Nat.eq_dec (S b) 0) as [|_]; [discriminate|]. reflexivity.
Qed.

(** X10. The atomic variant in a grid of one block, for any reducer
    (whether its identity is bitwise zero or not) and any schedule: the
    accumulator and the counter are never touched, thread 0 is last and
    stores the combine of the values of the block to the tally slot, and
    three steps of the block are enough to get it through. *)
Theorem atomic_single_block (sched : list nat) :
  let st := run1 sched (init [blk] zero) in
  device_mem st = zero /\ written st = false /\ device_count st = 0 /\
  cas_winners st = [] /\ initializers st = [] /\ combined_blocks st = [] /\
  (finished st = true ->
     last_blocks st = [0] /\ pinned_writes st = [(0, reduce_all blk)] /\
     val_ptr st = Some (reduce_all blk)) /\
  (3 <= count_occ Nat.eq_dec sched 0 -> finished st = true).
Proof.
  intros st. unfold st. change (init [blk] zero) with (after 0). rewrite run_after.
  cbn [Nat.add].
  destruct (count_occ Nat.eq_dec sched 0) as [|[|[|n]]]; cbn [Nat.min after];
    repeat split; try reflexivity; try discriminate; lia.
Qed.

End SingleBlock.

Lemma atomic_single_block_witness :
  let blk := [3; 4; 5]%Z in
  let st := @run Z sum_Z 32 32 (fun _ => 99%Z) (fun _ => 77%Z) [blk] [0; 0; 0]
              (init [blk] 0%Z) in
  finished st = true /\ device_mem st = 0%Z /\ device_count st = 0 /\
  pinned_writes st = [(0, 12%Z)] /\ val_ptr st = Some 12%Z.
Proof.
  intros blk st.
  pose proof (@atomic_single_block Z sum_Z (@laws_monoid Z sum_Z sum_Z_laws) 32 32 5
                (fun _ => 99%Z) (fun _ => 77%Z) eq_refl ltac:(lia) blk
                ltac:(simpl; lia) ltac:(simpl; lia) 0%Z [0; 0; 0])
    as (Hmem & _ & Hcnt & _ & _ & _ & Hfin & Hfair).
  assert (Hdone : finished st = true) by (apply Hfair; simpl; lia).
  destruct (Hfin Hdone) as (_ & Hp & Hv).
  split; [exact Hdone|]. split; [exact Hmem|]. split; [exact Hcnt|].
  split; [exact Hp | exact Hv].
Defined.

Lemma atomic_spin_wait_ends_witness :
  let i32 := Zmod.of_Z (2 ^ 32) in
  let vals := [[i32 5%Z; i32 3%Z]; [i32 9%Z; i32 (-3)%Z]; [i32 7%Z; i32 8%Z]] in
  let rounds := replicate 27 [2; 0; 1] in
  let st := @run int32 min_int32 32 32 (fun _ => Zmod.zero) (fun _ => Zmod.zero) vals
              (concat rounds) (init vals Zmod.zero) in
  finished st = true /\ val_ptr st = Some (i32 (-3)%Z).
Proof.
  intros i32 vals rounds st.
  assert (Huniform : Forall (fun blk : list int32 => length blk = 2) vals)
    by (repeat constructor).
  assert (Hnonzero : @identity_is_zero int32 min_int32 = false)
    by (vm_compute; reflexivity).
  assert (Htotal : @total int32 min_int32 vals = i32 (-3)%Z)
    by (vm_compute; reflexivity).
  assert (Hfair : Forall (fun round => forall b, b < numBlocks vals -> In b round) rounds).
  { apply Forall_forall. intros round Hround.
    unfold rounds in Hround. apply elem_of_replicate in Hround as [-> _].
    intros b Hb. unfold numBlocks in Hb. simpl in Hb.
    destruct b as [|[|[|b]]]; simpl; lia. }
  pose proof (@atomic_spin_wait_ends int32 min_int32 min_int32_laws 32 32 5
                (fun _ => Zmod.zero) (fun _ => Zmod.zero) eq_refl ltac:(lia)
                vals 2 ltac:(lia) ltac:(simpl; lia) Huniform Zmod.zero
                Hnonzero ltac:(unfold numBlocks; simpl; lia) rounds Hfair
                ltac:(unfold numBlocks; simpl; lia))
    as (Hfin & Hval).
  rewrite Htotal in Hval. split; assumption.
Defined.

End AtomicFacts.

(** ** [PinnedTally] *)

Module TallyFacts.
Import Tally.

(** *** The iteration over the values *)

Lemma iter_eq_end (it : StreamNodeIterator) :
  iter_eq it end_ = match m_n it with [] => true | _ => false end.
Proof. unfold iter_eq, end_. cbn [m_n]. now destruct (m_n it). Qed.

Lemma visited_from (fuel : nat) (sn : StreamNode) (rest : list StreamNode) (ns : list addr) :
  ns <> [] -> Forall (fun sn => node_list sn <> []) rest ->
  length (ns ++ slots rest) < fuel ->
  visited fuel (mkIter (sn :: rest) ns) = ns ++ slots rest.
Proof.
  revert sn rest ns. induction fuel as [|fuel IH]; intros sn rest ns Hns Hrest Hfuel; [lia|].
  destruct ns as [|n ns]; [congruence|].
  cbn [visited]. rewrite iter_eq_end. cbn [m_n deref head]. cbn [app]. f_equal.
  unfold incr. cbn [m_n m_sn].
  destruct ns as [|n' ns].
  - destruct rest as [|sn' rest].
    + cbn [app slots map concat]. destruct fuel; [reflexivity|].
      cbn [visited]. now rewrite iter_eq_end.
    + inversion Hrest as [|? ? Hsn' Hrest']; subst.
      rewrite IH; [reflexivity | exact Hsn' | exact Hrest' |].
      cbn [app length] in Hfuel. unfold slots in *. cbn [map concat] in Hfuel. lia.
  - rewrite IH; [reflexivity | discriminate | exact Hrest |].
    cbn [app length] in *. lia.
Qed.

(** From [begin()] to [end()] the loop visits every node of every stream,
    in the order of the lists. *)
Lemma visited_all (t : PinnedTally) (fuel : nat) :
  Forall (fun sn => node_list sn <> []) t ->
  length (slots t) < fuel ->
  visited fuel (begin t) = slots t.
Proof.
  intros Hne Hfuel. destruct t as [|sn rest].
  - destruct fuel; [lia|]. reflexivity.
  - inversion Hne as [|? ? Hsn Hrest]; subst. unfold begin.
    rewrite visited_from; [reflexivity | exact Hsn | exact Hrest |].
    unfold slots in *. cbn [map concat] in Hfuel. exact Hfuel.
Qed.

(** A node list left empty hides the streams behind it from the loop:
    the invariant is what the iteration rests on. *)
Example visited_stops_at_empty :
  visited 10 (begin [mkStreamNode 1 [1; 2]; mkStreamNode 2 []; mkStreamNode 3 [3]]) = [1; 2].
Proof. reflexivity. Qed.

(** *** [new_value] *)

Lemma find_stream_None (t : PinnedTally) (s : cudaStream_t) :
  find_stream t s = None -> s ∉ map stream t.
Proof.
  induction t as [|sn t IH]; cbn [find_stream map]; intros Hf.
  - apply not_elem_of_nil.
  - destruct (Nat.eqb_spec (stream sn) s) as [|Hne]; [discriminate|].
    destruct (find_stream t s); [discriminate|].
    apply not_elem_of_cons. split; [congruence | now apply IH].
Qed.

Lemma find_stream_Some (t : PinnedTally) (s : cudaStream_t) (i : nat) :
  find_stream t s = Some i ->
  exists sn, t !! i = Some sn /\ stream sn = s.
Proof.
  revert i. induction t as [|sn t IH]; cbn [find_stream]; intros i Hf; [discriminate|].
  destruct (Nat.eqb_spec (stream sn) s) as [Heq|Hne].
  - injection Hf as <-. now exists sn.
  - destruct (find_stream t s) as [j|] eqn:Hj; [|discriminate].
    injection Hf as <-. destruct (IH j eq_refl) as (sn' & Hsn' & Hs). now exists sn'.
Qed.

Lemma find_stream_nodes (t : PinnedTally) (s : cudaStream_t) (i : nat) (sn : StreamNode) :
  find_stream t s = Some i -> t !! i = Some sn -> nodes_of t s = node_list sn.
Proof.
  revert i. induction t as [|sn' t IH]; cbn [find_stream nodes_of]; intros i Hf Hi;
    [discriminate|].
  destruct (Nat.eqb_spec (stream sn') s) as [Heq|Hne].
  - injection Hf as <-. now injection Hi as <-.
  - destruct (find_stream t s) as [j|] eqn:Hj; [|discriminate].
    injection Hf as <-. now apply (IH j).
Qed.

Lemma find_stream_None_nodes (t : PinnedTally) (s : cudaStream_t) :
  find_stream t s = None -> nodes_of t s = [].
Proof.
  induction t as [|sn t IH]; cbn [find_stream nodes_of]; intros Hf; [reflexivity|].
  destruct (stream sn =? s); [discriminate|].
  destruct (find_stream t s); [discriminate | now apply IH].
Qed.

Lemma alter_push_streams (n : addr) (i : nat) (t : PinnedTally) :
  map stream (alter (push_node n) i t) = map stream t.
Proof.
  revert i. induction t as [|sn t IH]; intros [|i]; cbn; try reflexivity.
  now rewrite IH.
Qed.

Lemma alter_push_slots (n : addr) (i : nat) (t : PinnedTally) (sn : StreamNode) :
  t !! i = Some sn -> slots (alter (push_node n) i t) ≡ₚ n :: slots t.
Proof.
  unfold slots. revert i. induction t as [|sn' t IH]; intros [|i] Hi; try discriminate.
  - reflexivity.
  - cbn in Hi. cbn [alter list_alter map concat]. rewrite (IH i Hi).
    cbn [map concat]. apply Permutation_sym, Permutation_middle.
Qed.

Lemma alter_push_nonempty (n : addr) (i : nat) (t : PinnedTally) :
  Forall (fun sn => node_list sn <> []) t ->
  Forall (fun sn => node_list sn <> []) (alter (push_node n) i t).
Proof.
  intros Hne. revert i. induction Hne as [|sn t Hsn Ht IH]; intros [|i]; cbn.
  - constructor.
  - constructor.
  - constructor; [discriminate | exact Ht].
  - constructor; [exact Hsn | apply IH].
Qed.

Lemma alter_push_nodes (n : addr) (i : nat) (t : PinnedTally) (s s' : cudaStream_t)
    (sn : StreamNode) :
  find_stream t s = Some i ->
  nodes_of (alter (push_node n) i t) s'
  = if s' =? s then n :: nodes_of t s' else nodes_of t s'.
Proof.
  revert i. induction t as [|sn' t IH]; cbn [find_stream]; intros i Hf; [discriminate|].
  destruct (Nat.eqb_spec (stream sn') s) as [Heq|Hne].
  - injection Hf as <-. cbn [alter list_alter nodes_of push_node stream node_list].
    subst s. destruct (Nat.eqb_spec (stream sn') s') as [<-|Hne'].
    + now rewrite Nat.eqb_refl.
    + destruct (Nat.eqb_spec s' (stream sn')); [congruence | reflexivity].
  - destruct (find_stream t s) as [j|] eqn:Hj; [|discriminate].
    injection Hf as <-. cbn [alter list_alter nodes_of].
    destruct (Nat.eqb_spec (stream sn') s') as [Heq'|Hne'].
    + destruct (Nat.eqb_spec s' s); [congruence | reflexivity].
    + apply (IH j eq_refl).
Qed.

Lemma lookup_stream (t : PinnedTally) (i : nat) (sn : StreamNode) :
  t !! i = Some sn -> stream sn ∈ map stream t.
Proof.
  revert i. induction t as [|sn' t IH]; intros [|i] Hi; try discriminate; cbn [map].
  - injection Hi as ->. apply list_elem_of_here.
  - apply list_elem_of_further. now apply (IH i).
Qed.

Lemma new_value_fresh (s : cudaStream_t) (t : PinnedTally) (p : pool) :
  (new_value s t p).1.1 = fresh p /\ (new_value s t p).2 = {[fresh p]} ∪ p.
Proof. unfold new_value, pool_malloc. now destruct (find_stream t s). Qed.

Lemma new_value_tally (s : cudaStream_t) (t : PinnedTally) (p : pool) :
  (new_value s t p).1.2
  = match find_stream t s with
    | Some i => alter (push_node (fresh p)) i t
    | None => mkStreamNode s [fresh p] :: t
    end.
Proof. unfold new_value, pool_malloc. now destruct (find_stream t s). Qed.

(** [new_value] keeps the invariant. *)
Lemma new_value_wf (s : cudaStream_t) (t : PinnedTally) (p : pool) :
  wf t -> wf (new_value s t p).1.2.
Proof.
  intros [Hnd Hne]. rewrite new_value_tally. unfold wf.
  destruct (find_stream t s) as [i|] eqn:Hf.
  - rewrite alter_push_streams. split; [exact Hnd | now apply alter_push_nonempty].
  - cbn [map stream]. split.
    + apply NoDup_cons. split; [now apply find_stream_None | exact Hnd].
    + constructor; [discriminate | exact Hne].
Qed.

(** The streams afterwards: those before, and [s]. *)
Lemma new_value_streams (s s' : cudaStream_t) (t : PinnedTally) (p : pool) :
  s' ∈ map stream (new_value s t p).1.2 <-> s' = s \/ s' ∈ map stream t.
Proof.
  rewrite new_value_tally. destruct (find_stream t s) as [i|] eqn:Hf.
  - rewrite alter_push_streams. split; [now right|]. intros [->|Hin]; [|exact Hin].
    destruct (find_stream_Some _ _ _ Hf) as (sn & Hsn & <-).
    apply lookup_stream with i. exact Hsn.
  - cbn [map stream]. apply elem_of_cons.
Qed.

(** The node goes to the front of the list of its stream; the lists of the
    other streams stay as they are. *)
Lemma new_value_nodes (s s' : cudaStream_t) (t : PinnedTally) (p : pool) :
  nodes_of (new_value s t p).1.2 s'
  = if s' =? s then (new_value s t p).1.1 :: nodes_of t s' else nodes_of t s'.
Proof.
  rewrite (proj1 (new_value_fresh s t p)), new_value_tally.
  destruct (find_stream t s) as [i|] eqn:Hf.
  - destruct (find_stream_Some _ _ _ Hf) as (sn & _ & _).
    now apply (alter_push_nodes _ _ _ _ _ sn).
  - cbn [nodes_of stream node_list]. rewrite (Nat.eqb_sym s s').
    destruct (Nat.eqb_spec s' s) as [->|Hne]; [|reflexivity].
    now rewrite (find_stream_None_nodes _ _ Hf).
Qed.

Lemma new_value_slots (s : cudaStream_t) (t : PinnedTally) (p : pool) :
  slots (new_value s t p).1.2 ≡ₚ (new_value s t p).1.1 :: slots t.
Proof.
  rewrite (proj1 (new_value_fresh s t p)), new_value_tally.
  destruct (find_stream t s) as [i|] eqn:Hf.
  - destruct (find_stream_Some _ _ _ Hf) as (sn & Hsn & _).
    now apply (alter_push_slots _ _ _ sn).
  - reflexivity.
Qed.

(** *** A tally in use *)

Lemma new_values_snoc (ss : list cudaStream_t) (s : cudaStream_t) (p0 : pool) :
  new_values (ss ++ [s]) p0
  = let '(ns, t, p) := new_values ss p0 in
    let '(n, t, p) := new_value s t p in (ns ++ [n], t, p).
Proof.
  unfold new_values. rewrite foldl_app. cbn [foldl].
  now destruct (foldl _ _ ss) as [[ns t] p].
Qed.

Lemma new_values_invariant (ss : list cudaStream_t) (p0 : pool) :
  let '(ns, t, p) := new_values ss p0 in
  wf t /\ (forall s, s ∈ map stream t <-> s ∈ ss) /\
  slots t ≡ₚ ns /\ NoDup ns /\ length ns = length ss /\
  (forall n, n ∈ ns -> n ∈ p /\ n ∉ p0) /\ p0 ⊆ p.
Proof.
  induction ss as [|s ss IH] using rev_ind.
  - cbn. split; [split; constructor|]. split; [intros s; reflexivity|].
    split; [reflexivity|]. split; [constructor|]. split; [reflexivity|].
    split; [|reflexivity]. now intros n ?%elem_of_nil.
  - rewrite new_values_snoc. destruct (new_values ss p0) as [[ns t] p].
    destruct IH as (Hwf & Hstreams & Hslots & Hnd & Hlen & Hpool & Hsub).
    pose proof (new_value_wf s t p Hwf) as Hwf'.
    pose proof (fun s' => new_value_streams s s' t p) as Hstreams'.
    pose proof (new_value_slots s t p) as Hslots'.
    pose proof (new_value_fresh s t p) as [Hn Hp].
    destruct (new_value s t p) as [[n t'] p']. cbn [fst snd] in *. subst n p'.
    assert (Hfresh : fresh p ∉ ns).
    { intros Hin. exact (is_fresh p (proj1 (Hpool _ Hin))). }
    split; [exact Hwf'|]. split; [|split; [|split; [|split; [|split]]]].
    + intros s'. rewrite Hstreams', elem_of_app, list_elem_of_singleton, Hstreams. tauto.
    + rewrite Hslots', Hslots. apply Permutation_cons_append.
    + apply NoDup_app. split; [exact Hnd|]. split; [|apply NoDup_singleton].
      intros x Hx ->%list_elem_of_singleton. exact (Hfresh Hx).
    + rewrite !length_app, Hlen. reflexivity.
    + intros n [Hin| ->%list_elem_of_singleton]%elem_of_app.
      * destruct (Hpool _ Hin). split; [now apply elem_of_union_r | assumption].
      * split; [apply elem_of_union_l; now apply elem_of_singleton|].
        intros Hin. apply (is_fresh p). now apply Hsub.
    + intros x Hx. apply elem_of_union_r. now apply Hsub.
Qed.

(** **** C9 *)

(** Claim C9. However [new_value] has been called on a new tally (for the
    streams [ss] in turn, with any pinned pool [p0] to start from): the
    streams of the stream nodes are distinct and are the streams of the
    calls, no stream node has an empty node list, every call put a newly
    allocated node at the front of the list of its stream and changed no
    other list, the addresses returned by the calls are distinct, and the
    loop from [begin()] to [end()] visits exactly these addresses, each one
    once. *)
Theorem tally_invariant_iteration (ss : list cudaStream_t) (p0 : pool) :
  let t := (new_values ss p0).1.2 in
  let ns := (new_values ss p0).1.1 in
  let p := (new_values ss p0).2 in
  (NoDup (map stream t) /\ Forall (fun sn => node_list sn <> []) t) /\
  (forall s, s ∈ map stream t <-> s ∈ ss) /\
  (forall s s',
      let r := new_value s t p in
      (r.1.1 ∉ p) /\ (r.1.1 ∉ slots t) /\ wf r.1.2 /\
      nodes_of r.1.2 s = r.1.1 :: nodes_of t s /\
      (s' <> s -> nodes_of r.1.2 s' = nodes_of t s')) /\
  NoDup ns /\ length ns = length ss /\
  visited (S (length (slots t))) (begin t) ≡ₚ ns /\
  (forall fuel, length (slots t) < fuel -> visited fuel (begin t) = slots t).
Proof.
  pose proof (new_values_invariant ss p0) as Hinv.
  destruct (new_values ss p0) as [[ns t] p]. cbn [fst snd].
  destruct Hinv as (Hwf & Hstreams & Hslots & Hnd & Hlen & Hpool & Hsub).
  assert (Hvisit : forall fuel, length (slots t) < fuel -> visited fuel (begin t) = slots t).
  { intros fuel Hfuel. apply visited_all; [apply Hwf | exact Hfuel]. }
  split; [exact Hwf|]. split; [exact Hstreams|].
  split; [|split; [exact Hnd|split; [exact Hlen|split; [|exact Hvisit]]]].
  - intros s s'. cbv zeta.
    pose proof (new_value_fresh s t p) as [Hn _]. rewrite Hn.
    split; [apply is_fresh|]. split.
    { rewrite Hslots. intros Hin. exact (is_fresh p (proj1 (Hpool _ Hin))). }
    split; [now apply new_value_wf|]. rewrite <- Hn, !new_value_nodes, Nat.eqb_refl.
    split; [reflexivity|]. intros Hne.
    destruct (Nat.eqb_spec s' s); [contradiction | reflexivity].
  - rewrite Hvisit by lia. exact Hslots.
Qed.

(** *** Giving the nodes back *)

Lemma free_nodes (ns : list addr) (p : pool) :
  foldl (fun p n => pool_free n p) p ns = p ∖ list_to_set ns.
Proof.
  revert p. induction ns as [|n ns IH]; intros p; cbn [foldl].
  - now rewrite list_to_set_nil, difference_empty_L.
  - rewrite IH. unfold pool_free.
    now rewrite list_to_set_cons, difference_difference_l_L.
Qed.

Lemma free_list_pool (t : PinnedTally) (p : pool) :
  free_list t p = ([], p ∖ list_to_set (slots t)).
Proof.
  unfold free_list. f_equal. revert p.
  induction t as [|sn t IH]; intros p; cbn [foldl].
  - unfold slots. cbn [map concat]. now rewrite list_to_set_nil, difference_empty_L.
  - rewrite IH, free_nodes. unfold slots. cbn [map concat].
    now rewrite list_to_set_app_L, difference_difference_l_L.
Qed.

Lemma new_values_pool (ss : list cudaStream_t) (p0 : pool) :
  (new_values ss p0).2 = list_to_set (new_values ss p0).1.1 ∪ p0.
Proof.
  induction ss as [|s ss IH] using rev_ind.
  - cbn. now rewrite (left_id_L ∅ (∪)).
  - rewrite new_values_snoc. destruct (new_values ss p0) as [[ns t] p].
    cbn [fst snd] in IH. pose proof (new_value_fresh s t p) as [Hn Hp].
    destruct (new_value s t p) as [[n t'] p']. cbn [fst snd] in *. subst n p' p.
    apply set_eq. intros x.
    rewrite !elem_of_union, !elem_of_list_to_set, elem_of_app, list_elem_of_singleton,
      elem_of_singleton. tauto.
Qed.

Lemma new_values_slots_pool (ss : list cudaStream_t) (p0 : pool) :
  (new_values ss p0).2 ∖ list_to_set (slots (new_values ss p0).1.2) = p0.
Proof.
  rewrite new_values_pool.
  pose proof (new_values_invariant ss p0) as Hinv.
  destruct (new_values ss p0) as [[ns t] p]. cbn [fst snd].
  destruct Hinv as (_ & _ & Hslots & _ & _ & Hpool & _).
  apply set_eq. intros x.
  rewrite elem_of_difference, elem_of_union, !elem_of_list_to_set, Hslots.
  split; [tauto|]. intros Hx. split; [now right|].
  intros Hin. now apply (Hpool x Hin).
Qed.

(** X1. [free_list()] gives every node that [new_value] took from the
    pinned pool back to it: after any calls of [new_value] on a new tally,
    [free_list()] leaves the tally empty and the pool as it was before the
    first call. *)
Theorem free_list_returns_every_node (ss : list cudaStream_t) (p0 : pool) :
  free_list (new_values ss p0).1.2 (new_values ss p0).2 = (empty, p0).
Proof.
  rewrite free_list_pool. unfold empty. f_equal. apply new_values_slots_pool.
Qed.

End TallyFacts.

(** ** The handle on the host *)

Module HostFacts.
Import Tally Host.

Section HandleFacts.

Context {T : Type} `{Reducer T}.

Lemma fold_slots (pin : addr -> T) (acc : T) (ns : list addr) :
  foldl (fun v n => combine v (pin n)) acc ns = serial_reduce acc (map pin ns).
Proof.
  unfold serial_reduce. revert acc.
  induction ns as [|n ns IH]; intros acc; [reflexivity | apply IH].
Qed.

Lemma begin_end (t : PinnedTally) :
  Forall (fun sn => node_list sn <> []) t ->
  iter_eq (begin t) end_ = match t with [] => true | _ => false end.
Proof.
  intros Hne. rewrite TallyFacts.iter_eq_end. unfold begin. cbn [m_n].
  destruct t as [|sn t]; [reflexivity|].
  inversion Hne as [|? ? Hsn _]; subst. now destruct (node_list sn).
Qed.

Lemma get_list_Some (d : Reduce_Data T) (w : world T) (l : nat) (t : PinnedTally) :
  get_list d w = Some (l, t) <->
  tally_or_val_ptr d = list_ptr (Some l) /\ tallies w !! l = Some t.
Proof.
  unfold get_list. destruct (tally_or_val_ptr d) as [[l'|]|p]; cbn.
  - destruct (tallies w !! l') as [t'|] eqn:Ht; cbn.
    + split.
      * intros [= <- <-]. now split.
      * intros [[= <-] Ht']. rewrite Ht in Ht'. now injection Ht' as <-.
    + split; [discriminate|]. intros [[= <-] Ht']. rewrite Ht in Ht'. discriminate.
  - split; [discriminate | intros [? _]; discriminate].
  - split; [discriminate | intros [? _]; discriminate].
Qed.

(** *** Reading a new handle *)

Lemma construct_lookup (this : nat) (init_val : T) (w : world T) :
  let l := fresh (dom (tallies w)) in
  objs (construct this init_val w) !! this
  = Some (mkReduce (Some this) (mkData init_val (list_ptr (Some l)) None None false)) /\
  tallies (construct this init_val w) !! l = Some Tally.empty /\
  tallies w !! l = None.
Proof.
  cbv zeta. unfold construct. cbn [objs tallies].
  rewrite !lookup_insert_eq. split; [reflexivity|]. split; [reflexivity|].
  apply not_elem_of_dom, is_fresh.
Qed.

Lemma read_empty (this l : nat) (o : Reduce T) (w : world T) :
  objs w !! this = Some o ->
  tally_or_val_ptr (val o) = list_ptr (Some l) ->
  tallies w !! l = Some [] ->
  read this w = Some (value (val o), w).
Proof.
  intros Ho Hu Ht. unfold read. rewrite Ho. cbn [mbind option_bind].
  rewrite (proj2 (get_list_Some (val o) w l []) (conj Hu Ht)). reflexivity.
Qed.

(** *** Reading twice *)

Lemma read_read (this : nat) (w w1 : world T) (v : T) :
  read this w = Some (v, w1) -> read this w1 = Some (v, w1).
Proof.
  unfold read at 1. intros Hread.
  destruct (objs w !! this) as [o|] eqn:Ho; [|discriminate].
  cbn [mbind option_bind] in Hread.
  destruct (get_list (val o) w) as [[l t]|] eqn:Hget; [|discriminate].
  cbn [mbind option_bind] in Hread.
  pose proof (proj1 (get_list_Some _ _ _ _) Hget) as [Hu Ht].
  destruct (iter_eq (begin t) end_) eqn:Hend; cbn [negb] in Hread.
  - injection Hread as <- <-. unfold read. rewrite Ho. cbn [mbind option_bind].
    rewrite Hget. cbn [mbind option_bind]. now rewrite Hend.
  - cbn [free_list] in Hread. injection Hread as <- <-.
    match goal with
    | |- read this _ = Some (?v', _) => set (v1 := v')
    end.
    rewrite (read_empty this l
               (mkReduce (parent o)
                  (mkData v1 (tally_or_val_ptr (val o)) (device_count (val o))
                          (device (val o)) (own_device_ptr (val o)))));
      [reflexivity | cbn [objs tallies val value tally_or_val_ptr] ..].
    + apply lookup_insert_eq.
    + exact Hu.
    + apply lookup_insert_eq.
Qed.

Lemma reread_fixed (this : nat) (w w1 : world T) (v : T) (n : nat) :
  read this w = Some (v, w1) ->
  Nat.iter n (reread this) (Some (v, w1)) = Some (v, w1).
Proof.
  intros Hread. induction n as [|n IH]; [reflexivity|].
  rewrite Nat.iter_succ, IH. cbn [reread mbind option_bind]. now apply read_read with w.
Qed.

Lemma read_first (this l : nat) (o : Reduce T) (t : PinnedTally) (w : world T) :
  objs w !! this = Some o ->
  tally_or_val_ptr (val o) = list_ptr (Some l) ->
  tallies w !! l = Some t ->
  wf t ->
  exists w1,
    read this w = Some (serial_reduce (value (val o)) (map (pinned w) (slots t)), w1) /\
    synchronized w1 = rev (map stream t) ++ synchronized w /\
    tallies w1 !! l = Some [] /\
    (value ∘ val) <$> objs w1 !! this
    = Some (serial_reduce (value (val o)) (map (pinned w) (slots t))).
Proof.
  intros Ho Hu Ht [_ Hne]. unfold read. rewrite Ho. cbn [mbind option_bind].
  rewrite (proj2 (get_list_Some (val o) w l t) (conj Hu Ht)). cbn [mbind option_bind].
  rewrite (begin_end t Hne). destruct t as [|sn t].
  - exists w. split; [reflexivity|]. split; [reflexivity|]. split; [exact Ht|].
    rewrite Ho. reflexivity.
  - remember (sn :: t) as t' eqn:Et'. cbn [negb free_list].
    rewrite TallyFacts.visited_all by (first [exact Hne | lia]).
    rewrite fold_slots. eexists. split; [reflexivity|].
    cbn [synchronized tallies objs deviceToHost pinned].
    rewrite !lookup_insert_eq.
    split; [reflexivity | split; reflexivity].
Qed.

(** **** C7 *)

(** Claim C7. A handle constructed with [seed] and not used since: reading
    it, by the conversion or by [get()], returns [seed] and leaves the host
    as it is (no stream is synchronized, the value of the handle is not
    combined with anything), for every reducer and every seed, wherever the
    handle is constructed. *)
Theorem read_unused_handle (this : nat) (seed : T) (w : world T) :
  read this (construct this seed w) = Some (seed, construct this seed w) /\
  get this (construct this seed w) = Some (seed, construct this seed w).
Proof.
  destruct (construct_lookup this seed w) as (Ho & Ht & _).
  unfold get. split; exact (read_empty this _ _ _ Ho eq_refl Ht).
Qed.

(** **** C6 *)

(** Claim C6. Reading a handle whose tally satisfies the invariant: the
    first read returns the value of the handle combined with every slot of
    the tally, synchronizes the streams of the tally (in the order of the
    stream list), leaves the tally empty and the result in the handle;
    any number of further reads return the same value and leave the host as
    the first read left it. *)
Theorem read_idempotent (this l : nat) (o : Reduce T) (t : PinnedTally) (w : world T) :
  objs w !! this = Some o ->
  tally_or_val_ptr (val o) = list_ptr (Some l) ->
  tallies w !! l = Some t ->
  wf t ->
  exists w1,
    read this w = Some (serial_reduce (value (val o)) (map (pinned w) (slots t)), w1) /\
    synchronized w1 = rev (map stream t) ++ synchronized w /\
    tallies w1 !! l = Some [] /\
    (value ∘ val) <$> objs w1 !! this
    = Some (serial_reduce (value (val o)) (map (pinned w) (slots t))) /\
    read this w1 = Some (serial_reduce (value (val o)) (map (pinned w) (slots t)), w1) /\
    forall n, Nat.iter n (reread this)
                (Some (serial_reduce (value (val o)) (map (pinned w) (slots t)), w1))
              = Some (serial_reduce (value (val o)) (map (pinned w) (slots t)), w1).
Proof.
  intros Ho Hu Ht Hwf.
  destruct (read_first this l o t w Ho Hu Ht Hwf) as (w1 & Hread & Hsync & Htally & Hval).
  exists w1. split; [exact Hread|]. split; [exact Hsync|]. split; [exact Htally|].
  split; [exact Hval|]. split; [now apply read_read with w|].
  intros n. now apply reread_fixed with w.
Qed.

(** **** C10 *)

Lemma world_eta (w : world T) :
  mkWorld (objs w) (tallies w) (pinned_pool w) (pinned w) (device_pool w) (zeroed_pool w)
          (synchronized w) = w.
Proof. now destruct w. Qed.

Lemma data_eta (d : Reduce_Data T) :
  mkData (value d) (tally_or_val_ptr d) (device_count d) (device d) (own_device_ptr d) = d.
Proof. now destruct d. Qed.

Lemma reduce_eta (o : Reduce T) : mkReduce (parent o) (val o) = o.
Proof. now destruct o. Qed.

(** What the copy constructor leaves at [this]. *)
Lemma copy_lookup (e : engine) (this other : nat) (o : Reduce T) (w w' : world T) :
  objs w !! other = Some o ->
  copy e this other w = Some w' ->
  exists c, objs w' !! this = Some c /\ value (val c) = identity /\
    (own_device_ptr (val c) = true -> parent c = None) /\
    (parent c <> None ->
       parent c = parent o /\ w' = set_objs (<[this := c]> (objs w)) w /\
       val c = copy_data (val o)).
Proof.
  intros Ho. unfold copy. rewrite Ho. cbn [mbind option_bind].
  destruct (parent o) as [p|] eqn:Hp.
  - unfold setupForDevice.
    destruct (negb (bool_decide (is_Some (device (copy_data (val o))))) && setupReducers e)
      eqn:Hact.
    + destruct (get_list (copy_data (val o)) w) as [[l t]|]; [|discriminate].
      cbn [mbind option_bind].
      destruct (new_value (currentStream e) t (pinned_pool w)) as [[n t'] p'].
      cbn [mbind option_bind]. intros [= <-]. eexists. cbn [set_objs objs].
      rewrite lookup_insert_eq. split; [reflexivity|]. cbn [val value parent own_device_ptr].
      split; [reflexivity|]. split; [reflexivity|]. intros Hnn. now contradiction Hnn.
    + cbn [mbind option_bind]. intros [= <-]. eexists. cbn [set_objs objs].
      rewrite lookup_insert_eq. split; [reflexivity|].
      cbn [val value parent own_device_ptr copy_data].
      split; [reflexivity|]. split; [discriminate|]. intros _.
      split; [reflexivity|]. split; reflexivity.
  - intros [= <-]. eexists. cbn [set_objs objs]. rewrite lookup_insert_eq.
    split; [reflexivity|]. cbn [val value parent own_device_ptr copy_data].
    split; [reflexivity|]. split; [discriminate|]. intros Hnn. now contradiction Hnn.
Qed.

(** Claim C10. The copy constructor of [Reduce_Data] leaves [value] at
    [Reducer::identity] and [own_device_ptr] at [false]. A copy of a handle
    made on the host at a new address holds [Reducer::identity]; if its
    [parent] is not [nullptr] (it did not set up for the device), it does
    not own device memory, and destroying it, with [combine x identity = x],
    gives back the host as it was before the copy: the value of the parent,
    and of every other handle, is unchanged. *)
Theorem copy_identity_destroy (e : engine) (this other : nat) (o : Reduce T)
    (w w' : world T) :
  (forall x : T, combine x identity = x) ->
  objs w !! other = Some o ->
  objs w !! this = None ->
  copy e this other w = Some w' ->
  (forall d : Reduce_Data T,
      value (copy_data d) = identity /\ own_device_ptr (copy_data d) = false) /\
  exists c, objs w' !! this = Some c /\ value (val c) = identity /\
    (parent c <> None -> own_device_ptr (val c) = false) /\
    (forall p op, parent c = Some p -> objs w !! p = Some op ->
       reduce p identity w' = Some w' /\
       destruct this w' = Some w /\
       objs w !! p = Some op).
Proof.
  intros Hid Ho Hfresh Hcopy. split; [intros d; split; reflexivity|].
  destruct (copy_lookup e this other o w w' Ho Hcopy) as (c & Hc & Hval & Hown & Hpar).
  exists c. split; [exact Hc|]. split; [exact Hval|]. split.
  { intros Hnn. destruct (own_device_ptr (val c)); [|reflexivity].
    now contradiction Hnn; apply Hown. }
  intros p op Hp Hop.
  assert (Hne : p <> this) by congruence.
  destruct Hpar as (_ & -> & Hdata); [congruence|].
  assert (Hreduce : reduce p identity (set_objs (<[this:=c]> (objs w)) w)
                    = Some (set_objs (<[this:=c]> (objs w)) w)).
  { unfold reduce. cbn [set_objs objs]. rewrite lookup_insert_ne by congruence.
    rewrite Hop. cbn [mbind option_bind]. rewrite Hid, data_eta, reduce_eta.
    unfold set_objs. cbn [objs tallies pinned_pool pinned device_pool zeroed_pool synchronized].
    rewrite (insert_id (<[this:=c]> (objs w)) p op); [reflexivity|].
    now rewrite lookup_insert_ne by congruence. }
  split; [exact Hreduce|]. split; [|exact Hop].
  unfold destruct. cbn [set_objs objs] in *. rewrite lookup_insert_eq.
  cbn [mbind option_bind]. rewrite Hp, bool_decide_false by congruence.
  rewrite Hval, Hreduce. cbn [mbind option_bind set_objs objs tallies pinned_pool pinned
                             device_pool zeroed_pool synchronized].
  rewrite delete_insert_eq, delete_id by exact Hfresh. now destruct w.
Qed.


(** *** A launch, then a read *)

Lemma launch_read (e : engine) (root kernel : nat) (seed v : T) (w0 : world T) :
  setupReducers e = true -> root <> kernel ->
  exists w1 w2,
    launch e root kernel (Some v) (construct root seed w0) = Some w1 /\
    read root w1 = Some (combine seed v, w2) /\
    synchronized w2 = currentStream e :: synchronized w0.
Proof.
  intros Hsetup Hne.
  destruct (construct_lookup root seed w0) as (Ho & Ht & _).
  set (wc := construct root seed w0) in *.
  set (l := fresh (dom (tallies w0))) in *.
  set (n := fresh (pinned_pool wc)).
  unfold launch, copy. rewrite Ho. cbn [mbind option_bind parent val].
  unfold setupForDevice. cbn [copy_data device val].
  rewrite bool_decide_false by (intros [? ?]; discriminate).
  rewrite Hsetup. cbn [negb andb].
  rewrite (proj2 (get_list_Some (mkData identity (list_ptr (Some l)) None None false) wc l [])
             (conj eq_refl Ht)).
  cbn [mbind option_bind new_value find_stream pool_malloc alter list_alter push_node
       stream node_list set_objs objs tallies pinned_pool pinned device_pool zeroed_pool
       synchronized value tally_or_val_ptr].
  rewrite lookup_insert_eq.
  cbn [mbind option_bind val tally_or_val_ptr store_pinned objs tallies pinned_pool pinned
       device_pool zeroed_pool synchronized].
  unfold destruct, store_pinned, set_objs, push_node, copy_data.
  cbn [objs tallies pinned_pool pinned device_pool zeroed_pool synchronized value stream
       node_list].
  rewrite lookup_insert_eq.
  cbn [mbind option_bind parent]. rewrite bool_decide_false by discriminate.
  cbn [mbind option_bind set_objs objs tallies pinned_pool pinned device_pool zeroed_pool
       synchronized teardownForDevice val own_device_ptr device device_count from_option].
  match goal with |- exists w1 w2, Some ?w = _ /\ _ => set (w1 := w); exists w1 end.
  assert (Hroot : objs w1 !! root = objs wc !! root).
  { unfold w1. cbn [objs]. rewrite lookup_delete_ne, lookup_insert_ne by congruence.
    reflexivity. }
  rewrite Ho in Hroot.
  assert (Htally : tallies w1 !! l = Some [mkStreamNode (currentStream e) [n]]).
  { unfold w1. cbn [tallies]. now rewrite lookup_insert_eq. }
  assert (Hwf : wf [mkStreamNode (currentStream e) [n]]).
  { split; [|repeat constructor; discriminate].
    cbn [map stream]. apply NoDup_singleton. }
  destruct (read_first root l _ _ w1 Hroot eq_refl Htally Hwf)
    as (w2 & Hread & Hsync & _).
  exists w2. split; [reflexivity|]. split; [|exact Hsync].
  rewrite Hread. f_equal. f_equal.
  unfold w1, n. cbn [pinned slots map concat app val value serial_reduce fold_left node_list].
  now rewrite Nat.eqb_refl.
Qed.

End HandleFacts.

Lemma read_idempotent_witness :
  let o := mkReduce (Some 0) (mkData 10%Z (list_ptr (Some 0)) None None false) in
  let t := [mkStreamNode 7 [2; 1]; mkStreamNode 3 [0]] in
  let w := mkWorld {[0 := o]} {[0 := t]} {[0; 1; 2]}
                   (fun a => if a =? 0 then 5%Z else if a =? 1 then 6%Z else 7%Z) ∅ ∅ [] in
  exists w1 : world Z,
    @read Z sum_Z 0 w = Some (28%Z, w1) /\
    synchronized w1 = [3; 7] /\
    tallies w1 !! 0 = Some [] /\
    (value ∘ val) <$> objs w1 !! 0 = Some 28%Z /\
    @read Z sum_Z 0 w1 = Some (28%Z, w1) /\
    forall n, Nat.iter n (@reread Z sum_Z 0) (Some (28%Z, w1)) = Some (28%Z, w1).
Proof.
  intros o t w.
  apply (@read_idempotent Z sum_Z 0 0 o t w).
  - vm_compute; reflexivity.
  - reflexivity.
  - vm_compute; reflexivity.
  - split; [apply (bool_decide_unpack _); vm_compute; exact I | repeat constructor; discriminate].
Defined.

Lemma copy_identity_destroy_witness :
  let w := @construct Z 0 5%Z (boot (fun _ => 0%Z)) in
  let e := mkEngine false 1 0 in
  exists w' c,
    @copy Z sum_Z e 1 0 w = Some w' /\
    objs w' !! 1 = Some c /\ value (val c) = 0%Z /\ parent c = Some 0 /\
    own_device_ptr (val c) = false /\
    @destruct Z sum_Z 1 w' = Some w.
Proof.
  intros w e.
  destruct (@copy Z sum_Z e 1 0 w) as [w'|] eqn:Hcopy; [|vm_compute in Hcopy; discriminate].
  destruct (objs w !! 0) as [o|] eqn:Ho; [|vm_compute in Ho; discriminate].
  destruct (@copy_identity_destroy Z sum_Z e 1 0 o w w' ltac:(intros x; cbn; lia) Ho
              ltac:(vm_compute; reflexivity) Hcopy)
    as (_ & c & Hc & Hval & Hown & Hdestroy).
  assert (Hp : parent c = Some 0).
  { revert Hc. vm_compute in Hcopy. injection Hcopy as <-. vm_compute. now intros [= <-]. }
  exists w', c. split; [reflexivity|]. split; [exact Hc|]. split; [exact Hval|].
  split; [exact Hp|]. split; [apply Hown; congruence|].
  exact (proj1 (proj2 (Hdestroy 0 o Hp Ho))).
Defined.

End HostFacts.

(** ** A sum through the tree variant, from the launch to the read *)

Module LaunchFacts.
Import Tally Host.

Section Contributions.

Context {T : Type} `{ReducerLaws T}.

Lemma thread_local_spec (xs : list T) : thread_local xs = reduce_all xs.
Proof. unfold thread_local. now rewrite serial_reduce_spec, combine_identity_l. Qed.

Lemma block_contributions (blk : list (list T)) :
  reduce_all (map thread_local blk) = reduce_all (concat blk).
Proof.
  induction blk as [|xs blk IH]; [reflexivity|].
  cbn [map concat]. rewrite reduce_all_app, <- IH, thread_local_spec. reflexivity.
Qed.

(** The combine of the values the threads hold is the combine of all
    contributions. *)
Lemma total_contributions (contributions : list (list (list T))) :
  TreeFacts.total (map (map thread_local) contributions)
  = serial_reduce identity (concat (concat contributions)).
Proof.
  rewrite serial_reduce_spec, combine_identity_l. unfold TreeFacts.total.
  induction contributions as [|blk cs IH]; [reflexivity|].
  cbn [map concat]. rewrite concat_app, !reduce_all_app, IH, block_contributions.
  reflexivity.
Qed.

End Contributions.

(** The serial sum in [int] is the sum of the integers, brought back into
    the range of [int]. *)
Lemma serial_sum_int32 (seed : int32) (xs : list int32) :
  @serial_reduce int32 sum_int32 seed xs
  = Zmod.of_Z (2 ^ 32) (Zmod.signed seed + sum_signed xs).
Proof.
  unfold serial_reduce, sum_signed. revert seed.
  induction xs as [|x xs IH]; intros seed; cbn [fold_left map fold_right].
  - now rewrite Z.add_0_r, Zmod.of_Z_signed.
  - rewrite IH. cbn [combine sum_int32].
    rewrite !Zmod.of_Z_add, !Zmod.of_Z_signed. symmetry. apply Zmod.add_assoc.
Qed.

Section SumInt.

#[local] Existing Instance sum_int32.
#[local] Existing Instance sum_int32_laws.

(** **** C1 *)

(** Claim C1. The tree variant with the sum over [int]: for any
    contributions of the threads, any number of blocks and of threads in a
    block, any contents of the scratch memory and any schedule in which all
    blocks get through, exactly one store to the tally slot is made, of the
    serial sum of all contributions; and a handle constructed with [seed],
    captured by such a launch and then read, returns the serial sum of the
    contributions from [seed], which is the sum of the integers brought
    back into the range of [int] (so the order of the contributions does
    not matter). *)
Theorem tree_sum_is_serial_sum (WARP_SIZE MAX_WARPS k numThreads : nat)
    (undef sd_init : nat -> int32) (contributions : list (list (list int32)))
    (mem_init : list int32) (sched : list nat)
    (seed : int32) (e : engine) (root kernel : nat) (w0 : world int32) :
  WARP_SIZE = 2 ^ k -> MAX_WARPS <= WARP_SIZE ->
  0 < numThreads -> numThreads <= WARP_SIZE * MAX_WARPS ->
  Forall (fun blk => length blk = numThreads) contributions ->
  0 < length contributions -> length mem_init = length contributions ->
  TreeFacts.fair contributions sched ->
  setupReducers e = true -> root <> kernel ->
  let vals := map (map (@thread_local int32 sum_int32)) contributions in
  let all := concat (concat contributions) in
  let st := @Tree.run int32 sum_int32 WARP_SIZE MAX_WARPS undef sd_init vals numThreads
              sched (Tree.init vals mem_init) in
  (exists b, Tree.pinned_writes st = [(b, @serial_reduce int32 sum_int32 Zmod.zero all)]) /\
  Tree.val_ptr st = Some (@serial_reduce int32 sum_int32 Zmod.zero all) /\
  (exists w1 w2,
      @launch int32 sum_int32 e root kernel (Tree.val_ptr st)
              (@construct int32 root seed w0) = Some w1 /\
      @read int32 sum_int32 root w1 = Some (@serial_reduce int32 sum_int32 seed all, w2)) /\
  @serial_reduce int32 sum_int32 seed all
  = Zmod.of_Z (2 ^ 32) (Zmod.signed seed + sum_signed all) /\
  (forall all', Permutation all all' ->
     @serial_reduce int32 sum_int32 seed all' = @serial_reduce int32 sum_int32 seed all).
Proof.
  intros Hpow Hwarps Hpos Hfit Huniform Hblocks Hmem Hfair Hsetup Hne vals all st.
  assert (Huniform' : Forall (fun blk => length blk = numThreads) vals).
  { unfold vals. rewrite Forall_map. eapply Forall_impl; [exact Huniform|].
    intros blk Hblk. cbn beta. now rewrite length_map. }
  assert (Hnb : Tree.numBlocks vals = length contributions).
  { unfold Tree.numBlocks, vals. apply length_map. }
  assert (Hfair' : TreeFacts.fair vals sched).
  { intros b Hb. apply Hfair. unfold Tree.numBlocks in *. unfold vals in Hb.
    now rewrite length_map in Hb. }
  pose proof (TreeFacts.fair_finished WARP_SIZE MAX_WARPS k undef sd_init Hpow Hwarps
                vals numThreads Hpos Hfit mem_init sched Hfair') as Hfin.
  destruct (TreeFacts.finished_delivers WARP_SIZE MAX_WARPS k undef sd_init Hpow Hwarps
              vals numThreads Hpos Hfit Huniform' mem_init sched
              ltac:(rewrite Hnb; exact Hmem) ltac:(rewrite Hnb; exact Hblocks) Hfin)
    as (b & _ & _ & Hwrites & Hval).
  fold st in Hwrites, Hval. unfold vals in Hwrites, Hval.
  rewrite total_contributions in Hwrites, Hval. fold all in Hwrites, Hval.
  split; [exists b; exact Hwrites|]. split; [exact Hval|]. split; [|split].
  - rewrite Hval.
    destruct (HostFacts.launch_read e root kernel seed
                (@serial_reduce int32 sum_int32 Zmod.zero all) w0 Hsetup Hne)
      as (w1 & w2 & Hlaunch & Hread & _).
    exists w1, w2. split; [exact Hlaunch|]. rewrite Hread. f_equal. f_equal.
    rewrite !serial_reduce_spec. f_equal. exact (combine_identity_l (reduce_all all)).
  - apply serial_sum_int32.
  - intros all' Hperm. rewrite !serial_reduce_spec. f_equal.
    symmetry. now apply reduce_all_perm.
Qed.

End SumInt.

Lemma tree_sum_is_serial_sum_witness :
  let i32 := Zmod.of_Z (2 ^ 32) in
  let contributions : list (list (list int32)) :=
    [[[i32 1; i32 2]; [i32 3]]; [[i32 4]; [i32 5; i32 6]]]%Z in
  let e := mkEngine true 2 0 in
  let vals := map (map (@thread_local int32 sum_int32)) contributions in
  let st := @Tree.run int32 sum_int32 32 32 (fun _ => Zmod.zero) (fun _ => Zmod.zero) vals 2
              (concat (replicate 5 [0; 1])) (Tree.init vals [Zmod.zero; Zmod.zero]) in
  Tree.val_ptr st = Some (i32 21%Z) /\
  exists w1 w2,
    @launch int32 sum_int32 e 0 1 (Tree.val_ptr st)
            (@construct int32 0 (i32 100%Z) (boot (fun _ => Zmod.zero))) = Some w1 /\
    @read int32 sum_int32 0 w1 = Some (i32 121%Z, w2).
Proof.
  intros i32 contributions e vals st.
  assert (Hfair : TreeFacts.fair contributions (concat (replicate 5 [0; 1]))).
  { intros b Hb. unfold Tree.numBlocks in Hb. simpl in Hb.
    destruct b as [|[|b]]; simpl; lia. }
  pose proof (tree_sum_is_serial_sum 32 32 5 2 (fun _ => Zmod.zero) (fun _ => Zmod.zero)
                contributions [Zmod.zero; Zmod.zero] (concat (replicate 5 [0; 1]))
                (i32 100%Z) e 0 1 (boot (fun _ => Zmod.zero))
                eq_refl ltac:(lia) ltac:(lia) ltac:(simpl; lia)
                ltac:(repeat constructor) ltac:(simpl; lia) eq_refl Hfair eq_refl
                ltac:(discriminate)) as Hthm.
  cbv zeta in Hthm. destruct Hthm as (_ & Hval & (w1 & w2 & Hlaunch & Hread) & _).
  assert (E1 : @serial_reduce int32 sum_int32 Zmod.zero (concat (concat contributions))
               = i32 21%Z) by (vm_compute; reflexivity).
  assert (E2 : @serial_reduce int32 sum_int32 (i32 100%Z) (concat (concat contributions))
               = i32 121%Z) by (vm_compute; reflexivity).
  rewrite E1 in Hval. rewrite E2 in Hread.
  split; [exact Hval|]. exists w1, w2. split; [exact Hlaunch | exact Hread].
Defined.

End LaunchFacts.

(** ** The life of a handle on the host *)

Module LifecycleFacts.
Import Tally Host TallyFacts HostFacts.

Section Lifecycle.

Context {T : Type} `{Reducer T}.

(** *** What a read and a launch leave behind *)

(** The read, with the host state it leaves. *)
Lemma read_spec (this l : nat) (o : Reduce T) (t : PinnedTally) (w : world T) :
  objs w !! this = Some o ->
  tally_or_val_ptr (val o) = list_ptr (Some l) ->
  tallies w !! l = Some t ->
  wf t ->
  read this w
  = let v := serial_reduce (value (val o)) (map (pinned w) (slots t)) in
    Some (v, mkWorld (<[this := mkReduce (parent o)
                                 (mkData v (tally_or_val_ptr (val o)) (device_count (val o))
                                         (device (val o)) (own_device_ptr (val o)))]> (objs w))
                     (<[l := []]> (tallies w))
                     (pinned_pool w ∖ list_to_set (slots t)) (pinned w)
                     (device_pool w) (zeroed_pool w)
                     (rev (map stream t) ++ synchronized w)).
Proof.
  intros Ho Hu Ht [_ Hne]. cbv zeta. unfold read. rewrite Ho. cbn [mbind option_bind].
  rewrite (proj2 (get_list_Some (val o) w l t) (conj Hu Ht)). cbn [mbind option_bind].
  rewrite (begin_end t Hne). destruct t as [|sn t].
  - cbn [negb slots map concat serial_reduce fold_left rev app].
    rewrite list_to_set_nil, difference_empty_L, data_eta, reduce_eta.
    rewrite !insert_id by assumption. now rewrite world_eta.
  - remember (sn :: t) as t' eqn:Et'. cbn [negb].
    rewrite free_list_pool.
    rewrite visited_all by (first [exact Hne | lia]).
    rewrite fold_slots. reflexivity.
Qed.

Lemma fresh_difference (p : gset nat) : ({[fresh p]} ∪ p) ∖ {[fresh p]} = p.
Proof.
  apply set_eq. intros x.
  rewrite elem_of_difference, elem_of_union, elem_of_singleton.
  split; [tauto|]. intros Hx. split; [now right|].
  intros ->. exact (is_fresh p Hx).
Qed.

(** The launch, with the host state it leaves. *)
Lemma launch_spec (e : engine) (root kernel l : nat) (stored : option T)
    (o : Reduce T) (t : PinnedTally) (w : world T) :
  objs w !! root = Some o -> parent o <> None -> device (val o) = None ->
  tally_or_val_ptr (val o) = list_ptr (Some l) ->
  tallies w !! l = Some t ->
  objs w !! kernel = None ->
  setupReducers e = true ->
  launch e root kernel stored w
  = let n := fresh (pinned_pool w) in
    Some (mkWorld (objs w)
                  (<[l := (new_value (currentStream e) t (pinned_pool w)).1.2]> (tallies w))
                  ({[n]} ∪ pinned_pool w)
                  (match stored with
                   | Some v => fun a => if a =? n then v else pinned w a
                   | None => pinned w
                   end)
                  (device_pool w) (zeroed_pool w) (synchronized w)).
Proof.
  intros Ho Hp Hdev Hu Ht Hk Hsetup. cbv zeta.
  unfold launch, copy. rewrite Ho. cbn [mbind option_bind].
  destruct (parent o) as [p|] eqn:Hpar; [clear Hp|congruence].
  unfold setupForDevice. cbn [copy_data device].
  rewrite Hdev, bool_decide_false by (intros [? ?]; discriminate).
  rewrite Hsetup. cbn [negb andb].
  rewrite (proj2 (get_list_Some
             (mkData identity (tally_or_val_ptr (val o)) (device_count (val o)) None false)
             w l t) (conj Hu Ht)).
  cbn [mbind option_bind].
  pose proof (new_value_fresh (currentStream e) t (pinned_pool w)) as [Hn Hpool].
  destruct (new_value (currentStream e) t (pinned_pool w)) as [[n t'] p'].
  cbn [fst snd] in *. subst n p'.
  cbn [mbind option_bind set_objs objs tallies pinned_pool pinned device_pool zeroed_pool
       synchronized value].
  rewrite lookup_insert_eq. cbn [mbind option_bind val tally_or_val_ptr].
  unfold destruct.
  destruct stored as [v|]; unfold store_pinned, set_objs;
    cbn [objs tallies pinned_pool pinned device_pool zeroed_pool synchronized];
    rewrite lookup_insert_eq; cbn [mbind option_bind parent];
    rewrite bool_decide_false by discriminate;
    cbn [mbind option_bind set_objs objs tallies pinned_pool pinned device_pool zeroed_pool
         synchronized teardownForDevice val own_device_ptr device device_count from_option];
    rewrite delete_insert_eq, delete_id by exact Hk; rewrite !fresh_difference; reflexivity.
Qed.


(** *** Several launches *)

Lemma launches_snoc (root kernel : nat) (ls : list (engine * option T))
    (x : engine * option T) (w : world T) :
  launches root kernel (ls ++ [x]) w
  = w' ← launches root kernel ls w; launch x.1 root kernel x.2 w'.
Proof. unfold launches. now rewrite foldl_app. Qed.

(** After the launches [ls] (the engine state and the value the kernel
    stores, for each), the tally of the handle is the tally after
    [new_value] for the streams of the launches, the slots hold the values
    stored, and nothing else has changed on the host. *)
Lemma launches_spec (root kernel : nat) (seed : T) (w0 : world T) (ls : list (engine * T)) :
  root <> kernel -> objs w0 !! kernel = None ->
  Forall (fun l => setupReducers l.1 = true) ls ->
  let l := fresh (dom (tallies w0)) in
  let r := new_values (map (fun l => currentStream l.1) ls) (pinned_pool w0) in
  exists pin,
    launches root kernel (map (fun l => (l.1, Some l.2)) ls) (construct root seed w0)
    = Some (mkWorld (<[root := mkReduce (Some root)
                                (mkData seed (list_ptr (Some l)) None None false)]> (objs w0))
                    (<[l := r.1.2]> (tallies w0)) r.2 pin
                    (device_pool w0) (zeroed_pool w0) (synchronized w0)) /\
    map pin r.1.1 = map snd ls.
Proof.
  intros Hne Hk Hsetup l. induction ls as [|[e v] ls IH] using rev_ind.
  - cbn. exists (pinned w0). split; reflexivity.
  - apply Forall_app in Hsetup as [Hls Hx]. specialize (IH Hls).
    inversion Hx as [|? ? He _]; subst. cbn [fst] in He.
    cbv zeta in IH |- *. destruct IH as (pin & Hrun & Hpin).
    rewrite !map_app. cbn [map fst snd]. rewrite launches_snoc, Hrun.
    cbn [mbind option_bind fst snd].
    rewrite new_values_snoc.
    pose proof (new_values_invariant (map (fun l => currentStream l.1) ls) (pinned_pool w0))
      as Hinv.
    destruct (new_values (map (fun l => currentStream l.1) ls) (pinned_pool w0))
      as [[ns t] p]. cbn [fst snd] in *.
    destruct Hinv as (_ & _ & _ & _ & _ & Hpool & _).
    erewrite launch_spec;
      [ | cbn [objs]; apply lookup_insert_eq | discriminate | reflexivity | reflexivity
        | cbn [tallies]; apply lookup_insert_eq
        | cbn [objs]; now rewrite lookup_insert_ne by exact Hne
        | exact He ].
    cbv zeta. cbn [objs tallies pinned_pool pinned device_pool zeroed_pool synchronized].
    pose proof (new_value_fresh (currentStream e) t p) as [Hn Hp].
    destruct (new_value (currentStream e) t p) as [[n t'] p'].
    cbn [fst snd] in *. subst n p'.
    eexists. split; [now rewrite insert_insert_eq|].
    rewrite map_app. cbn [map]. rewrite Nat.eqb_refl. f_equal.
    rewrite <- Hpin. apply map_ext_in. intros a Ha.
    destruct (Nat.eqb_spec a (fresh p)) as [->|]; [|reflexivity].
    exfalso. apply (is_fresh p). apply Hpool. now apply list_elem_of_In.
Qed.


(** X2. A launch that captures a handle, in any host state in which the
    handle has a tally and no device memory: the copy made for the launch
    is gone afterwards and the device memory it allocated is given back, no
    stream is synchronized, and the handles are what they were. What
    remains is one more node, taken from the pinned pool, at the front of
    the node list of the stream of the launch, holding what the kernel
    stored; the lists of the other streams and the other nodes of pinned
    memory are untouched. *)
Theorem launch_leaves_host (e : engine) (root kernel l : nat) (stored : option T)
    (o : Reduce T) (t : PinnedTally) (w : world T) :
  objs w !! root = Some o -> parent o <> None -> device (val o) = None ->
  tally_or_val_ptr (val o) = list_ptr (Some l) ->
  tallies w !! l = Some t -> wf t ->
  objs w !! kernel = None ->
  setupReducers e = true ->
  exists w1 t',
    launch e root kernel stored w = Some w1 /\
    objs w1 = objs w /\
    device_pool w1 = device_pool w /\ zeroed_pool w1 = zeroed_pool w /\
    synchronized w1 = synchronized w /\
    (fresh (pinned_pool w) ∉ pinned_pool w) /\
    pinned_pool w1 = {[fresh (pinned_pool w)]} ∪ pinned_pool w /\
    tallies w1 = <[l := t']> (tallies w) /\ wf t' /\
    nodes_of t' (currentStream e) = fresh (pinned_pool w) :: nodes_of t (currentStream e) /\
    (forall s, s <> currentStream e -> nodes_of t' s = nodes_of t s) /\
    (forall v, stored = Some v -> pinned w1 (fresh (pinned_pool w)) = v) /\
    (forall a, a <> fresh (pinned_pool w) -> pinned w1 a = pinned w a).
Proof.
  intros Ho Hp Hdev Hu Ht Hwf Hk Hsetup.
  rewrite (launch_spec e root kernel l stored o t w Ho Hp Hdev Hu Ht Hk Hsetup).
  cbv zeta. eexists. exists (new_value (currentStream e) t (pinned_pool w)).1.2.
  split; [reflexivity|].
  cbn [objs tallies pinned_pool pinned device_pool zeroed_pool synchronized].
  pose proof (new_value_nodes (currentStream e)) as Hnodes.
  pose proof (new_value_fresh (currentStream e) t (pinned_pool w)) as [Hn _].
  repeat (split; [reflexivity|]). split; [apply is_fresh|].
  split; [reflexivity|]. split; [reflexivity|]. split; [now apply new_value_wf|].
  split; [now rewrite Hnodes, Nat.eqb_refl, Hn|].
  split.
  { intros s Hs. rewrite Hnodes. now destruct (Nat.eqb_spec s (currentStream e)). }
  split.
  - intros v ->. now rewrite Nat.eqb_refl.
  - intros a Ha. destruct stored as [v|]; [|reflexivity].
    now destruct (Nat.eqb_spec a (fresh (pinned_pool w))).
Qed.

(** X4. The resources of a handle that is constructed, captured by any
    number of launches on any streams, and read: the read synchronizes
    every stream that a launch used, once each, and no other; it leaves the
    tally empty; and the pinned pool and the pools of device memory are
    afterwards what they were before the handle was constructed. *)
Theorem launches_read_resources (root kernel : nat) (seed : T) (w0 : world T)
    (ls : list (engine * T)) :
  root <> kernel -> objs w0 !! kernel = None ->
  Forall (fun l => setupReducers l.1 = true) ls ->
  exists w1 v w2 synced,
    launches root kernel (map (fun l => (l.1, Some l.2)) ls) (construct root seed w0)
    = Some w1 /\
    read root w1 = Some (v, w2) /\
    synchronized w1 = synchronized w0 /\
    synchronized w2 = synced ++ synchronized w0 /\
    NoDup synced /\
    (forall s, s ∈ synced <-> exists l, l ∈ ls /\ currentStream l.1 = s) /\
    tallies w2 !! fresh (dom (tallies w0)) = Some [] /\
    pinned_pool w2 = pinned_pool w0 /\
    device_pool w2 = device_pool w0 /\ zeroed_pool w2 = zeroed_pool w0.
Proof.
  intros Hne Hk Hsetup.
  destruct (launches_spec root kernel seed w0 ls Hne Hk Hsetup) as (pin & Hrun & Hpin).
  cbv zeta in Hrun, Hpin.
  pose proof (new_values_invariant (map (fun l => currentStream l.1) ls) (pinned_pool w0))
    as Hinv.
  pose proof (new_values_slots_pool (map (fun l => currentStream l.1) ls) (pinned_pool w0))
    as Hfree.
  destruct (new_values (map (fun l => currentStream l.1) ls) (pinned_pool w0))
    as [[ns t] p]. cbn [fst snd] in *.
  destruct Hinv as (Hwf & Hstreams & _).
  eexists. eexists. eexists. exists (rev (map stream t)).
  split; [exact Hrun|]. split.
  { erewrite read_spec; [reflexivity | cbn [objs]; apply lookup_insert_eq | reflexivity
                        | cbn [tallies]; apply lookup_insert_eq | exact Hwf]. }
  cbn [objs tallies pinned_pool pinned device_pool zeroed_pool synchronized].
  split; [reflexivity|]. split; [reflexivity|].
  split; [rewrite <- Permutation_rev; apply Hwf|]. split.
  { intros s. rewrite <- Permutation_rev, Hstreams. clear.
    induction ls as [|x ls IH]; cbn [map].
    - split; [now intros ?%elem_of_nil | now intros (? & ?%elem_of_nil & _)].
    - rewrite elem_of_cons, IH. split.
      + intros [->|(x' & Hx' & Hs)]; [exists x; split; [apply list_elem_of_here | reflexivity]|].
        exists x'. split; [now apply list_elem_of_further | exact Hs].
      + intros (x' & [->|Hx']%elem_of_cons & Hs); [now left|]. right. now exists x'. }
  split; [apply lookup_insert_eq|]. split; [exact Hfree|]. split; reflexivity.
Qed.


(** X3. A handle constructed with [seed] and captured by any number of
    launches, on any streams, whose kernels store the values [vs]: with a
    reducer that satisfies the laws, the read returns the values combined
    one after the other from [seed], in the order of the launches, although
    the tally is gone through stream by stream. *)
Theorem launches_read_value {HL : ReducerLaws T} (root kernel : nat) (seed : T)
    (w0 : world T) (ls : list (engine * T)) :
  root <> kernel -> objs w0 !! kernel = None ->
  Forall (fun l => setupReducers l.1 = true) ls ->
  exists w1 w2,
    launches root kernel (map (fun l => (l.1, Some l.2)) ls) (construct root seed w0)
    = Some w1 /\
    read root w1 = Some (serial_reduce seed (map snd ls), w2) /\
    get root w2 = Some (serial_reduce seed (map snd ls), w2).
Proof.
  intros Hne Hk Hsetup.
  destruct (launches_spec root kernel seed w0 ls Hne Hk Hsetup) as (pin & Hrun & Hpin).
  cbv zeta in Hrun, Hpin.
  pose proof (new_values_invariant (map (fun l => currentStream l.1) ls) (pinned_pool w0))
    as Hinv.
  destruct (new_values (map (fun l => currentStream l.1) ls) (pinned_pool w0))
    as [[ns t] p]. cbn [fst snd] in *.
  destruct Hinv as (Hwf & _ & Hslots & _).
  assert (Hread : exists w2, read root
             (mkWorld (<[root := mkReduce (Some root)
                          (mkData seed (list_ptr (Some (fresh (dom (tallies w0))))) None None
                                  false)]> (objs w0))
                      (<[fresh (dom (tallies w0)) := t]> (tallies w0)) p pin
                      (device_pool w0) (zeroed_pool w0) (synchronized w0))
           = Some (serial_reduce seed (map snd ls), w2)).
  { erewrite read_spec; [ | cbn [objs]; apply lookup_insert_eq | reflexivity
                          | cbn [tallies]; apply lookup_insert_eq | exact Hwf].
    cbv zeta. cbn [pinned val value]. eexists. f_equal. f_equal.
    rewrite !serial_reduce_spec. f_equal. rewrite <- Hpin.
    apply reduce_all_perm, Permutation_map, Hslots. }
  destruct Hread as (w2 & Hread). eexists. exists w2.
  split; [exact Hrun|]. split; [exact Hread|]. unfold get. exact (read_read _ _ _ _ Hread).
Qed.

(** X5. A handle that is constructed at a new address, captured by any
    number of launches and destroyed without having been read: its
    destructor deletes the tally and gives every node back, so that the
    handles, the tallies, the pinned pool and the pools of device memory are
    what they were before the handle was constructed, and no stream was
    synchronized. *)
Theorem launches_destroy_resources (root kernel : nat) (seed : T) (w0 : world T)
    (ls : list (engine * T)) :
  root <> kernel -> objs w0 !! kernel = None -> objs w0 !! root = None ->
  Forall (fun l => setupReducers l.1 = true) ls ->
  exists w1 w3,
    launches root kernel (map (fun l => (l.1, Some l.2)) ls) (construct root seed w0)
    = Some w1 /\
    destruct root w1 = Some w3 /\
    objs w3 = objs w0 /\ tallies w3 = tallies w0 /\
    pinned_pool w3 = pinned_pool w0 /\
    device_pool w3 = device_pool w0 /\ zeroed_pool w3 = zeroed_pool w0 /\
    synchronized w3 = synchronized w0.
Proof.
  intros Hne Hk Hroot Hsetup.
  destruct (launches_spec root kernel seed w0 ls Hne Hk Hsetup) as (pin & Hrun & _).
  cbv zeta in Hrun.
  pose proof (new_values_slots_pool (map (fun l => currentStream l.1) ls) (pinned_pool w0))
    as Hfree.
  destruct (new_values (map (fun l => currentStream l.1) ls) (pinned_pool w0))
    as [[ns t] p]. cbn [fst snd] in *.
  eexists. eexists. split; [exact Hrun|].
  unfold destruct. cbn [objs]. rewrite lookup_insert_eq. cbn [mbind option_bind parent].
  rewrite bool_decide_true by reflexivity.
  unfold destroy. cbn [val tally_or_val_ptr tallies]. rewrite lookup_insert_eq.
  cbn [mbind option_bind]. rewrite free_list_pool.
  cbn [mbind option_bind set_objs objs tallies pinned_pool pinned device_pool zeroed_pool
       synchronized].
  split; [reflexivity|]. unfold set_objs.
  cbn [objs tallies pinned_pool pinned device_pool zeroed_pool synchronized].
  split; [now rewrite delete_insert_eq, delete_id|].
  split.
  { rewrite delete_insert_eq, delete_id; [reflexivity|]. apply not_elem_of_dom, is_fresh. }
  split; [exact Hfree|]. repeat split.
Qed.

(** *** Copies on the host *)

(** X6. A copy of the copy that a launch made (its [parent] is [nullptr]):
    whatever the engine says, it allocates nothing and gets no node of the
    tally, it holds [Reducer::identity] and does not own the device memory;
    destroying it frees nothing and gives back the host as it was before
    the copy. *)
Theorem copy_of_launch_copy (e : engine) (this kernel : nat) (c : Reduce T) (w : world T) :
  objs w !! kernel = Some c -> parent c = None ->
  objs w !! this = None ->
  exists w1,
    copy e this kernel w = Some w1 /\
    objs w1 = <[this := mkReduce None
                  (mkData identity (tally_or_val_ptr (val c)) (device_count (val c))
                          (device (val c)) false)]> (objs w) /\
    tallies w1 = tallies w /\ pinned_pool w1 = pinned_pool w /\
    device_pool w1 = device_pool w /\ zeroed_pool w1 = zeroed_pool w /\
    destruct this w1 = Some w.
Proof.
  intros Hc Hp Hthis. unfold copy. rewrite Hc. cbn [mbind option_bind]. rewrite Hp.
  eexists. split; [reflexivity|]. unfold set_objs, copy_data.
  cbn [objs tallies pinned_pool pinned device_pool zeroed_pool synchronized].
  repeat (split; [reflexivity|]).
  unfold destruct. cbn [objs]. rewrite lookup_insert_eq. cbn [mbind option_bind parent].
  rewrite bool_decide_false by discriminate.
  unfold teardownForDevice. cbn [val own_device_ptr mbind option_bind set_objs objs tallies
    pinned_pool pinned device_pool zeroed_pool synchronized].
  rewrite delete_insert_eq, delete_id by exact Hthis. now destruct w.
Qed.

Lemma reduces_spec (this : nat) (xs : list T) (c : Reduce T) (w : world T) :
  objs w !! this = Some c ->
  reduces this xs w
  = Some (set_objs (<[this := mkReduce (parent c)
                        (mkData (serial_reduce (value (val c)) xs) (tally_or_val_ptr (val c))
                                (device_count (val c)) (device (val c))
                                (own_device_ptr (val c)))]> (objs w)) w).
Proof.
  unfold reduces. revert c w. induction xs as [|x xs IH]; intros c w Hc.
  - cbn [foldl serial_reduce fold_left]. rewrite data_eta, reduce_eta.
    unfold set_objs. rewrite insert_id by exact Hc. now rewrite world_eta.
  - cbn [foldl mbind option_bind]. unfold reduce at 2. rewrite Hc. cbn [mbind option_bind].
    rewrite (IH (mkReduce (parent c)
                   (mkData (combine (value (val c)) x) (tally_or_val_ptr (val c))
                           (device_count (val c)) (device (val c)) (own_device_ptr (val c)))))
      by (cbn [set_objs objs]; apply lookup_insert_eq).
    unfold set_objs. cbn [objs tallies pinned_pool pinned device_pool zeroed_pool synchronized
                          val value parent tally_or_val_ptr device_count device own_device_ptr].
    now rewrite insert_insert_eq.
Qed.

(** X7. A copy made on the host while no launch is pending
    ([setupReducers()] is [false]), of a root handle or of another such
    copy: what is reduced into the copy reaches the handle it stems from
    when the copy is destroyed. The value of that handle is then combined
    with the values reduced into the copy, themselves combined from
    [Reducer::identity]; nothing else changes on the host. *)
Theorem host_copy_folds_into_parent (e : engine) (this other p : nat) (o op : Reduce T)
    (xs : list T) (w : world T) :
  objs w !! other = Some o -> parent o = Some p -> objs w !! p = Some op ->
  objs w !! this = None ->
  setupReducers e = false ->
  exists w1 w2,
    copy e this other w = Some w1 /\
    reduces this xs w1 = Some w2 /\
    destruct this w2
    = Some (set_objs (<[p := mkReduce (parent op)
                         (mkData (combine (value (val op)) (serial_reduce identity xs))
                                 (tally_or_val_ptr (val op)) (device_count (val op))
                                 (device (val op)) (own_device_ptr (val op)))]> (objs w)) w).
Proof.
  intros Ho Hp Hop Hthis Hsetup.
  assert (Hne : p <> this) by congruence.
  unfold copy. rewrite Ho. cbn [mbind option_bind]. rewrite Hp.
  unfold setupForDevice. rewrite Hsetup, andb_false_r. cbn [mbind option_bind].
  eexists. eexists. split; [reflexivity|].
  split; [apply reduces_spec; cbn [set_objs objs]; apply lookup_insert_eq|].
  unfold destruct, set_objs.
  cbn [objs tallies pinned_pool pinned device_pool zeroed_pool synchronized].
  rewrite insert_insert_eq, lookup_insert_eq. cbn [mbind option_bind parent].
  rewrite bool_decide_false by congruence.
  unfold reduce. cbn [objs]. rewrite lookup_insert_ne, Hop by congruence.
  cbn [mbind option_bind set_objs objs tallies pinned_pool pinned device_pool zeroed_pool
       synchronized val value copy_data].
  f_equal. f_equal.
  rewrite delete_insert_ne, delete_insert_eq, delete_id by congruence. reflexivity.
Qed.

End Lifecycle.

Lemma launch_leaves_host_witness :
  let w := @construct Z 0 100%Z (boot (fun _ => 0%Z)) in
  exists w1,
    @launch Z sum_Z (mkEngine true 1 7) 0 1 (Some 5%Z) w = Some w1 /\
    objs w1 = objs w /\ device_pool w1 = ∅ /\ zeroed_pool w1 = ∅ /\
    pinned_pool w1 = {[0]} /\ pinned w1 0 = 5%Z.
Proof.
  intros w.
  destruct (@launch_leaves_host Z sum_Z (mkEngine true 1 7) 0 1 0 (Some 5%Z)
              (mkReduce (Some 0) (mkData 100%Z (list_ptr (Some 0)) None None false)) [] w
              ltac:(vm_compute; reflexivity) ltac:(discriminate) eq_refl eq_refl
              ltac:(vm_compute; reflexivity) ltac:(split; constructor)
              ltac:(vm_compute; reflexivity) eq_refl)
    as (w1 & t' & Hlaunch & Hobjs & Hdev & Hzero & _ & _ & Hpool & _ & _ & _ & _ & Hpin & _).
  exists w1. split; [exact Hlaunch|]. split; [exact Hobjs|].
  split; [exact Hdev|]. split; [exact Hzero|]. split.
  - rewrite Hpool. vm_compute. reflexivity.
  - now apply Hpin.
Defined.

Lemma launches_read_value_witness :
  let ls := [(mkEngine true 1 7, 5%Z); (mkEngine true 2 3, 6%Z); (mkEngine true 1 7, 10%Z)] in
  exists w1 w2,
    @launches Z sum_Z 0 1 (map (fun l => (l.1, Some l.2)) ls)
              (@construct Z 0 100%Z (boot (fun _ => 0%Z))) = Some w1 /\
    @read Z sum_Z 0 w1 = Some (121%Z, w2).
Proof.
  intros ls.
  destruct (@launches_read_value Z sum_Z sum_Z_laws 0 1 100%Z (boot (fun _ => 0%Z)) ls
              ltac:(discriminate) ltac:(vm_compute; reflexivity)
              ltac:(repeat constructor))
    as (w1 & w2 & Hrun & Hread & _).
  exists w1, w2. split; [exact Hrun | exact Hread].
Defined.

Lemma launches_read_resources_witness :
  let ls := [(mkEngine true 1 7, 5%Z); (mkEngine true 2 3, 6%Z); (mkEngine true 1 7, 10%Z)] in
  exists w1 v w2,
    @launches Z sum_Z 0 1 (map (fun l => (l.1, Some l.2)) ls)
              (@construct Z 0 100%Z (boot (fun _ => 0%Z))) = Some w1 /\
    @read Z sum_Z 0 w1 = Some (v, w2) /\
    pinned_pool w2 = ∅ /\ device_pool w2 = ∅ /\ zeroed_pool w2 = ∅ /\
    length (synchronized w2) = 2.
Proof.
  intros ls.
  destruct (@launches_read_resources Z sum_Z 0 1 100%Z (boot (fun _ => 0%Z)) ls
              ltac:(discriminate) ltac:(vm_compute; reflexivity)
              ltac:(repeat constructor))
    as (w1 & v & w2 & synced & Hrun & Hread & _ & Hsync & _ & _ & _ & Hpool & Hdev & Hzero).
  exists w1, v, w2. split; [exact Hrun|]. split; [exact Hread|].
  split; [exact Hpool|]. split; [exact Hdev|]. split; [exact Hzero|].
  revert Hread. vm_compute in Hrun. injection Hrun as <-. vm_compute.
  now intros [= _ <-].
Defined.

Lemma launches_destroy_resources_witness :
  let ls := [(mkEngine true 1 7, 5%Z); (mkEngine true 2 3, 6%Z)] in
  exists w1 w3,
    @launches Z sum_Z 0 1 (map (fun l => (l.1, Some l.2)) ls)
              (@construct Z 0 100%Z (boot (fun _ => 0%Z))) = Some w1 /\
    @destruct Z sum_Z 0 w1 = Some w3 /\
    objs w3 = ∅ /\ tallies w3 = ∅ /\ pinned_pool w3 = ∅.
Proof.
  intros ls.
  destruct (@launches_destroy_resources Z sum_Z 0 1 100%Z (boot (fun _ => 0%Z)) ls
              ltac:(discriminate) ltac:(vm_compute; reflexivity)
              ltac:(vm_compute; reflexivity) ltac:(repeat constructor))
    as (w1 & w3 & Hrun & Hdestroy & Hobjs & Htallies & Hpool & _).
  exists w1, w3. split; [exact Hrun|]. split; [exact Hdestroy|].
  split; [exact Hobjs|]. split; [exact Htallies | exact Hpool].
Defined.

Lemma copy_of_launch_copy_witness :
  let c := mkReduce None (mkData 0%Z (val_ptr (Some 0)) (Some 0) (Some 0) true) in
  let w := mkWorld {[1 := c]} ∅ {[0]} (fun _ => 0%Z) {[0]} {[0]} [] in
  exists w1,
    @copy Z sum_Z (mkEngine true 1 7) 2 1 w = Some w1 /\
    device_pool w1 = {[0]} /\ @destruct Z sum_Z 2 w1 = Some w.
Proof.
  intros c w.
  destruct (@copy_of_launch_copy Z sum_Z (mkEngine true 1 7) 2 1 c w
              ltac:(vm_compute; reflexivity) eq_refl ltac:(vm_compute; reflexivity))
    as (w1 & Hcopy & _ & _ & _ & Hdev & _ & Hdestroy).
  exists w1. split; [exact Hcopy|]. split; [exact Hdev | exact Hdestroy].
Defined.

Lemma host_copy_folds_into_parent_witness :
  let w := @construct Z 0 100%Z (boot (fun _ => 0%Z)) in
  exists w1 w2 w3,
    @copy Z sum_Z (mkEngine false 1 7) 1 0 w = Some w1 /\
    @reduces Z sum_Z 1 [1; 2; 3]%Z w1 = Some w2 /\
    @destruct Z sum_Z 1 w2 = Some w3 /\
    (value ∘ val) <$> objs w3 !! 0 = Some 106%Z.
Proof.
  intros w.
  destruct (@host_copy_folds_into_parent Z sum_Z (mkEngine false 1 7) 1 0 0
              (mkReduce (Some 0) (mkData 100%Z (list_ptr (Some 0)) None None false))
              (mkReduce (Some 0) (mkData 100%Z (list_ptr (Some 0)) None None false))
              [1; 2; 3]%Z w
              ltac:(vm_compute; reflexivity) eq_refl ltac:(vm_compute; reflexivity)
              ltac:(vm_compute; reflexivity) eq_refl)
    as (w1 & w2 & Hcopy & Hreduces & Hdestroy).
  exists w1, w2. eexists. split; [exact Hcopy|]. split; [exact Hreduces|].
  split; [exact Hdestroy|]. vm_compute. reflexivity.
Defined.

End LifecycleFacts.

(** ** Shuffles of values of any type *)

Module ShuffleFacts.
Import Bitwise BitwiseFacts Shuffle.





Section Words.

Variable undef_int : nat -> nat -> Z.
Variable junk : nat -> nat -> byte.

(** [lane] gives the thread each thread reads from, [n] is the number of
    words of the union. *)
Variable lane : nat -> nat.
Variable n : nat.











End Words.




End ShuffleFacts.
